(** * Checkpoint reconciliation of [BaseSolver] (src/solver/_solver.py)

    A shallow embedding of the solver's load paths: the taxonomy remapper
    [map_class_weights], the parameter matcher [_matched_state], the head
    adjustment [_adjust_head_parameters], the tuning load
    [load_tuning_state] and the component restore [load_state_dict].

    Python values are modelled by value.  The one object whose identity
    matters, the pretrained [state_dict] that [_adjust_head_parameters]
    mutates in place, is threaded as an explicit store that survives a raised
    exception, as the Python dictionary does. *)

From Stdlib Require Import String Ascii DecimalString Arith Lia Bool ZArith List.
Import ListNotations.

Set Implicit Arguments.

(** ** Outcomes of a Python call *)

Inductive exn : Type :=
| KeyError (key : string)
| IndexError
| RuntimeError
| TypeError
| AttributeError (name : string).

Inductive result (A : Type) : Type :=
| Ok (a : A)
| Raise (e : exn).

Arguments Ok {A} a.
Arguments Raise {A} e.

Definition rbind {A B} (r : result A) (k : A -> result B) : result B :=
  match r with
  | Ok a => k a
  | Raise e => Raise e
  end.

Notation "x <- r ;; k" := (rbind r (fun x => k))
  (at level 61, r at next level, right associativity).

(** A [for] loop whose body may raise: the loop variable state [s] is
    threaded through, the first exception leaves the loop. *)
Fixpoint for_each {A S} (xs : list A) (body : S -> A -> result S) (s : S)
  : result S :=
  match xs with
  | [] => Ok s
  | x :: rest => s' <- body s x ;; for_each rest body s'
  end.

(** Python's [enumerate]. *)
Definition enumerate {A} (xs : list A) : list (nat * A) :=
  combine (seq 0 (length xs)) xs.

(** ** Tensors

    A [torch.Tensor] is its shape and its elements in row-major order.  The
    solver only ever copies elements, so the element type is left as integers
    standing for the stored bit patterns; all tensors share one dtype. *)

Module Tensor.

Definition scalar := Z.

Record tensor : Type := mk { size : list nat; data : list scalar }.

Definition numel (s : list nat) : nat := fold_right Nat.mul 1 s.

(** The invariant every real tensor satisfies. *)
Definition wf (t : tensor) : Prop := length (data t) = numel (size t).

Definition wfb (t : tensor) : bool := length (data t) =? numel (size t).

(** [torch.Size] is a tuple: [==] is element-wise, [>] is lexicographic. *)
Fixpoint size_eqb (a b : list nat) : bool :=
  match a, b with
  | [], [] => true
  | x :: a', y :: b' => (x =? y) && size_eqb a' b'
  | _, _ => false
  end.

Fixpoint size_gtb (a b : list nat) : bool :=
  match a, b with
  | [], _ => false
  | _ :: _, [] => true
  | x :: a', y :: b' => if x =? y then size_gtb a' b' else y <? x
  end.

Definition clone (t : tensor) : tensor := mk (size t) (data t).

(** Row [i] of a row-major block whose rows have [p] elements, and the block
    with that row replaced. *)
Definition row_of {A} (p i : nat) (xs : list A) : list A :=
  firstn p (skipn (i * p) xs).

Definition put_row {A} (p i : nat) (row xs : list A) : list A :=
  firstn (i * p) xs ++ row ++ skipn (S i * p) xs.

(** [t[i]] for a non-negative Python int [i]: the [i]-th slice along the
    leading dimension. *)
Definition getitem (t : tensor) (i : nat) : result tensor :=
  match size t with
  | [] => Raise IndexError
  | n :: rs =>
      if i <? n
      then Ok (mk rs (row_of (numel rs) i (data t)))
      else Raise IndexError
  end.

(** Broadcasting of the right-hand side of [t[i] = v].  torch drops the
    leading dimensions of size 1 of [v], aligns the rest with the row's shape
    from the right and expands every dimension of size 1. *)
Fixpoint strip_ones (s : list nat) : list nat :=
  match s with
  | 1 :: s' => strip_ones s'
  | _ => s
  end.

Fixpoint map_blocks (k p : nat) (f : list scalar -> option (list scalar))
  (xs : list scalar) : option (list scalar) :=
  match k with
  | 0 => Some []
  | S k' =>
      match f (firstn p xs), map_blocks k' p f (skipn p xs) with
      | Some b, Some bs => Some (b ++ bs)
      | _, _ => None
      end
  end.

Fixpoint expand_aligned (s d : list nat) (xs : list scalar)
  : option (list scalar) :=
  match s, d with
  | [], [] => Some xs
  | a :: s', b :: d' =>
      if a =? b then map_blocks a (numel s') (expand_aligned s' d') xs
      else if a =? 1 then
        match expand_aligned s' d' xs with
        | Some ys => Some (concat (repeat ys b))
        | None => None
        end
      else None
  | _, _ => None
  end.

Definition expand_to (v : tensor) (d : list nat) : option (list scalar) :=
  let s := strip_ones (size v) in
  if length d <? length s then None
  else expand_aligned (repeat 1 (length d - length s) ++ s) d (data v).

(** [t[i] = v] for a non-negative Python int [i]. *)
Definition setitem (t : tensor) (i : nat) (v : tensor) : result tensor :=
  match size t with
  | [] => Raise IndexError
  | n :: rs =>
      if i <? n then
        match expand_to v rs with
        | Some row =>
            Ok (mk (n :: rs) (put_row (numel rs) i row (data t)))
        | None => Raise RuntimeError
        end
      else Raise IndexError
  end.

End Tensor.

Import Tensor.

(** ** The fixed correspondence table and the remapper *)

Definition obj365_ids : list nat :=
  [ 0; 46; 5; 58; 114; 55; 116; 65; 21; 40; 176; 127; 249; 24; 56; 139; 92; 78; 99; 96;
    144; 295; 178; 180; 38; 39; 13; 43; 120; 219; 148; 173; 165; 154; 137; 113; 145; 146;
    204; 8; 35; 10; 88; 84; 93; 26; 112; 82; 265; 104; 141; 152; 234; 143; 150; 97; 2;
    50; 25; 75; 98; 153; 37; 73; 115; 132; 106; 61; 163; 134; 277; 81; 133; 18; 94; 30;
    169; 70; 328; 226 ].

(** [BaseSolver.map_class_weights].  The Python function returns a tensor on
    both of its [return] statements; [None] of the result type is Python's
    [None], which the caller tests for.  [requires_grad = False] changes no
    element and has no counterpart here. *)
Definition map_class_weights (cur_tensor pretrain_tensor : tensor)
  : result (option tensor) :=
  if size_eqb (size pretrain_tensor) (size cur_tensor) then
    Ok (Some pretrain_tensor)
  else
    let adjusted_tensor := clone cur_tensor in
    if size_gtb (size pretrain_tensor) (size cur_tensor) then
      adjusted <- for_each (enumerate obj365_ids)
                    (fun adjusted '(coco_id, obj_id) =>
                       row <- getitem pretrain_tensor (obj_id + 1) ;;
                       setitem adjusted coco_id row)
                    adjusted_tensor ;;
      Ok (Some adjusted)
    else
      adjusted <- for_each (enumerate obj365_ids)
                    (fun adjusted '(coco_id, obj_id) =>
                       row <- getitem pretrain_tensor coco_id ;;
                       setitem adjusted (obj_id + 1) row)
                    adjusted_tensor ;;
      Ok (Some adjusted).

(** ** Python dictionaries

    A [dict] keeps its keys in insertion order; [state_dict()] returns an
    [OrderedDict].  Keys are unique ([wf]); assignment to a present key keeps
    its position. *)

Module Dict.
Section Dict.
Variable V : Type.

Definition dict : Type := list (string * V).

Fixpoint get (d : dict) (k : string) : option V :=
  match d with
  | [] => None
  | (k', v) :: d' => if String.eqb k' k then Some v else get d' k
  end.

(** [k in d] *)
Definition mem (d : dict) (k : string) : bool :=
  match get d k with
  | Some _ => true
  | None => false
  end.

(** [d[k]] *)
Definition getitem (d : dict) (k : string) : result V :=
  match get d k with
  | Some v => Ok v
  | None => Raise (KeyError k)
  end.

(** [d[k] = v] *)
Fixpoint set (d : dict) (k : string) (v : V) : dict :=
  match d with
  | [] => [(k, v)]
  | (k', v') :: d' =>
      if String.eqb k' k then (k, v) :: d' else (k', v') :: set d' k v
  end.

(** [del d[k]], for a key that is present. *)
Definition del (d : dict) (k : string) : dict :=
  filter (fun kv => negb (String.eqb (fst kv) k)) d.

Definition keys (d : dict) : list string := map fst d.

Definition wf (d : dict) : Prop := NoDup (keys d).
End Dict.
End Dict.

(** What [state_dict()] of a module returns. *)
Definition ParameterMapping : Type := Dict.dict tensor.

(** ** The parameter matcher *)

Record match_infos : Type :=
  { missed : list string; unmatched : list string }.

(** The body of the loop of [_matched_state] for the item [(k, v)].  Under
    [k in params] the lookup [params[k]] finds the key: its [None] branch is
    there for the match to be total. *)
Definition match_item (params : ParameterMapping)
  (acc : ParameterMapping * list string * list string)
  (item : string * tensor) : ParameterMapping * list string * list string :=
  let '(matched_state, missed_list, unmatched_list) := acc in
  let '(k, v) := item in
  if Dict.mem params k then
    match Dict.get params k with
    | Some p =>
        if size_eqb (size v) (size p)
        then (Dict.set matched_state k p, missed_list, unmatched_list)
        else (matched_state, missed_list, unmatched_list ++ [k])
    | None => acc
    end
  else (matched_state, missed_list ++ [k], unmatched_list).

(** [BaseSolver._matched_state].  It reads its two arguments and builds three
    fresh containers; nothing it is given is written to. *)
Definition _matched_state (state params : ParameterMapping)
  : ParameterMapping * match_infos :=
  let '(matched_state, missed_list, unmatched_list) :=
    fold_left (match_item params) state ([], [], []) in
  (matched_state, {| missed := missed_list; unmatched := unmatched_list |}).

(** ** Lines written by [print] *)

Inductive line : Type :=
| Cannot_adjust (param_name : string)
    (* Cannot adjust parameter '{param_name}' due to size mismatch. *)
| Load_model (infos : match_infos)      (* Load model.state_dict, {infos} *)
| Load_last_epoch                       (* Load last_epoch *)
| Load_component (k : string)           (* Load {k}.state_dict *)
| Load_from_model (k : string)   (* Load {k}.state_dict from model.state_dict *)
| Not_load (k : string).                (* Not load {k}.state_dict *)

(** ** Mutable state

    A computation over a store [S] that may raise.  An exception keeps the
    store as the computation left it: what was written before the [raise]
    stays written. *)

Definition M (S A : Type) : Type := S -> result A * S.

Definition ret {S A} (a : A) : M S A := fun s => (Ok a, s).

Definition raise {S A} (e : exn) : M S A := fun s => (Raise e, s).

Definition bind {S A B} (m : M S A) (k : A -> M S B) : M S B :=
  fun s =>
    match m s with
    | (Ok a, s') => k a s'
    | (Raise e, s') => (Raise e, s')
    end.

Definition lift {S A} (r : result A) : M S A := fun s => (r, s).

Declare Scope store_scope.
Delimit Scope store_scope with store.
Notation "x <~ m ; k" := (bind m (fun x => k))
  (at level 61, m at next level, right associativity) : store_scope.
Notation "m ;> k" := (bind m (fun _ => k))
  (at level 61, right associativity) : store_scope.

Fixpoint for_eachM {S A L} (xs : list A) (body : L -> A -> M S L) (l : L)
  : M S L :=
  match xs with
  | [] => ret l
  | x :: rest => bind (body l x) (fun l' => for_eachM rest body l')
  end.

(** ** Head adjustment *)

(** The store of [_adjust_head_parameters]: the dictionary object bound to
    [pretrain_state_dict], which the caller still holds, and the output. *)
Record adjust_store : Type :=
  { pretrain_obj : ParameterMapping; stdout : list line }.

Definition pretrain_getitem (k : string) : M adjust_store tensor :=
  fun s => (Dict.getitem (pretrain_obj s) k, s).

Definition pretrain_contains (k : string) : M adjust_store bool :=
  fun s => (Ok (Dict.mem (pretrain_obj s) k), s).

Definition pretrain_setitem (k : string) (v : tensor) : M adjust_store unit :=
  fun s => (Ok tt, {| pretrain_obj := Dict.set (pretrain_obj s) k v;
                      stdout := stdout s |}).

Definition pretrain_delitem (k : string) : M adjust_store unit :=
  fun s =>
    if Dict.mem (pretrain_obj s) k
    then (Ok tt, {| pretrain_obj := Dict.del (pretrain_obj s) k;
                    stdout := stdout s |})
    else (Raise (KeyError k), s).

Definition print_adjust (l : line) : M adjust_store unit :=
  fun s => (Ok tt, {| pretrain_obj := pretrain_obj s;
                      stdout := stdout s ++ [l] |}).

Definition denoising_key : string := "decoder.denoising_class_embed.weight".

Definition head_param_names : list string :=
  ["decoder.enc_score_head.weight"; "decoder.enc_score_head.bias"]%string
  ++ flat_map
       (fun i =>
          let i := NilZero.string_of_uint (Nat.to_uint i) in
          [ ("decoder.dec_score_head." ++ i ++ ".weight")%string;
            ("decoder.dec_score_head." ++ i ++ ".bias")%string ])
       (seq 0 8).

(** Lines 223-231: the body of the loop over [head_param_names]. *)
Definition adjust_head (cur_state_dict : ParameterMapping)
  (adjusted_params : list string) (param_name : string)
  : M adjust_store (list string) :=
  (in_pretrain <~ pretrain_contains param_name ;
   if Dict.mem cur_state_dict param_name && in_pretrain then
     cur_tensor <~ lift (Dict.getitem cur_state_dict param_name) ;
     pretrain_tensor <~ pretrain_getitem param_name ;
     adjusted_tensor <~ lift (map_class_weights cur_tensor pretrain_tensor) ;
     match adjusted_tensor with
     | Some adjusted_tensor =>
         pretrain_setitem param_name adjusted_tensor ;>
         ret (adjusted_params ++ [param_name])
     | None =>
         print_adjust (Cannot_adjust param_name) ;>
         ret adjusted_params
     end
   else ret adjusted_params)%store.

(** [BaseSolver._adjust_head_parameters].  The value it returns is the
    dictionary it was given, after the changes made to it. *)
Definition _adjust_head_parameters (cur_state_dict : ParameterMapping)
  : M adjust_store ParameterMapping :=
  (p <~ pretrain_getitem denoising_key ;
   c <~ lift (Dict.getitem cur_state_dict denoising_key) ;
   (if negb (size_eqb (size p) (size c))
    then pretrain_delitem denoising_key
    else ret tt) ;>
   _adjusted_params <~
     for_eachM head_param_names (adjust_head cur_state_dict) [] ;
   fun s => (Ok (pretrain_obj s), s))%store.

(** ** Checkpoints and the tuning load *)

(** A deserialized checkpoint: metadata, parameter mappings and nested
    mappings such as the one stored under ['ema']. *)
#[warnings="-register-all"]
Inductive blob : Type :=
| BInt (z : Z)
| BStr (s : string)
| BParams (d : ParameterMapping)
| BMap (m : list (string * blob)).

Definition Checkpoint : Type := Dict.dict blob.

(** [torch.nn.Module.load_state_dict(state_dict, strict)] on a module whose
    own parameters are [own]: every own parameter that [state_dict] holds with
    the same shape is overwritten; a shape mismatch is an error in both modes,
    a missing or an unexpected key only when [strict].  The error is raised
    after the matching parameters were copied.  (torch's acceptance of a
    one-element vector for a 0-dim parameter is not modelled: such a pair is
    a mismatch here.) *)
Definition nn_load_state_dict (own state_dict : ParameterMapping)
  (strict : bool) : result unit * ParameterMapping :=
  let own' :=
    map (fun '(k, v) =>
           match Dict.get state_dict k with
           | Some p => if size_eqb (size p) (size v) then (k, p) else (k, v)
           | None => (k, v)
           end) own in
  let size_mismatch :=
    existsb (fun '(k, v) =>
               match Dict.get state_dict k with
               | Some p => negb (size_eqb (size p) (size v))
               | None => false
               end) own in
  let missing_keys := existsb (fun kv => negb (Dict.mem state_dict (fst kv))) own in
  let unexpected_keys := existsb (fun kv => negb (Dict.mem own (fst kv))) state_dict in
  if size_mismatch || (strict && (missing_keys || unexpected_keys))
  then (Raise RuntimeError, own')
  else (Ok tt, own').

(** Lines 174-177 of [load_tuning_state]: the pretrained source.  An entry
    that is not of the kind the checkpoint format gives it is a [TypeError]
    here. *)
Definition select_pretrain_state_dict (state : Checkpoint)
  : result ParameterMapping :=
  if Dict.mem state "ema" then
    ema <- Dict.getitem state "ema" ;;
    match ema with
    | BMap m =>
        module <- Dict.getitem m "module" ;;
        match module with
        | BParams d => Ok d
        | _ => Raise TypeError
        end
    | _ => Raise TypeError
    end
  else
    model <- Dict.getitem state "model" ;;
    match model with
    | BParams d => Ok d
    | _ => Raise TypeError
    end.

(** Lines 180-184: the [try] block and its bare [except].  [module] is
    [module.state_dict()]; the store handed to the adjustment is the selected
    dictionary itself, and the handler reads that same dictionary. *)
Definition adjust_and_match (module pretrain_state_dict : ParameterMapping)
  : ParameterMapping * match_infos * list line :=
  let '(r, s) :=
    _adjust_head_parameters module
      {| pretrain_obj := pretrain_state_dict; stdout := [] |} in
  match r with
  | Ok adjusted_state_dict =>
      (_matched_state module adjusted_state_dict, stdout s)
  | Raise _ =>
      (_matched_state module (pretrain_obj s), stdout s)
  end.

(** [BaseSolver.load_tuning_state], from the deserialized [state] on.
    [module] is the parameter mapping of [de_parallel(self.model)]; the
    second component of the result is that mapping after the call. *)
Definition load_tuning_state (module : ParameterMapping) (state : Checkpoint)
  : result unit * ParameterMapping * list line :=
  match select_pretrain_state_dict state with
  | Raise e => (Raise e, module, [])
  | Ok pretrain_state_dict =>
      let '(stat, infos, out) := adjust_and_match module pretrain_state_dict in
      match nn_load_state_dict module stat false with
      | (Ok _, module') => (Ok tt, module', out ++ [Load_model infos])
      | (Raise e, module') => (Raise e, module', out)
      end
  end.

(** ** The component registry *)

(** [remove_module_prefix] *)
Definition remove_module_prefix (state_dict : ParameterMapping)
  : ParameterMapping :=
  fold_left
    (fun new_state_dict '(k, v) =>
       if prefix "module." k
       then Dict.set new_state_dict (substring 7 (String.length k - 7) k) v
       else Dict.set new_state_dict k v)
    state_dict [].

(** What an attribute of the solver can hold. *)
Inductive attr : Type :=
| Opaque                     (* cfg, device, a dataloader: no state to restore *)
| PyNone
| Value (b : blob)           (* plain data, such as last_epoch *)
| NnModule (parallel : bool) (own : ParameterMapping)
    (* a torch module, inside a DataParallel wrapper when [parallel] *)
| ModelEMA (module : ParameterMapping)          (* the EMA shadow *)
| Stateful (s : blob).       (* optimizer, scheduler, scaler *)

(** [hasattr(v, 'load_state_dict')] *)
Definition has_load_state_dict (v : attr) : bool :=
  match v with
  | NnModule _ _ | ModelEMA _ | Stateful _ => true
  | _ => false
  end.

(** [model.state_dict()] of the [model] attribute, which is a torch module:
    a parallel wrapper prefixes every key of the module it wraps. *)
Definition attr_state_dict (v : attr) : result ParameterMapping :=
  match v with
  | NnModule true own => Ok (map (fun '(k, t) => (("module." ++ k)%string, t)) own)
  | NnModule false own => Ok own
  | ModelEMA _ | Stateful _ => Raise TypeError
  | _ => Raise (AttributeError "state_dict")
  end.

(** Modelled from the spec: [dist_utils.de_parallel] (src/misc, not among the
    sources), the unwrap operation "converting between a parallel-execution-ready
    component and its plain underlying form", "idempotent on
    already-unwrapped components". *)
Definition de_parallel (v : attr) : attr :=
  match v with
  | NnModule _ own => NnModule false own
  | _ => v
  end.

(** Modelled from the spec: the restore operation of the EMA shadow
    ([ModelEMA.load_state_dict], src/optim, not among the sources).  Its
    sub-blob is "a mapping containing at least a [module] key holding the
    shadow model's own parameter mapping"; the shadow model is restored from
    that mapping as any model is restored from its sub-blob. *)
Definition ema_load_state_dict (module : ParameterMapping) (state : blob)
  : result unit * ParameterMapping :=
  match state with
  | BMap m =>
      match Dict.get m "module" with
      | Some (BParams d) => nn_load_state_dict module d true
      | Some _ => (Raise TypeError, module)
      | None => (Raise (KeyError "module"), module)
      end
  | _ => (Raise TypeError, module)
  end.

(** [de_parallel(v).load_state_dict(state)]: the outcome and the object [v]
    afterwards.  A wrapper still wraps the module that was restored; the
    optimizer, the schedulers and the scaler take their sub-blob as it is. *)
Definition component_load_state_dict (v : attr) (state : blob)
  : result unit * attr :=
  match de_parallel v with
  | NnModule _ own =>
      match state with
      | BParams d =>
          let '(r, own') := nn_load_state_dict own d true in
          (r, match v with
              | NnModule parallel _ => NnModule parallel own'
              | _ => v
              end)
      | _ => (Raise TypeError, v)
      end
  | ModelEMA module =>
      let '(r, module') := ema_load_state_dict module state in
      (r, ModelEMA module')
  | Stateful _ => (Ok tt, Stateful state)
  | _ => (Raise (AttributeError "load_state_dict"), v)
  end.

(** The solver object: its [__dict__] in insertion order, and the output. *)
Record solver : Type := { attrs : Dict.dict attr; printed : list line }.

Definition getattr (name : string) (default : attr) : M solver attr :=
  fun s =>
    (Ok match Dict.get (attrs s) name with
        | Some v => v
        | None => default
        end, s).

Definition setattr (name : string) (v : attr) : M solver unit :=
  fun s => (Ok tt, {| attrs := Dict.set (attrs s) name v; printed := printed s |}).

Definition print (l : line) : M solver unit :=
  fun s => (Ok tt, {| attrs := attrs s; printed := printed s ++ [l] |}).

(** Restoring the object held under [k]: the object is changed in place, also
    when its restore raises. *)
Definition restore_attr (k : string) (v : attr) (state : blob) : M solver unit :=
  fun s =>
    let '(r, v') := component_load_state_dict v state in
    (r, {| attrs := Dict.set (attrs s) k v'; printed := printed s |}).

(** The body of the loop of [load_state_dict] for the attribute named [k]. *)
Definition load_component (state : Checkpoint) (k : string) : M solver unit :=
  (v <~ getattr k Opaque ;
   (if has_load_state_dict v && Dict.mem state k then
      b <~ lift (Dict.getitem state k) ;
      restore_attr k v b ;>
      print (Load_component k)
    else ret tt) ;>
   (if has_load_state_dict v && negb (Dict.mem state k) then
      if String.eqb k "ema" then
        model <~ getattr "model" PyNone ;
        match model with
        | PyNone => ret tt
        | _ =>
            model_state_dict <~ lift (attr_state_dict model) ;
            restore_attr k v
              (BMap [("module"%string,
                      BParams (remove_module_prefix model_state_dict))]) ;>
            print (Load_from_model k)
        end
      else print (Not_load k)
    else ret tt))%store.

(** [BaseSolver.load_state_dict] *)
Definition load_state_dict (state : Checkpoint) : M solver unit :=
  ((if Dict.mem state "last_epoch" then
      last_epoch <~ lift (Dict.getitem state "last_epoch") ;
      setattr "last_epoch" (Value last_epoch) ;>
      print Load_last_epoch
    else ret tt) ;>
   names <~ (fun s => (Ok (Dict.keys (attrs s)), s)) ;
   for_eachM names (fun _ k => load_component state k) tt)%store.

(** ** Vocabulary of the statements *)

(** [table c] is [obj365_ids[c]]. *)
Definition table (c : nat) : nat := nth c obj365_ids 0.

(** The loop shared by both directions of the remap: for every pair
    [(dst, src)], in order, [adjusted[dst] = source[src]]. *)
Definition copy_rows (source : tensor) (pairs : list (nat * nat))
  (adjusted : tensor) : result tensor :=
  for_each pairs
    (fun adjusted '(dst, src) =>
       row <- getitem source src ;; setitem adjusted dst row)
    adjusted.

Fixpoint nodupb (l : list nat) : bool :=
  match l with
  | [] => true
  | x :: l' => negb (existsb (Nat.eqb x) l') && nodupb l'
  end.

(** The (destination, source) pairs of the two loops of [map_class_weights]:
    towards the compact taxonomy and towards the superset taxonomy. *)
Definition contract_pairs : list (nat * nat) :=
  map (fun '(coco_id, obj_id) => (coco_id, obj_id + 1)) (enumerate obj365_ids).

Definition expand_pairs : list (nat * nat) :=
  map (fun '(coco_id, obj_id) => (obj_id + 1, coco_id)) (enumerate obj365_ids).

Definition leading (t : tensor) : nat := hd 0 (size t).

(** The remapper as the specification words it, for one pair of tensors:
    the three cases are told apart by the leading dimensions alone. *)
Definition remap_as_specified (cur pre : tensor) : Prop :=
  (size pre = size cur -> map_class_weights cur pre = Ok (Some pre))
  /\ (size pre <> size cur -> leading cur < leading pre ->
      exists r,
        map_class_weights cur pre = Ok (Some r)
        /\ size r = size cur
        /\ (forall c, c < 80 -> getitem r c = getitem pre (table c + 1))
        /\ (forall j, 80 <= j -> getitem r j = getitem cur j))
  /\ (size pre <> size cur -> ~ leading cur < leading pre ->
      exists r,
        map_class_weights cur pre = Ok (Some r)
        /\ size r = size cur
        /\ (forall c, c < 80 -> getitem r (table c + 1) = getitem pre c)
        /\ (forall j, (forall c, c < 80 -> j <> table c + 1) ->
                      getitem r j = getitem cur j)).

(** ** Sample tensors: [arange shape from] holds [from], [from + 1], ... *)
Definition arange (shape : list nat) (from : nat) : tensor :=
  Tensor.mk shape (map Z.of_nat (seq from (numel shape))).

(** [inv P m]: the computation [m] keeps [P] of the store, whether it returns
    or raises. *)
Definition inv {S A} (P : S -> Prop) (m : M S A) : Prop :=
  forall s, P s -> P (snd (m s)).

(** The three outputs of the matcher, each on its own. *)
Definition keep_matched (params : ParameterMapping)
  (matched : ParameterMapping) (item : string * tensor) : ParameterMapping :=
  match Dict.get params (fst item) with
  | Some p =>
      if size_eqb (size (snd item)) (size p)
      then Dict.set matched (fst item) p
      else matched
  | None => matched
  end.

Definition is_missed (params : ParameterMapping) (item : string * tensor)
  : bool := negb (Dict.mem params (fst item)).

Definition is_unmatched (params : ParameterMapping) (item : string * tensor)
  : bool :=
  match Dict.get params (fst item) with
  | Some p => negb (size_eqb (size (snd item)) (size p))
  | None => false
  end.

(** A small target and candidate: one key matches, one has another shape,
    one is missing from the candidate, one is in the candidate only. *)
Definition sample_target : ParameterMapping :=
  [ ("backbone.weight"%string, arange [2; 2] 0);
    ("decoder.enc_score_head.bias"%string, arange [3] 10);
    ("decoder.query_pos.weight"%string, arange [2] 20) ].

Definition sample_candidate : ParameterMapping :=
  [ ("decoder.enc_score_head.bias"%string, arange [5] 30);
    ("backbone.weight"%string, arange [2; 2] 40);
    ("criterion.weight"%string, arange [1] 50) ].

(** A current and a pretrained mapping whose denoising embeddings differ in
    shape and whose encoder head goes from 366 rows to 81. *)
Definition sample_cur : ParameterMapping :=
  [ (denoising_key, arange [82; 1] 100);
    ("decoder.enc_score_head.weight"%string, arange [81; 1] 1000);
    ("decoder.enc_score_head.bias"%string, arange [81] 2000) ].

Definition sample_pretrain : ParameterMapping :=
  [ (denoising_key, arange [367; 1] 500);
    ("decoder.enc_score_head.weight"%string, arange [366; 1] 0);
    ("decoder.enc_score_head.bias"%string, arange [366] 3000) ].

(** [arange [366] 0] contracted into [arange [81] 1000]: entry [c] is
    [table c + 1], the last entry is the target's own. *)
Definition contracted_sample : tensor :=
  Tensor.mk [81] (map (fun c => Z.of_nat (table c + 1)) (seq 0 80) ++ [1080%Z]).

(** Shapes the remapper can reconcile: equal shapes, or equal row shapes with
    leading dimensions that hold every row the table addresses. *)
Definition remappable (c p : tensor) : Prop :=
  size p = size c
  \/ (wf c /\ wf p
      /\ exists n m rs,
          size c = n :: rs /\ size p = m :: rs
          /\ ((n < m /\ 80 <= n /\ 330 <= m) \/ (m < n /\ 330 <= n /\ 80 <= m))).

Definition enc_weight : string := "decoder.enc_score_head.weight".
Definition enc_bias : string := "decoder.enc_score_head.bias".

(** A checkpoint without EMA entry whose model holds [sample_pretrain]. *)
Definition sample_checkpoint : Checkpoint :=
  [ ("date"%string, BStr "2024-11-03T10:00:00");
    ("last_epoch"%string, BInt 71);
    ("model"%string, BParams sample_pretrain) ].

(** The value of an entry after the tuning load. *)
Definition tuned (module : ParameterMapping) (state : Checkpoint)
  (name : string) : option tensor :=
  Dict.get (snd (fst (load_tuning_state module state))) name.

(** A pretrained mapping whose encoder head weight remaps and whose encoder
    head bias, with 100 rows, does not; and one whose weight does not. *)
Definition partial_pretrain : ParameterMapping :=
  [ (denoising_key, arange [367; 1] 500);
    (enc_weight, arange [366; 1] 0);
    (enc_bias, arange [100] 3000) ].

Definition partial_checkpoint : Checkpoint :=
  [ ("model"%string, BParams partial_pretrain) ].

Definition short_pretrain : ParameterMapping :=
  [ (denoising_key, arange [82; 1] 500);
    (enc_weight, arange [100; 1] 0);
    (enc_bias, arange [366] 3000) ].

(** ** Vocabulary of the registry statements *)

(** What [remove_module_prefix] does to one key. *)
Definition strip_key (k : string) : string :=
  if prefix "module." k then substring 7 (String.length k - 7) k else k.

(** The object held under [k], as [getattr] sees it. *)
Definition attr_of (s : solver) (k : string) : attr :=
  match Dict.get (attrs s) k with
  | Some v => v
  | None => Opaque
  end.

(** A component after the loop has passed it, when it is not the EMA. *)
Definition restored (state : Checkpoint) (k : string) (v : attr) : attr :=
  if has_load_state_dict v then
    match Dict.get state k with
    | Some b => snd (component_load_state_dict v b)
    | None => v
    end
  else v.

(** The line the loop writes for it. *)
Definition report (state : Checkpoint) (k : string) (v : attr) : list line :=
  if has_load_state_dict v then
    if Dict.mem state k then [Load_component k] else [Not_load k]
  else [].

(** Every component the checkpoint has an entry for restores from it. *)
Definition restores_ok (state : Checkpoint) (a : Dict.dict attr) : Prop :=
  forall k v b,
    Dict.get a k = Some v -> has_load_state_dict v = true ->
    Dict.get state k = Some b ->
    fst (component_load_state_dict v b) = Ok tt.

(** Two mappings with the same parameter names and shapes. *)
Definition same_shapes (a b : ParameterMapping) : Prop :=
  forall k, option_map size (Dict.get a k) = option_map size (Dict.get b k).

(** A plain model with a parameter under a submodule named [module], its
    shadow, and a solver holding both. *)
Definition odd_model : ParameterMapping :=
  [ ("module.weight"%string, arange [2] 0) ].

Definition odd_shadow : ParameterMapping :=
  [ ("module.weight"%string, arange [2] 7) ].

Definition odd_solver : solver :=
  {| attrs := [ ("model"%string, NnModule false odd_model);
                ("ema"%string, ModelEMA odd_shadow) ];
     printed := [] |}.

(** A solver in training, its model wrapped for distributed execution. *)
Definition sample_solver : solver :=
  {| attrs := [ ("cfg"%string, Opaque);
                ("model"%string,
                 NnModule true [("backbone.weight"%string, arange [2; 2] 0)]);
                ("ema"%string,
                 ModelEMA [("backbone.weight"%string, arange [2; 2] 90)]);
                ("last_epoch"%string, Value (BInt (-1)));
                ("optimizer"%string, Stateful (BInt 0)) ];
     printed := [] |}.

Definition resume_checkpoint : Checkpoint :=
  [ ("last_epoch"%string, BInt 71);
    ("model"%string,
     BParams [("backbone.weight"%string, arange [2; 2] 40)]) ].

(** The solver once lines 133-135 of [load_state_dict] have run. *)
Definition after_last_epoch (state : Checkpoint) (s : solver) : solver :=
  match Dict.get state "last_epoch" with
  | Some b =>
      {| attrs := Dict.set (attrs s) "last_epoch" (Value b);
         printed := printed s ++ [Load_last_epoch] |}
  | None => s
  end.

(** ** Further samples *)

(** [arange [366] 0] with another value in row 0, the row no table entry
    addresses. *)
Definition other_background : tensor :=
  Tensor.mk [366] (put_row 1 0 [99%Z] (data (arange [366] 0))).

(** ** Vocabulary of the further statements *)

(** The entry the matcher keeps for an item of the target, if any. *)
Definition kept_entry (params : ParameterMapping) (item : string * tensor)
  : list (string * tensor) :=
  match Dict.get params (fst item) with
  | Some p => if size_eqb (size (snd item)) (size p) then [(fst item, p)] else []
  | None => []
  end.

(** Where a key of the target ends up. *)
Definition is_kept (state params : ParameterMapping) (k : string) : bool :=
  match Dict.get state k, Dict.get params k with
  | Some v, Some p => size_eqb (size v) (size p)
  | _, _ => false
  end.

Definition is_shape_clash (state params : ParameterMapping) (k : string) : bool :=
  match Dict.get state k, Dict.get params k with
  | Some v, Some p => negb (size_eqb (size v) (size p))
  | _, _ => false
  end.

(** A model and a checkpoint without denoising embedding whose encoder head
    has 81 and 366 rows. *)
Definition plain_cur : ParameterMapping :=
  [ ("backbone.weight"%string, arange [2; 2] 0);
    (enc_weight, arange [81; 1] 1000) ].

Definition plain_pretrain : ParameterMapping :=
  [ ("backbone.weight"%string, arange [2; 2] 40);
    (enc_weight, arange [366; 1] 0) ].

Definition plain_checkpoint : Checkpoint :=
  [ ("model"%string, BParams plain_pretrain) ].

(** A checkpoint of the model's own taxonomy. *)
Definition same_pretrain : ParameterMapping :=
  [ (denoising_key, arange [82; 1] 500);
    (enc_weight, arange [81; 1] 0);
    (enc_bias, arange [81] 3000);
    ("backbone.weight"%string, arange [2; 2] 40) ].

(** A solver whose model is [None] while the EMA shadow is there. *)
Definition modelless_solver : solver :=
  {| attrs := [ ("cfg"%string, Opaque);
                ("model"%string, PyNone);
                ("ema"%string,
                 ModelEMA [("backbone.weight"%string, arange [2; 2] 90)]);
                ("optimizer"%string, Stateful (BInt 0)) ];
     printed := [] |}.

(** A checkpoint written in training: it has an entry for every component
    of [sample_solver]. *)
Definition full_checkpoint : Checkpoint :=
  [ ("date"%string, BStr "2024-05-01T10:00:00");
    ("last_epoch"%string, BInt 71);
    ("model"%string,
     BParams [("backbone.weight"%string, arange [2; 2] 40)]);
    ("ema"%string,
     BMap [("module"%string,
            BParams [("backbone.weight"%string, arange [2; 2] 50)])]);
    ("optimizer"%string, BInt 9) ].

(** ** Capture and resume *)

(** What [state_dict] puts under a key: the date as a string, the object
    found under [self.last_epoch], stored as it is, or the state captured
    from a component. *)
Inductive captured : Type :=
| Date (now : string)
| Held (v : attr)
| Snapshot (b : blob).

Section Capture.

(** The components' side of the capture, not part of the solver:
    [hasattr(v, 'state_dict')] and [v.state_dict()]. *)
Variable has_state_dict : attr -> bool.
Variable component_state_dict : attr -> result blob.

(** The body of the loop of [state_dict], for the item [(k, v)] of
    [self.__dict__.items()]. *)
Definition capture_item (state : Dict.dict captured) (item : string * attr)
  : result (Dict.dict captured) :=
  let '(k, v) := item in
  if has_state_dict v then
    let v := de_parallel v in
    b <- component_state_dict v ;;
    Ok (Dict.set state k (Snapshot b))
  else Ok state.

(** [BaseSolver.state_dict]; [now] is what [datetime.now().isoformat()]
    returns. *)
Definition state_dict (now : string) (self : solver)
  : result (Dict.dict captured) :=
  let state := [] in
  let state := Dict.set state "date" (Date now) in
  last_epoch <- match Dict.get (attrs self) "last_epoch" with
                | Some v => Ok v
                | None => Raise (AttributeError "last_epoch")
                end ;;
  let state := Dict.set state "last_epoch" (Held last_epoch) in
  for_each (attrs self) capture_item state.

End Capture.

(** The captured state as a checkpoint read back from a file: plain data
    and captured states are stored as they are.  A component object held
    under [last_epoch] has no counterpart among the checkpoints modelled
    here. *)
Definition as_blob (c : captured) : option blob :=
  match c with
  | Date now => Some (BStr now)
  | Held (Value b) => Some b
  | Held _ => None
  | Snapshot b => Some b
  end.

Fixpoint saved (state : Dict.dict captured) : option Checkpoint :=
  match state with
  | [] => Some []
  | (k, c) :: rest =>
      match as_blob c, saved rest with
      | Some b, Some rest' => Some ((k, b) :: rest')
      | _, _ => None
      end
  end.

Section Resume.

(** [torch.hub.load_state_dict_from_url] and [torch.load]: the checkpoint
    behind a path, or the error of reading it. *)
Variable load_state_dict_from_url : string -> result Checkpoint.
Variable torch_load : string -> result Checkpoint.

(** [BaseSolver.load_resume_state] *)
Definition load_resume_state (path : string) : M solver unit :=
  (state <~ lift (if prefix "http" path
                  then load_state_dict_from_url path
                  else torch_load path) ;
   load_state_dict state)%store.

End Resume.

(** How torch's components capture their state: a module gives its
    parameters under its own names, an optimizer, a scheduler or a scaler
    the state it holds.  Modelled from the spec: the EMA's sub-blob, "a
    mapping containing at least a [module] key holding the shadow model's
    own parameter mapping". *)
Definition torch_state_dict (v : attr) : result blob :=
  match v with
  | NnModule _ own => Ok (BParams own)
  | ModelEMA module => Ok (BMap [("module"%string, BParams module)])
  | Stateful b => Ok b
  | _ => Raise (AttributeError "state_dict")
  end.

(** A checkpoint whose model entry has a parameter of another shape. *)
Definition stale_checkpoint : Checkpoint :=
  [ ("last_epoch"%string, BInt 71);
    ("model"%string,
     BParams [("backbone.weight"%string, arange [3; 2] 40)]);
    ("optimizer"%string, BInt 9) ].

(** * Properties *)

(** ** Rows of a row-major block *)

Section Rows.
Variable A : Type.
Implicit Types (xs row : list A) (p i j : nat).

Lemma length_row_of p i xs :
  S i * p <= length xs -> length (row_of p i xs) = p.
Proof.
  intros H. unfold row_of. rewrite length_firstn, length_skipn.
  simpl in H. lia.
Qed.

Lemma length_put_row p i row xs :
  length row = p -> S i * p <= length xs ->
  length (put_row p i row xs) = length xs.
Proof.
  intros Hr H. unfold put_row.
  rewrite !length_app, length_firstn, length_skipn. simpl in *. lia.
Qed.

Lemma row_of_put_row_same p i row xs :
  length row = p -> i * p <= length xs ->
  row_of p i (put_row p i row xs) = row.
Proof.
  intros Hr H. unfold row_of, put_row.
  rewrite skipn_app, length_firstn.
  replace (Nat.min (i * p) (length xs)) with (i * p) by lia.
  rewrite skipn_all2 by (rewrite length_firstn; lia).
  rewrite Nat.sub_diag. simpl.
  rewrite firstn_app, Hr, Nat.sub_diag. simpl.
  rewrite firstn_all2 by lia. apply app_nil_r.
Qed.

Lemma row_of_put_row_other p i j row xs :
  length row = p -> S i * p <= length xs -> j <> i ->
  row_of p j (put_row p i row xs) = row_of p j xs.
Proof.
  intros Hr H Hne. unfold row_of, put_row.
  assert (Hlen : length (firstn (i * p) xs) = i * p)
    by (rewrite length_firstn; simpl in H; lia).
  destruct (Nat.lt_ge_cases j i) as [Hlt | Hge].
  - assert (Hjp : j * p + p <= i * p) by nia.
    rewrite skipn_app, Hlen.
    replace (j * p - i * p) with 0 by lia. simpl.
    rewrite firstn_app, length_skipn, Hlen.
    replace (p - (i * p - j * p)) with 0 by lia. simpl.
    rewrite app_nil_r, skipn_firstn_comm, firstn_firstn.
    f_equal. lia.
  - assert (Hjp : S i * p <= j * p) by nia.
    rewrite skipn_app, Hlen.
    rewrite skipn_all2 by lia. simpl.
    rewrite skipn_app, Hr.
    rewrite skipn_all2 by (simpl in Hjp; lia). simpl.
    rewrite skipn_skipn. do 2 f_equal. simpl in *. lia.
Qed.
End Rows.

(** ** Tensors *)

Lemma size_eqb_eq a b : size_eqb a b = true <-> a = b.
Proof.
  revert b. induction a as [|x a IH]; intros [|y b]; simpl;
    try (split; [discriminate | congruence]); try tauto.
  rewrite andb_true_iff, Nat.eqb_eq, IH. split.
  - intros [-> ->]. reflexivity.
  - intros H. injection H as -> ->. auto.
Qed.

Lemma size_eqb_refl a : size_eqb a a = true.
Proof. now apply size_eqb_eq. Qed.

Lemma size_eqb_neq a b : size_eqb a b = false <-> a <> b.
Proof.
  rewrite <- size_eqb_eq. destruct (size_eqb a b); split; congruence.
Qed.

Lemma size_gtb_irrefl a : size_gtb a a = false.
Proof. induction a as [|x a IH]; simpl; [|rewrite Nat.eqb_refl]; auto. Qed.

(** With equal row shapes [>] compares the leading dimensions. *)
Lemma size_gtb_leading n m rs : size_gtb (n :: rs) (m :: rs) = (m <? n).
Proof.
  simpl. destruct (Nat.eqb_spec n m) as [-> | Hne]; [|reflexivity].
  now rewrite size_gtb_irrefl, Nat.ltb_irrefl.
Qed.

Lemma map_blocks_id k p f xs :
  (forall ys, length ys = p -> f ys = Some ys) ->
  length xs = k * p -> map_blocks k p f xs = Some xs.
Proof.
  intros Hf. revert xs. induction k as [|k IH]; intros xs Hlen; simpl in *.
  - now destruct xs.
  - rewrite Hf by (rewrite length_firstn; lia).
    rewrite IH by (rewrite length_skipn; lia).
    now rewrite firstn_skipn.
Qed.

Lemma expand_aligned_same d xs :
  length xs = numel d -> expand_aligned d d xs = Some xs.
Proof.
  revert xs. induction d as [|a d IH]; intros xs Hlen; simpl in *.
  - reflexivity.
  - rewrite Nat.eqb_refl. now apply map_blocks_id.
Qed.

Lemma length_strip_ones s : length (strip_ones s) <= length s.
Proof.
  induction s as [|[|[|x]] s IH]; simpl in *; lia.
Qed.

Lemma strip_ones_pad s :
  repeat 1 (length s - length (strip_ones s)) ++ strip_ones s = s.
Proof.
  induction s as [|[|[|x]] s IH]; simpl;
    try reflexivity; try (rewrite Nat.sub_diag; reflexivity).
  pose proof (length_strip_ones s).
  destruct (length (strip_ones s)) as [|k] eqn:E.
  - simpl. f_equal. now rewrite Nat.sub_0_r in IH.
  - replace (length s - k) with (S (length s - S k)) by lia.
    simpl. f_equal. exact IH.
Qed.

(** A right-hand side of the row's own shape is copied as it is. *)
Lemma expand_to_same v : wf v -> expand_to v (size v) = Some (data v).
Proof.
  intros Hwf. unfold expand_to.
  pose proof (length_strip_ones (size v)) as Hle.
  apply Nat.ltb_ge in Hle. rewrite Hle, strip_ones_pad.
  now apply expand_aligned_same.
Qed.

Lemma numel_cons n rs : numel (n :: rs) = n * numel rs.
Proof. reflexivity. Qed.

Lemma getitem_row t n rs i :
  size t = n :: rs -> i < n ->
  getitem t i = Ok (Tensor.mk rs (row_of (numel rs) i (data t))).
Proof.
  intros Hs Hi. unfold getitem. rewrite Hs.
  apply Nat.ltb_lt in Hi. now rewrite Hi.
Qed.

Lemma getitem_out_of_range t n rs i :
  size t = n :: rs -> n <= i -> getitem t i = Raise IndexError.
Proof.
  intros Hs Hi. unfold getitem. rewrite Hs.
  apply Nat.ltb_ge in Hi. now rewrite Hi.
Qed.

Lemma wf_row t n rs i :
  wf t -> size t = n :: rs -> i < n ->
  wf (Tensor.mk rs (row_of (numel rs) i (data t))).
Proof.
  intros Hwf Hs Hi. unfold wf in *. simpl.
  apply length_row_of. rewrite Hwf, Hs, numel_cons. nia.
Qed.

Lemma setitem_row t n rs i v :
  size t = n :: rs -> i < n -> wf v -> size v = rs ->
  setitem t i v
  = Ok (Tensor.mk (n :: rs) (put_row (numel rs) i (data v) (data t))).
Proof.
  intros Hs Hi Hwf Hv. subst rs. unfold setitem. rewrite Hs.
  apply Nat.ltb_lt in Hi. rewrite Hi.
  now rewrite expand_to_same.
Qed.

Lemma wf_put_row t n rs i row :
  wf t -> size t = n :: rs -> i < n -> length row = numel rs ->
  wf (Tensor.mk (n :: rs) (put_row (numel rs) i row (data t))).
Proof.
  intros Hwf Hs Hi Hr. unfold wf in *. simpl data. simpl size.
  rewrite length_put_row; [now rewrite Hwf, Hs | assumption |].
  rewrite Hwf, Hs, numel_cons. nia.
Qed.

Lemma getitem_put_row_same t n rs i row :
  wf t -> size t = n :: rs -> i < n -> length row = numel rs ->
  getitem (Tensor.mk (n :: rs) (put_row (numel rs) i row (data t))) i
  = Ok (Tensor.mk rs row).
Proof.
  intros Hwf Hs Hi Hr. erewrite getitem_row by (simpl; eauto).
  simpl. rewrite row_of_put_row_same; [reflexivity | assumption |].
  unfold wf in Hwf. rewrite Hwf, Hs, numel_cons. nia.
Qed.

Lemma getitem_put_row_other t n rs i j row :
  wf t -> size t = n :: rs -> i < n -> length row = numel rs -> j <> i ->
  getitem (Tensor.mk (n :: rs) (put_row (numel rs) i row (data t))) j
  = getitem t j.
Proof.
  intros Hwf Hs Hi Hr Hne. unfold getitem. rewrite Hs. simpl.
  destruct (j <? n); [|reflexivity].
  rewrite row_of_put_row_other; [reflexivity | assumption | | assumption].
  unfold wf in Hwf. rewrite Hwf, Hs, numel_cons. nia.
Qed.

(** ** The copy loop *)

Lemma for_each_ext {A S} (xs : list A) (f g : S -> A -> result S) s :
  (forall s x, f s x = g s x) -> for_each xs f s = for_each xs g s.
Proof.
  intros H. revert s. induction xs as [|x xs IH]; intros s; simpl.
  - reflexivity.
  - rewrite H. destruct (g s x); simpl; auto.
Qed.

Lemma for_each_map {A B S} (h : A -> B) (xs : list A)
  (f : S -> B -> result S) s :
  for_each (map h xs) f s = for_each xs (fun s x => f s (h x)) s.
Proof.
  revert s. induction xs as [|x xs IH]; intros s; simpl.
  - reflexivity.
  - destruct (f s (h x)); simpl; auto.
Qed.

Section CopyRows.
Variables (source : tensor) (m n : nat) (rs : list nat).
Hypothesis source_wf : wf source.
Hypothesis source_size : size source = m :: rs.

Let in_range (p : nat * nat) : Prop := fst p < n /\ snd p < m.

(** Every pair in range: the loop ends normally, rows that are no
    destination keep their value, and with distinct destinations every
    destination holds its source row. *)
Lemma copy_rows_rows pairs : forall adjusted,
  wf adjusted -> size adjusted = n :: rs -> Forall in_range pairs ->
  exists r,
    copy_rows source pairs adjusted = Ok r
    /\ wf r /\ size r = n :: rs
    /\ (forall j, ~ In j (map fst pairs) -> getitem r j = getitem adjusted j)
    /\ (NoDup (map fst pairs) ->
        forall dst src, In (dst, src) pairs ->
                        getitem r dst = getitem source src).
Proof.
  induction pairs as [|[dst src] pairs IH]; intros adjusted Hwf Hsize Hall.
  - exists adjusted. simpl. repeat split; auto. intros _ ? ? [].
  - inversion Hall as [|? ? [Hd Hs] Hrest]; subst. simpl in Hd, Hs.
    unfold copy_rows. simpl.
    rewrite (getitem_row _ source_size Hs). simpl.
    pose proof (wf_row source_wf source_size Hs) as Hrow.
    rewrite (setitem_row _ Hsize Hd Hrow eq_refl). simpl.
    set (adjusted' := Tensor.mk (n :: rs) _).
    assert (Hwf' : wf adjusted') by (apply wf_put_row; auto).
    destruct (IH adjusted' Hwf' eq_refl Hrest)
      as (r & Hr & Hwfr & Hsr & Hkeep & Hcopied).
    exists r. fold (copy_rows source pairs adjusted').
    repeat split; auto.
    + intros j Hj. simpl in Hj.
      rewrite Hkeep by tauto.
      apply getitem_put_row_other; auto.
    + intros Hnd dst' src' [Heq | Hin].
      * injection Heq as <- <-. inversion Hnd; subst.
        rewrite Hkeep by assumption.
        unfold adjusted'. rewrite getitem_put_row_same by auto.
        now rewrite (getitem_row _ source_size Hs).
      * inversion Hnd; subst. eauto.
Qed.

(** A pair out of range stops the loop with an [IndexError]. *)
Lemma copy_rows_out_of_range pairs : forall adjusted,
  wf adjusted -> size adjusted = n :: rs ->
  Exists (fun p => ~ in_range p) pairs ->
  copy_rows source pairs adjusted = Raise IndexError.
Proof.
  induction pairs as [|[dst src] pairs IH]; intros adjusted Hwf Hsize Hex.
  - inversion Hex.
  - unfold copy_rows. simpl.
    destruct (Nat.lt_ge_cases src m) as [Hs | Hs].
    + rewrite (getitem_row _ source_size Hs). simpl.
      pose proof (wf_row source_wf source_size Hs) as Hrow.
      destruct (Nat.lt_ge_cases dst n) as [Hd | Hd].
      * rewrite (setitem_row _ Hsize Hd Hrow eq_refl). simpl.
        apply IH; auto.
        -- apply wf_put_row; auto.
        -- inversion Hex as [? ? Hbad | ]; subst; [|assumption].
           exfalso. apply Hbad. split; assumption.
      * unfold setitem. rewrite Hsize.
        apply Nat.ltb_ge in Hd. now rewrite Hd.
    + now rewrite (getitem_out_of_range _ source_size Hs).
Qed.
End CopyRows.

(** ** The table *)

Lemma nodupb_sound l : nodupb l = true -> NoDup l.
Proof.
  induction l as [|x l IH]; simpl; intros H; constructor.
  - apply andb_true_iff in H as [H _]. apply negb_true_iff in H.
    intros Hin. assert (existsb (Nat.eqb x) l = true); [|congruence].
    apply existsb_exists. exists x. split; [assumption | apply Nat.eqb_refl].
  - apply andb_true_iff in H as [_ H]. auto.
Qed.

Lemma obj365_ids_length : length obj365_ids = 80.
Proof. reflexivity. Qed.

Lemma obj365_ids_nodup : NoDup obj365_ids.
Proof. apply nodupb_sound. vm_compute. reflexivity. Qed.

Lemma obj365_ids_bound : Forall (fun o => o <= 328) obj365_ids.
Proof.
  apply Forall_forall. intros o Hin.
  assert (H : forallb (fun o => o <=? 328) obj365_ids = true)
    by (vm_compute; reflexivity).
  rewrite forallb_forall in H. apply Nat.leb_le. auto.
Qed.

Lemma table_bound c : table c <= 328.
Proof.
  unfold table. destruct (Nat.lt_ge_cases c (length obj365_ids)) as [H | H].
  - pose proof obj365_ids_bound as Hb. rewrite Forall_forall in Hb.
    apply Hb, nth_In, H.
  - rewrite nth_overflow by assumption. lia.
Qed.

Lemma table_injective c c' :
  c < 80 -> c' < 80 -> table c = table c' -> c = c'.
Proof.
  intros Hc Hc' H. pose proof obj365_ids_nodup as Hnd.
  rewrite (NoDup_nth obj365_ids 0) in Hnd.
  apply Hnd; rewrite ?obj365_ids_length; assumption.
Qed.

Lemma in_enumerate {A} (xs : list A) (d : A) c :
  c < length xs -> In (c, nth c xs d) (enumerate xs).
Proof.
  intros Hc. unfold enumerate.
  replace (c, nth c xs d)
    with (nth c (combine (seq 0 (length xs)) xs) (0, d)).
  - apply nth_In. rewrite length_combine, length_seq. lia.
  - rewrite combine_nth by now rewrite length_seq.
    now rewrite seq_nth.
Qed.

Lemma enumerate_inv {A} (xs : list A) (d : A) c x :
  In (c, x) (enumerate xs) -> c < length xs /\ x = nth c xs d.
Proof.
  unfold enumerate. intros Hin.
  apply (In_nth _ _ (0, d)) in Hin as (i & Hi & Heq).
  rewrite length_combine, length_seq, Nat.min_id in Hi.
  rewrite combine_nth in Heq by now rewrite length_seq.
  rewrite seq_nth in Heq by assumption. simpl in Heq.
  injection Heq as <- <-. auto.
Qed.

Lemma map_fst_combine_same {A B} (l : list A) : forall (l' : list B),
  length l = length l' -> map fst (combine l l') = l.
Proof.
  induction l as [|x l IH]; intros [|y l'] H; simpl in *;
    try discriminate; [reflexivity|].
  f_equal. apply IH. lia.
Qed.

Lemma map_snd_combine_same {A B} (l : list A) : forall (l' : list B),
  length l = length l' -> map snd (combine l l') = l'.
Proof.
  induction l as [|x l IH]; intros [|y l'] H; simpl in *;
    try discriminate; [reflexivity|].
  f_equal. apply IH. lia.
Qed.

Lemma map_fst_enumerate {A} (xs : list A) :
  map fst (enumerate xs) = seq 0 (length xs).
Proof. apply map_fst_combine_same. now rewrite length_seq. Qed.

Lemma map_snd_enumerate {A} (xs : list A) :
  map snd (enumerate xs) = xs.
Proof. apply map_snd_combine_same. now rewrite length_seq. Qed.

Lemma contract_pairs_fst : map fst contract_pairs = seq 0 80.
Proof.
  unfold contract_pairs. rewrite map_map.
  erewrite map_ext; [apply (map_fst_enumerate obj365_ids)|].
  now intros [c o].
Qed.

Lemma expand_pairs_fst :
  map fst expand_pairs = map (fun o => o + 1) obj365_ids.
Proof.
  unfold expand_pairs. rewrite map_map.
  rewrite <- (map_snd_enumerate obj365_ids) at 2. rewrite map_map.
  apply map_ext. now intros [c o].
Qed.

Lemma contract_pairs_in c : c < 80 -> In (c, table c + 1) contract_pairs.
Proof.
  intros Hc. unfold contract_pairs.
  apply (in_map (fun '(coco_id, obj_id) => (coco_id, obj_id + 1))
           _ (c, table c)).
  now apply in_enumerate.
Qed.

Lemma expand_pairs_in c : c < 80 -> In (table c + 1, c) expand_pairs.
Proof.
  intros Hc. unfold expand_pairs.
  apply (in_map (fun '(coco_id, obj_id) => (obj_id + 1, coco_id))
           _ (c, table c)).
  now apply in_enumerate.
Qed.

Lemma contract_pairs_inv d s :
  In (d, s) contract_pairs -> d < 80 /\ s = table d + 1.
Proof.
  unfold contract_pairs. rewrite in_map_iff. intros ([c o] & Heq & Hin).
  injection Heq as <- <-.
  apply (enumerate_inv _ 0) in Hin as [Hc ->]. auto.
Qed.

Lemma expand_pairs_inv d s :
  In (d, s) expand_pairs -> s < 80 /\ d = table s + 1.
Proof.
  unfold expand_pairs. rewrite in_map_iff. intros ([c o] & Heq & Hin).
  injection Heq as <- <-.
  apply (enumerate_inv _ 0) in Hin as [Hc ->]. auto.
Qed.

Lemma contract_pairs_nodup : NoDup (map fst contract_pairs).
Proof. rewrite contract_pairs_fst. apply seq_NoDup. Qed.

Lemma NoDup_map_injective {A B} (f : A -> B) (l : list A) :
  (forall x y, f x = f y -> x = y) -> NoDup l -> NoDup (map f l).
Proof.
  intros Hinj. induction 1 as [|x l Hnotin Hnd IH]; simpl; constructor; auto.
  rewrite in_map_iff. intros (y & Heq & Hin).
  apply Hinj in Heq. now subst.
Qed.

Lemma expand_pairs_nodup : NoDup (map fst expand_pairs).
Proof.
  rewrite expand_pairs_fst. apply NoDup_map_injective.
  - intros x y. lia.
  - apply obj365_ids_nodup.
Qed.

Lemma expand_pairs_not_dst j :
  (forall c, c < 80 -> j <> table c + 1) -> ~ In j (map fst expand_pairs).
Proof.
  intros H Hin. rewrite in_map_iff in Hin. destruct Hin as ([d s] & <- & Hin).
  apply expand_pairs_inv in Hin as [Hs ->]. simpl in H. now apply (H s).
Qed.

Lemma contract_pairs_in_range n m :
  80 <= n -> 330 <= m ->
  Forall (fun p => fst p < n /\ snd p < m) contract_pairs.
Proof.
  intros Hn Hm. apply Forall_forall. intros [d s] Hin.
  apply contract_pairs_inv in Hin as [Hd ->]. simpl.
  pose proof (table_bound d). lia.
Qed.

Lemma expand_pairs_in_range n m :
  330 <= n -> 80 <= m ->
  Forall (fun p => fst p < n /\ snd p < m) expand_pairs.
Proof.
  intros Hn Hm. apply Forall_forall. intros [d s] Hin.
  apply expand_pairs_inv in Hin as [Hs ->]. simpl.
  pose proof (table_bound s). lia.
Qed.

(** The largest table entry is [table 78 = 328]: a contraction reads row 329,
    an expansion writes it. *)
Lemma table_78 : table 78 = 328.
Proof. reflexivity. Qed.

Lemma contract_pairs_out_of_range n m :
  n < 80 \/ m < 330 ->
  Exists (fun p => ~ (fst p < n /\ snd p < m)) contract_pairs.
Proof.
  intros H. apply Exists_exists.
  destruct (Nat.lt_ge_cases n 80) as [Hn | Hn].
  - exists (n, table n + 1). split; [now apply contract_pairs_in|].
    simpl. lia.
  - exists (78, table 78 + 1). split; [apply contract_pairs_in; lia|].
    rewrite table_78. simpl. lia.
Qed.

Lemma expand_pairs_out_of_range n m :
  n < 330 \/ m < 80 ->
  Exists (fun p => ~ (fst p < n /\ snd p < m)) expand_pairs.
Proof.
  intros H. apply Exists_exists.
  destruct (Nat.lt_ge_cases m 80) as [Hm | Hm].
  - exists (table m + 1, m). split; [now apply expand_pairs_in|].
    simpl. lia.
  - exists (table 78 + 1, 78). split; [apply expand_pairs_in; lia|].
    rewrite table_78. simpl. lia.
Qed.

(** ** The remapper, branch by branch *)

Lemma map_class_weights_same_size cur pre :
  size pre = size cur -> map_class_weights cur pre = Ok (Some pre).
Proof.
  intros H. unfold map_class_weights.
  now rewrite H, size_eqb_refl.
Qed.

Lemma map_class_weights_contract cur pre n m rs :
  size cur = n :: rs -> size pre = m :: rs -> n < m ->
  map_class_weights cur pre
  = rbind (copy_rows pre contract_pairs (clone cur))
      (fun adjusted => Ok (Some adjusted)).
Proof.
  intros Hc Hp Hlt. unfold map_class_weights.
  rewrite Hc, Hp.
  assert (size_eqb (m :: rs) (n :: rs) = false) as ->.
  { apply size_eqb_neq. intros H. injection H. lia. }
  rewrite size_gtb_leading.
  apply Nat.ltb_lt in Hlt. rewrite Hlt.
  unfold copy_rows, contract_pairs. rewrite for_each_map.
  erewrite for_each_ext; [reflexivity|]. now intros s [c o].
Qed.

Lemma map_class_weights_expand cur pre n m rs :
  size cur = n :: rs -> size pre = m :: rs -> m < n ->
  map_class_weights cur pre
  = rbind (copy_rows pre expand_pairs (clone cur))
      (fun adjusted => Ok (Some adjusted)).
Proof.
  intros Hc Hp Hlt. unfold map_class_weights.
  rewrite Hc, Hp.
  assert (size_eqb (m :: rs) (n :: rs) = false) as ->.
  { apply size_eqb_neq. intros H. injection H. lia. }
  rewrite size_gtb_leading.
  assert ((n <? m) = false) as -> by (apply Nat.ltb_ge; lia).
  unfold copy_rows, expand_pairs. rewrite for_each_map.
  erewrite for_each_ext; [reflexivity|]. now intros s [c o].
Qed.

Lemma wf_clone t : wf t -> wf (clone t).
Proof. exact (fun H => H). Qed.

Lemma getitem_clone t i : getitem (clone t) i = getitem t i.
Proof. reflexivity. Qed.

(** Contraction: the pretrained tensor has more rows. *)
Lemma contract_rows cur pre n m rs :
  wf cur -> wf pre -> size cur = n :: rs -> size pre = m :: rs ->
  n < m -> 80 <= n -> 330 <= m ->
  exists r,
    map_class_weights cur pre = Ok (Some r)
    /\ wf r /\ size r = size cur
    /\ (forall c, c < 80 -> getitem r c = getitem pre (table c + 1))
    /\ (forall j, 80 <= j -> getitem r j = getitem cur j).
Proof.
  intros Hwc Hwp Hc Hp Hlt Hn Hm.
  rewrite (map_class_weights_contract _ _ Hc Hp Hlt).
  destruct (copy_rows_rows Hwp Hp (wf_clone Hwc) Hc
              (contract_pairs_in_range Hn Hm))
    as (r & -> & Hwr & Hsr & Hkeep & Hcopied).
  exists r. simpl. repeat split; auto; try congruence.
  - intros c Hlt80. apply Hcopied.
    + apply contract_pairs_nodup.
    + now apply contract_pairs_in.
  - intros j Hj. rewrite Hkeep; [apply getitem_clone|].
    rewrite contract_pairs_fst, in_seq. lia.
Qed.

(** Expansion: the current tensor has more rows. *)
Lemma expand_rows cur pre n m rs :
  wf cur -> wf pre -> size cur = n :: rs -> size pre = m :: rs ->
  m < n -> 330 <= n -> 80 <= m ->
  exists r,
    map_class_weights cur pre = Ok (Some r)
    /\ wf r /\ size r = size cur
    /\ (forall c, c < 80 -> getitem r (table c + 1) = getitem pre c)
    /\ (forall j, (forall c, c < 80 -> j <> table c + 1) ->
                  getitem r j = getitem cur j).
Proof.
  intros Hwc Hwp Hc Hp Hlt Hn Hm.
  rewrite (map_class_weights_expand _ _ Hc Hp Hlt).
  destruct (copy_rows_rows Hwp Hp (wf_clone Hwc) Hc
              (expand_pairs_in_range Hn Hm))
    as (r & -> & Hwr & Hsr & Hkeep & Hcopied).
  exists r. simpl. repeat split; auto; try congruence.
  - intros c Hlt80. apply Hcopied.
    + apply expand_pairs_nodup.
    + now apply expand_pairs_in.
  - intros j Hj. rewrite Hkeep; [apply getitem_clone|].
    now apply expand_pairs_not_dst.
Qed.

(** Leading dimensions the table cannot address: no tensor is returned. *)
Lemma remap_index_error cur pre n m rs :
  wf cur -> wf pre -> size cur = n :: rs -> size pre = m :: rs ->
  (n < m /\ (n < 80 \/ m < 330)) \/ (m < n /\ (n < 330 \/ m < 80)) ->
  map_class_weights cur pre = Raise IndexError.
Proof.
  intros Hwc Hwp Hc Hp [[Hlt Hbad] | [Hlt Hbad]].
  - rewrite (map_class_weights_contract _ _ Hc Hp Hlt).
    now rewrite (copy_rows_out_of_range Hwp Hp (wf_clone Hwc) Hc
                   (contract_pairs_out_of_range Hbad)).
  - rewrite (map_class_weights_expand _ _ Hc Hp Hlt).
    now rewrite (copy_rows_out_of_range Hwp Hp (wf_clone Hwc) Hc
                   (expand_pairs_out_of_range Hbad)).
Qed.

(** C1 as worded fails where the table does not fit: an 81-row target and a
    100-row source have different shapes and the source's leading dimension is
    the larger one, yet no tensor comes back; row 115 of the source, read for
    compact index 4, does not exist. *)
Lemma remap_as_specified_fails :
  wf (arange [81] 1000) /\ wf (arange [100] 0)
  /\ map_class_weights (arange [81] 1000) (arange [100] 0) = Raise IndexError
  /\ ~ remap_as_specified (arange [81] 1000) (arange [100] 0).
Proof.
  split; [reflexivity|]. split; [reflexivity|].
  assert (E : map_class_weights (arange [81] 1000) (arange [100] 0)
              = Raise IndexError) by (vm_compute; reflexivity).
  split; [exact E|].
  intros (_ & H & _). destruct H as (r & Hr & _).
  - simpl. discriminate.
  - unfold leading, arange. simpl. lia.
  - rewrite E in Hr. discriminate.
Qed.

(** C1 (amended): tensors of equal shape give the pretrained tensor back.
    For well-formed tensors with the same row shape and different leading
    dimensions [n] (current) and [m] (pretrained): when [n < m], [80 <= n]
    and [330 <= m], the result is the current tensor with row [c] replaced by
    pretrained row [table c + 1] for every [c < 80], the other rows kept;
    when [m < n], [330 <= n] and [80 <= m], it is the current tensor with row
    [table c + 1] replaced by pretrained row [c] for every [c < 80], the
    other rows (row 0 among them) kept. *)
Theorem map_class_weights_remap (cur pre : tensor) :
  (size pre = size cur -> map_class_weights cur pre = Ok (Some pre))
  /\ (forall n m rs,
        wf cur -> wf pre -> size cur = n :: rs -> size pre = m :: rs ->
        (n < m -> 80 <= n -> 330 <= m ->
         exists r,
           map_class_weights cur pre = Ok (Some r)
           /\ wf r /\ size r = size cur
           /\ (forall c, c < 80 -> getitem r c = getitem pre (table c + 1))
           /\ (forall j, 80 <= j -> getitem r j = getitem cur j))
        /\ (m < n -> 330 <= n -> 80 <= m ->
            exists r,
              map_class_weights cur pre = Ok (Some r)
              /\ wf r /\ size r = size cur
              /\ (forall c, c < 80 -> getitem r (table c + 1) = getitem pre c)
              /\ (forall j, (forall c, c < 80 -> j <> table c + 1) ->
                            getitem r j = getitem cur j)
              /\ getitem r 0 = getitem cur 0)).
Proof.
  split; [apply map_class_weights_same_size|].
  intros n m rs Hwc Hwp Hc Hp. split.
  - intros. eapply contract_rows; eauto.
  - intros Hlt Hn Hm.
    destruct (expand_rows Hwc Hwp Hc Hp Hlt Hn Hm)
      as (r & Hr & Hwr & Hsr & Hcopied & Hkept).
    exists r. repeat split; auto.
    apply Hkept. intros c _. lia.
Qed.

Lemma map_class_weights_remap_witness :
  map_class_weights (arange [81] 1000) (arange [81] 0)
  = Ok (Some (arange [81] 0))
  /\ (exists r,
        map_class_weights (arange [81; 2] 1000) (arange [366; 2] 0) = Ok (Some r)
        /\ getitem r 1 = getitem (arange [366; 2] 0) 47
        /\ getitem r 80 = getitem (arange [81; 2] 1000) 80)
  /\ (exists r,
        map_class_weights (arange [366] 1000) (arange [81] 0) = Ok (Some r)
        /\ getitem r 47 = getitem (arange [81] 0) 1
        /\ getitem r 0 = getitem (arange [366] 1000) 0).
Proof.
  split; [|split].
  - apply (proj1 (map_class_weights_remap (arange [81] 1000) (arange [81] 0))).
    reflexivity.
  - pose proof (proj2 (map_class_weights_remap (arange [81; 2] 1000)
                         (arange [366; 2] 0)) 81 366 [2]
                  eq_refl eq_refl eq_refl eq_refl) as (H & _).
    destruct H as (r & Hr & _ & _ & Hcopied & Hkept); try lia.
    exists r. split; [exact Hr|]. split.
    + apply (Hcopied 1). lia.
    + apply Hkept. lia.
  - pose proof (proj2 (map_class_weights_remap (arange [366] 1000)
                         (arange [81] 0)) 366 81 []
                  eq_refl eq_refl eq_refl eq_refl) as (_ & H).
    destruct H as (r & Hr & _ & _ & Hcopied & _ & Hzero); try lia.
    exists r. split; [exact Hr|]. split.
    + apply (Hcopied 1). lia.
    + exact Hzero.
Defined.

(** ** Round trip through the table *)

(** Contracting a superset tensor that holds [C[c]] at row [table c + 1]. *)
Lemma contract_recovers (rs : list nat) (C S target : tensor) (N : nat) :
  wf S -> wf target ->
  size S = N :: rs -> 330 <= N -> size target = 80 :: rs ->
  (forall c, c < 80 -> getitem S (table c + 1) = getitem C c) ->
  exists R,
    map_class_weights target S = Ok (Some R)
    /\ size R = 80 :: rs
    /\ forall c, c < 80 -> getitem R c = getitem C c.
Proof.
  intros HwS Hwt HS HN Ht Hplaced.
  destruct (contract_rows Hwt HwS Ht HS) as (R & HR & _ & HsR & Hcopied & _);
    try lia.
  exists R. split; [exact HR|]. split; [congruence|].
  intros c Hc. rewrite Hcopied by assumption. now apply Hplaced.
Qed.

(** C6: for a compact tensor [C] of shape [80 :: rs], a base of shape
    [N :: rs] with [330 <= N] and any target of shape [80 :: rs], expanding
    [C] into the base puts [C[c]] at row [table c + 1], and contracting the
    expanded tensor gives a tensor whose row [c] is [C[c]] for every
    [c < 80]; the same holds when contracting any superset tensor that holds
    [C[c]] at row [table c + 1], whatever its other rows. *)
Theorem remap_round_trip (rs : list nat) (C base target : tensor) (N : nat) :
  wf C -> wf base -> wf target ->
  size C = 80 :: rs -> size base = N :: rs -> 330 <= N ->
  size target = 80 :: rs ->
  (exists E R,
      map_class_weights base C = Ok (Some E)
      /\ size E = N :: rs
      /\ (forall c, c < 80 -> getitem E (table c + 1) = getitem C c)
      /\ map_class_weights target E = Ok (Some R)
      /\ size R = 80 :: rs
      /\ (forall c, c < 80 -> getitem R c = getitem C c))
  /\ (forall S,
        wf S -> size S = N :: rs ->
        (forall c, c < 80 -> getitem S (table c + 1) = getitem C c) ->
        exists R,
          map_class_weights target S = Ok (Some R)
          /\ size R = 80 :: rs
          /\ (forall c, c < 80 -> getitem R c = getitem C c)).
Proof.
  intros HwC Hwb Hwt HC Hb HN Ht. split.
  - destruct (expand_rows Hwb HwC Hb HC) as (E & HE & HwE & HsE & Hplaced & _);
      try lia.
    rewrite Hb in HsE.
    destruct (contract_recovers C HwE Hwt HsE HN Ht Hplaced)
      as (R & HR & HsR & Hrows).
    exists E, R. repeat split; assumption.
  - intros S HwS HS Hplaced.
    exact (contract_recovers C HwS Hwt HS HN Ht Hplaced).
Qed.

Lemma remap_round_trip_witness :
  exists E R,
    map_class_weights (arange [366; 2] 2000) (arange [80; 2] 0) = Ok (Some E)
    /\ map_class_weights (arange [80; 2] 3000) E = Ok (Some R)
    /\ getitem R 79 = getitem (arange [80; 2] 0) 79.
Proof.
  destruct (remap_round_trip (rs := [2]) (C := arange [80; 2] 0)
              (base := arange [366; 2] 2000) (target := arange [80; 2] 3000)
              (N := 366) eq_refl eq_refl eq_refl eq_refl eq_refl)
    as ((E & R & HE & _ & _ & HR & _ & Hrows) & _);
    [lia | reflexivity |].
  exists E, R. split; [exact HE|]. split; [exact HR|].
  apply Hrows. lia.
Defined.

(** ** The remapper never answers [None] *)

Lemma map_class_weights_some cur pre r :
  map_class_weights cur pre = Ok r -> exists t, r = Some t.
Proof.
  unfold map_class_weights.
  destruct (size_eqb (size pre) (size cur)).
  - intros H. injection H as <-. eauto.
  - destruct (size_gtb (size pre) (size cur));
      match goal with
      | |- context [for_each ?xs ?f ?s] => destruct (for_each xs f s)
      end; simpl; intros H; try discriminate; injection H as <-; eauto.
Qed.

(** ** Invariants of stateful computations *)

Lemma inv_ret {S A} (P : S -> Prop) (a : A) : inv P (ret a).
Proof. intros s H. exact H. Qed.

Lemma inv_lift {S A} (P : S -> Prop) (r : result A) : inv P (lift r).
Proof. intros s H. exact H. Qed.

Lemma inv_bind {S A B} (P : S -> Prop) (m : M S A) (k : A -> M S B) :
  inv P m -> (forall a, inv P (k a)) -> inv P (bind m k).
Proof.
  intros Hm Hk s H. unfold bind. specialize (Hm s H).
  destruct (m s) as [[a | e] s']; simpl in *.
  - now apply Hk.
  - exact Hm.
Qed.

Lemma inv_for_eachM {S A L} (P : S -> Prop) (body : L -> A -> M S L) xs :
  (forall l x, In x xs -> inv P (body l x)) ->
  forall l, inv P (for_eachM xs body l).
Proof.
  induction xs as [|x xs IH]; intros Hbody l; simpl.
  - apply inv_ret.
  - apply inv_bind.
    + apply Hbody. now left.
    + intros l'. apply IH. intros l'' y Hy. apply Hbody. now right.
Qed.

(** ** Dictionaries *)

Section DictFacts.
Variable V : Type.
Implicit Types (d : Dict.dict V) (k : string) (v : V).

Lemma get_set_same d k v : Dict.get (Dict.set d k v) k = Some v.
Proof.
  induction d as [|[k' v'] d IH]; simpl.
  - now rewrite String.eqb_refl.
  - destruct (String.eqb_spec k' k) as [-> | Hne]; simpl.
    + now rewrite String.eqb_refl.
    + apply String.eqb_neq in Hne. now rewrite Hne.
Qed.

Lemma get_set_other d k k0 v :
  k <> k0 -> Dict.get (Dict.set d k v) k0 = Dict.get d k0.
Proof.
  intros Hne. induction d as [|[k' v'] d IH]; simpl.
  - apply String.eqb_neq in Hne. now rewrite Hne.
  - destruct (String.eqb_spec k' k) as [-> | Hne']; simpl.
    + apply String.eqb_neq in Hne. now rewrite Hne.
    + now rewrite IH.
Qed.

Lemma get_del_same d k : Dict.get (Dict.del d k) k = None.
Proof.
  induction d as [|[k' v'] d IH]; simpl; [reflexivity|].
  destruct (String.eqb k' k) eqn:E; simpl; [assumption|].
  now rewrite E.
Qed.

Lemma get_del_other d k k0 :
  k <> k0 -> Dict.get (Dict.del d k) k0 = Dict.get d k0.
Proof.
  intros Hne. induction d as [|[k' v'] d IH]; simpl; [reflexivity|].
  destruct (String.eqb_spec k' k) as [-> | Hne']; simpl.
  - apply String.eqb_neq in Hne. now rewrite Hne.
  - now rewrite IH.
Qed.

Lemma get_in d k v : Dict.get d k = Some v -> In (k, v) d.
Proof.
  induction d as [|[k' v'] d IH]; simpl; [discriminate|].
  destruct (String.eqb_spec k' k) as [-> | Hne].
  - intros H. injection H as ->. now left.
  - intros H. right. auto.
Qed.

Lemma get_none d k : Dict.get d k = None <-> ~ In k (Dict.keys d).
Proof.
  induction d as [|[k' v'] d IH]; simpl; [tauto|].
  destruct (String.eqb_spec k' k) as [-> | Hne].
  - split; [discriminate | tauto].
  - rewrite IH. tauto.
Qed.

Lemma in_get d k v : Dict.wf d -> In (k, v) d -> Dict.get d k = Some v.
Proof.
  unfold Dict.wf. induction d as [|[k' v'] d IH]; simpl; [tauto|].
  intros Hnd [Heq | Hin]; inversion Hnd as [|? ? Hnotin Hnd']; subst.
  - injection Heq as -> ->. now rewrite String.eqb_refl.
  - destruct (String.eqb_spec k' k) as [-> | Hne]; [|auto].
    exfalso. apply Hnotin. change k with (fst (k, v)). now apply in_map.
Qed.

Lemma mem_true d k : Dict.mem d k = true <-> In k (Dict.keys d).
Proof.
  unfold Dict.mem. destruct (Dict.get d k) eqn:E.
  - split; [|reflexivity]. intros _. apply get_in in E.
    change k with (fst (k, v)). now apply in_map.
  - apply get_none in E. split; [discriminate | tauto].
Qed.

Lemma mem_get d k : Dict.mem d k = true <-> exists v, Dict.get d k = Some v.
Proof.
  unfold Dict.mem. destruct (Dict.get d k); split; eauto; try discriminate.
  intros [v H]. discriminate.
Qed.

Lemma NoDup_keys_filter (f : string * V -> bool) d :
  Dict.wf d -> NoDup (map fst (filter f d)).
Proof.
  unfold Dict.wf, Dict.keys.
  induction d as [|[k v] d IH]; simpl; intros Hnd; [constructor|].
  inversion Hnd as [|? ? Hnotin Hnd']; subst.
  destruct (f (k, v)); simpl; [constructor|]; auto.
  rewrite in_map_iff. intros ([k' v'] & Heq & Hin). simpl in Heq. subst k'.
  apply filter_In in Hin as [Hin _]. apply Hnotin.
  change k with (fst (k, v')). now apply in_map.
Qed.
End DictFacts.

(** ** The parameter matcher *)

Lemma fold_match_item S T : forall M0 mi0 un0,
  fold_left (match_item S) T (M0, mi0, un0)
  = (fold_left (keep_matched S) T M0,
     mi0 ++ map fst (filter (is_missed S) T),
     un0 ++ map fst (filter (is_unmatched S) T)).
Proof.
  induction T as [|[k v] T IH]; intros M0 mi0 un0; simpl.
  - now rewrite !app_nil_r.
  - unfold is_missed, is_unmatched, keep_matched, Dict.mem. simpl.
    destruct (Dict.get S k) as [p|]; simpl.
    + destruct (size_eqb (size v) (size p)); simpl; rewrite IH.
      * reflexivity.
      * now rewrite <- app_assoc.
    + rewrite IH. now rewrite <- app_assoc.
Qed.

Lemma matched_state_eq T S :
  _matched_state T S
  = (fold_left (keep_matched S) T [],
     {| missed := map fst (filter (is_missed S) T);
        unmatched := map fst (filter (is_unmatched S) T) |}).
Proof. unfold _matched_state. now rewrite fold_match_item. Qed.

Lemma keep_matched_get S T : forall M0 k s,
  (forall k s, Dict.get M0 k = Some s -> Dict.get S k = Some s) ->
  Dict.get (fold_left (keep_matched S) T M0) k = Some s
  <-> Dict.get M0 k = Some s
      \/ exists t, In (k, t) T /\ Dict.get S k = Some s /\ size t = size s.
Proof.
  induction T as [|[k0 v0] T IH]; intros M0 k s Hinv; simpl.
  - split; [tauto|]. intros [H | (t & [] & _)]. exact H.
  - rewrite IH.
    + unfold keep_matched. simpl.
      destruct (Dict.get S k0) as [p|] eqn:Ep.
      * destruct (size_eqb (size v0) (size p)) eqn:Es.
        -- apply size_eqb_eq in Es.
           destruct (string_dec k0 k) as [-> | Hne].
           ++ rewrite get_set_same. split.
              ** intros [H | (t & Hin & HS & Hsz)].
                 --- injection H as <-. right. exists v0. auto.
                 --- right. exists t. auto.
              ** intros [H | (t & [Heq | Hin] & HS & Hsz)].
                 --- left. apply Hinv in H. congruence.
                 --- left. congruence.
                 --- right. exists t. auto.
           ++ rewrite get_set_other by assumption. split.
              ** intros [H | (t & Hin & HS & Hsz)]; [tauto|].
                 right. exists t. auto.
              ** intros [H | (t & [Heq | Hin] & HS & Hsz)]; [tauto | |].
                 --- congruence.
                 --- right. exists t. auto.
        -- apply size_eqb_neq in Es. split.
           ++ intros [H | (t & Hin & HS & Hsz)]; [tauto|].
              right. exists t. auto.
           ++ intros [H | (t & [Heq | Hin] & HS & Hsz)]; [tauto | |].
              ** injection Heq as -> ->. congruence.
              ** right. exists t. auto.
      * split.
        -- intros [H | (t & Hin & HS & Hsz)]; [tauto|].
           right. exists t. auto.
        -- intros [H | (t & [Heq | Hin] & HS & Hsz)]; [tauto | |].
           ++ injection Heq as -> ->. congruence.
           ++ right. exists t. auto.
    + intros k1 s1. unfold keep_matched. simpl.
      destruct (Dict.get S k0) as [p|] eqn:Ep; [|apply Hinv].
      destruct (size_eqb (size v0) (size p)); [|apply Hinv].
      destruct (string_dec k0 k1) as [-> | Hne].
      * rewrite get_set_same. congruence.
      * rewrite get_set_other by assumption. apply Hinv.
Qed.

Lemma matched_get T S k s :
  Dict.get (fst (_matched_state T S)) k = Some s
  <-> exists t, In (k, t) T /\ Dict.get S k = Some s /\ size t = size s.
Proof.
  rewrite matched_state_eq. simpl. rewrite keep_matched_get.
  - simpl. split; [intros [H | H]; [discriminate | exact H] | tauto].
  - simpl. discriminate.
Qed.

Lemma missed_in T S k :
  In k (missed (snd (_matched_state T S)))
  <-> In k (Dict.keys T) /\ Dict.get S k = None.
Proof.
  rewrite matched_state_eq. simpl. rewrite in_map_iff. split.
  - intros ([k' v] & <- & Hin). apply filter_In in Hin as [Hin Hm]. simpl.
    split; [change k' with (fst (k', v)); now apply in_map|].
    unfold is_missed, Dict.mem in Hm. simpl in Hm.
    now destruct (Dict.get S k').
  - intros [Hin HS]. unfold Dict.keys in Hin.
    rewrite in_map_iff in Hin. destruct Hin as ([k' v] & <- & Hin).
    exists (k', v). split; [reflexivity|]. apply filter_In. split; auto.
    unfold is_missed, Dict.mem. simpl in *. now rewrite HS.
Qed.

Lemma unmatched_in T S k :
  In k (unmatched (snd (_matched_state T S)))
  <-> exists t s, In (k, t) T /\ Dict.get S k = Some s /\ size t <> size s.
Proof.
  rewrite matched_state_eq. simpl. rewrite in_map_iff. split.
  - intros ([k' v] & <- & Hin). apply filter_In in Hin as [Hin Hm]. simpl.
    unfold is_unmatched in Hm. simpl in Hm.
    destruct (Dict.get S k') as [p|] eqn:Ep; [|discriminate].
    exists v, p. repeat split; auto.
    apply negb_true_iff in Hm. now apply size_eqb_neq.
  - intros (t & s & Hin & HS & Hsz). exists (k, t). split; [reflexivity|].
    apply filter_In. split; [assumption|].
    unfold is_unmatched. simpl. rewrite HS.
    apply negb_true_iff. now apply size_eqb_neq.
Qed.

(** C2: for a target [T] (with unique keys) and a candidate [S], the matched
    mapping holds exactly the keys of both whose shapes agree, each with the
    candidate's tensor; [missed] holds exactly the keys of [T] absent from
    [S] and [unmatched] exactly those present with another shape; every key
    of [T] lies in exactly one of the three, once; a key that is only in [S]
    is in none of them.  [_matched_state] is a function of [T] and [S] alone
    and writes to neither. *)
Theorem matched_state_partition (T S : ParameterMapping) :
  Dict.wf T ->
  let matched := fst (_matched_state T S) in
  let infos := snd (_matched_state T S) in
  (forall k s,
      Dict.get matched k = Some s
      <-> exists t, Dict.get T k = Some t /\ Dict.get S k = Some s
                    /\ size t = size s)
  /\ (forall k, In k (missed infos)
                <-> Dict.mem T k = true /\ Dict.mem S k = false)
  /\ (forall k, In k (unmatched infos)
                <-> exists t s, Dict.get T k = Some t /\ Dict.get S k = Some s
                                /\ size t <> size s)
  /\ (forall k, Dict.mem T k = true ->
        (Dict.mem matched k = true
         /\ ~ In k (missed infos) /\ ~ In k (unmatched infos))
        \/ (Dict.mem matched k = false
            /\ In k (missed infos) /\ ~ In k (unmatched infos))
        \/ (Dict.mem matched k = false
            /\ ~ In k (missed infos) /\ In k (unmatched infos)))
  /\ NoDup (missed infos) /\ NoDup (unmatched infos)
  /\ (forall k, Dict.mem T k = false ->
        Dict.mem matched k = false
        /\ ~ In k (missed infos) /\ ~ In k (unmatched infos)).
Proof.
  intros HT matched infos.
  assert (Hmatched : forall k s,
             Dict.get matched k = Some s
             <-> exists t, Dict.get T k = Some t /\ Dict.get S k = Some s
                           /\ size t = size s).
  { intros k s. unfold matched. rewrite matched_get. split.
    - intros (t & Hin & H). exists t. split; [now apply in_get | exact H].
    - intros (t & Hget & H). exists t. split; [now apply get_in | exact H]. }
  assert (Hmissed : forall k,
             In k (missed infos)
             <-> Dict.mem T k = true /\ Dict.mem S k = false).
  { intros k. unfold infos. rewrite missed_in, mem_true.
    unfold Dict.mem at 1. destruct (Dict.get S k); intuition congruence. }
  assert (Hunmatched : forall k,
             In k (unmatched infos)
             <-> exists t s, Dict.get T k = Some t /\ Dict.get S k = Some s
                             /\ size t <> size s).
  { intros k. unfold infos. rewrite unmatched_in. split.
    - intros (t & s & Hin & H). exists t, s.
      split; [now apply in_get | exact H].
    - intros (t & s & Hget & H). exists t, s.
      split; [now apply get_in | exact H]. }
  assert (Hmem : forall k,
             Dict.mem matched k = true
             <-> exists t s, Dict.get T k = Some t /\ Dict.get S k = Some s
                             /\ size t = size s).
  { intros k. rewrite mem_get. split.
    - intros [s Hs]. apply Hmatched in Hs as (t & H). eauto.
    - intros (t & s & H). exists s. apply Hmatched. eauto. }
  split; [exact Hmatched|]. split; [exact Hmissed|].
  split; [exact Hunmatched|]. split; [|split; [|split]].
  - intros k Hk. apply mem_get in Hk as [t Ht].
    destruct (Dict.get S k) as [s|] eqn:Es.
    + destruct (list_eq_dec Nat.eq_dec (size t) (size s)) as [Heq | Hne].
      * left. split; [apply Hmem; eauto|]. split.
        -- rewrite Hmissed. unfold Dict.mem at 2. rewrite Es.
           intros [_ H]. discriminate.
        -- rewrite Hunmatched. intros (t' & s' & Ht' & Hs' & Hsz). congruence.
      * right. right. split; [|split].
        -- destruct (Dict.mem matched k) eqn:E; [|reflexivity].
           apply Hmem in E as (t' & s' & Ht' & Hs' & Hsz). congruence.
        -- rewrite Hmissed. unfold Dict.mem at 2. rewrite Es.
           intros [_ H]. discriminate.
        -- apply Hunmatched. eauto.
    + right. left. split; [|split].
      * destruct (Dict.mem matched k) eqn:E; [|reflexivity].
        apply Hmem in E as (t' & s' & Ht' & Hs' & Hsz). congruence.
      * apply Hmissed. split; [apply mem_get; eauto|].
        unfold Dict.mem. now rewrite Es.
      * rewrite Hunmatched. intros (t' & s' & Ht' & Hs' & Hsz). congruence.
  - unfold infos. rewrite matched_state_eq. simpl.
    now apply NoDup_keys_filter.
  - unfold infos. rewrite matched_state_eq. simpl.
    now apply NoDup_keys_filter.
  - intros k Hk. split; [|split].
    + destruct (Dict.mem matched k) eqn:E; [|reflexivity].
      apply Hmem in E as (t & s & Ht & _).
      assert (Dict.mem T k = true) by (apply mem_get; eauto). congruence.
    + rewrite Hmissed. intros [Hk' _]. congruence.
    + rewrite Hunmatched. intros (t & s & Ht & _).
      assert (Dict.mem T k = true) by (apply mem_get; eauto). congruence.
Qed.

Lemma matched_state_partition_witness :
  Dict.wf sample_target
  /\ fst (_matched_state sample_target sample_candidate)
     = [("backbone.weight"%string, arange [2; 2] 40)]
  /\ (In "decoder.query_pos.weight"%string
        (missed (snd (_matched_state sample_target sample_candidate)))
      <-> Dict.mem sample_target "decoder.query_pos.weight" = true
          /\ Dict.mem sample_candidate "decoder.query_pos.weight" = false).
Proof.
  assert (Hwf : Dict.wf sample_target).
  { unfold Dict.wf, sample_target. simpl.
    repeat constructor; simpl; intuition discriminate. }
  split; [exact Hwf|]. split; [reflexivity|].
  apply (matched_state_partition sample_candidate Hwf).
Defined.

(** ** Head adjustment *)

Ltac unfold_store :=
  unfold adjust_head, bind, ret, lift, raise, pretrain_contains,
    pretrain_getitem, pretrain_setitem, pretrain_delitem, print_adjust,
    Dict.getitem.

Lemma denoising_key_not_head name :
  In name head_param_names -> name <> denoising_key.
Proof.
  intros Hin ->. vm_compute in Hin.
  repeat (destruct Hin as [Hin | Hin]; [discriminate|]). exact Hin.
Qed.

Lemma head_param_names_nodup : NoDup head_param_names.
Proof.
  vm_compute. repeat constructor; simpl; intuition discriminate.
Qed.

(** The diagnostic line is never written. *)
Lemma adjust_head_stdout cur acc name out :
  inv (fun s => stdout s = out) (adjust_head cur acc name).
Proof.
  intros s H. unfold_store.
  destruct (Dict.mem cur name && Dict.mem (pretrain_obj s) name); simpl; auto.
  destruct (Dict.get cur name) as [c|]; simpl; auto.
  destruct (Dict.get (pretrain_obj s) name) as [p|]; simpl; auto.
  destruct (map_class_weights c p) as [[r|]|e] eqn:E; simpl; auto.
  apply map_class_weights_some in E as [t Ht]. discriminate.
Qed.

Lemma adjust_head_parameters_stdout cur out :
  inv (fun s => stdout s = out) (_adjust_head_parameters cur).
Proof.
  unfold _adjust_head_parameters.
  apply inv_bind; [intros s H; exact H|]. intros p.
  apply inv_bind; [apply inv_lift|]. intros c.
  apply inv_bind.
  - destruct (negb (size_eqb (size p) (size c))); [|apply inv_ret].
    intros s H. unfold pretrain_delitem.
    now destruct (Dict.mem (pretrain_obj s) denoising_key).
  - intros _. apply inv_bind; [|intros _ s H; exact H].
    apply inv_for_eachM. intros l x _. apply adjust_head_stdout.
Qed.

(** No head parameter is the denoising embedding: once deleted it stays
    deleted. *)
Lemma adjust_head_absent cur acc name k :
  name <> k ->
  inv (fun s => Dict.get (pretrain_obj s) k = None) (adjust_head cur acc name).
Proof.
  intros Hne s H. unfold_store.
  destruct (Dict.mem cur name && Dict.mem (pretrain_obj s) name); simpl; auto.
  destruct (Dict.get cur name) as [c|]; simpl; auto.
  destruct (Dict.get (pretrain_obj s) name) as [p|]; simpl; auto.
  destruct (map_class_weights c p) as [[r|]|e]; simpl; auto.
  now rewrite get_set_other.
Qed.

(** What is returned is the dictionary that was passed in. *)
Lemma adjust_head_parameters_returns cur s adjusted s' :
  _adjust_head_parameters cur s = (Ok adjusted, s') ->
  adjusted = pretrain_obj s'.
Proof.
  unfold _adjust_head_parameters, bind.
  destruct (pretrain_getitem denoising_key s) as [[p|e] s1];
    [|discriminate].
  destruct (lift (Dict.getitem cur denoising_key) s1) as [[c|e] s2];
    [|discriminate].
  destruct ((if negb (size_eqb (size p) (size c))
             then pretrain_delitem denoising_key else ret tt) s2)
    as [[u|e] s3]; [|discriminate].
  destruct (for_eachM head_param_names (adjust_head cur) [] s3)
    as [[l|e] s4]; [|discriminate].
  intros H. now injection H as <- <-.
Qed.

(** The run after the denoising embedding was found to differ in shape. *)
Lemma adjust_head_parameters_drop cur pre out tc tp :
  Dict.get cur denoising_key = Some tc ->
  Dict.get pre denoising_key = Some tp ->
  size tp <> size tc ->
  _adjust_head_parameters cur {| pretrain_obj := pre; stdout := out |}
  = bind (for_eachM head_param_names (adjust_head cur) [])
      (fun _ s => (Ok (pretrain_obj s), s))
      {| pretrain_obj := Dict.del pre denoising_key; stdout := out |}.
Proof.
  intros Hc Hp Hsz. unfold _adjust_head_parameters.
  unfold bind at 1. unfold pretrain_getitem, Dict.getitem. simpl.
  rewrite Hp. unfold bind at 1. unfold lift, Dict.getitem. rewrite Hc.
  apply size_eqb_neq in Hsz. rewrite Hsz. simpl.
  unfold bind at 1. unfold pretrain_delitem, Dict.mem. simpl.
  now rewrite Hp.
Qed.

(** The run when the denoising embedding has the same shape on both sides. *)
Lemma adjust_head_parameters_keep cur pre out tc tp :
  Dict.get cur denoising_key = Some tc ->
  Dict.get pre denoising_key = Some tp ->
  size tp = size tc ->
  _adjust_head_parameters cur {| pretrain_obj := pre; stdout := out |}
  = bind (for_eachM head_param_names (adjust_head cur) [])
      (fun _ s => (Ok (pretrain_obj s), s))
      {| pretrain_obj := pre; stdout := out |}.
Proof.
  intros Hc Hp Hsz. unfold _adjust_head_parameters.
  unfold bind at 1. unfold pretrain_getitem, Dict.getitem. simpl.
  rewrite Hp. unfold bind at 1. unfold lift, Dict.getitem. rewrite Hc.
  apply size_eqb_eq in Hsz. rewrite Hsz. simpl.
  reflexivity.
Qed.

(** Without the denoising embedding on either side the adjustment raises at
    its first line, before anything was written. *)
Lemma adjust_head_parameters_key_error cur s :
  Dict.get (pretrain_obj s) denoising_key = None
  \/ Dict.get cur denoising_key = None ->
  _adjust_head_parameters cur s = (Raise (KeyError denoising_key), s).
Proof.
  intros H. unfold _adjust_head_parameters.
  unfold bind at 1. unfold pretrain_getitem, Dict.getitem.
  destruct (Dict.get (pretrain_obj s) denoising_key) as [p|] eqn:Ep.
  - destruct H as [H | H]; [discriminate|].
    unfold bind at 1. unfold lift, Dict.getitem. now rewrite H.
  - reflexivity.
Qed.

(** C9: a call of [map_class_weights] that returns, returns a tensor, never
    [None]; so no run of [_adjust_head_parameters] writes the "Cannot adjust"
    line: the output is what it was before the call, whatever the inputs. *)
Theorem cannot_adjust_unreachable :
  (forall cur_tensor pretrain_tensor r,
      map_class_weights cur_tensor pretrain_tensor = Ok r -> r <> None)
  /\ (forall cur_state_dict s,
        stdout (snd (_adjust_head_parameters cur_state_dict s)) = stdout s)
  /\ (forall cur_state_dict pretrain param_name,
        ~ In (Cannot_adjust param_name)
            (stdout (snd (_adjust_head_parameters cur_state_dict
                            {| pretrain_obj := pretrain; stdout := [] |})))).
Proof.
  split; [|split].
  - intros c p r H. apply map_class_weights_some in H as [t ->]. discriminate.
  - intros cur s. now apply (adjust_head_parameters_stdout cur (out := stdout s)).
  - intros cur pre name.
    rewrite (adjust_head_parameters_stdout cur (out := [])); simpl; auto.
Qed.

Lemma cannot_adjust_unreachable_witness :
  map_class_weights (arange [81] 1000) (arange [366] 0)
  = Ok (Some contracted_sample)
  /\ Some contracted_sample <> None.
Proof.
  assert (E : map_class_weights (arange [81] 1000) (arange [366] 0)
              = Ok (Some contracted_sample)) by (vm_compute; reflexivity).
  split; [exact E|].
  exact (proj1 cannot_adjust_unreachable _ _ _ E).
Defined.

(** C7: when the denoising class embedding is in the current and in the
    pretrained mapping with different shapes, the pretrained dictionary no
    longer holds that key once [_adjust_head_parameters] is over, whether it
    returned or raised; the mapping it returns is that dictionary; and the
    matcher, run on it against the current mapping, lists the key as missed
    and not as unmatched - also on the path taken by [load_tuning_state]. *)
Theorem denoising_key_dropped (cur pre : ParameterMapping) (tc tp : tensor) :
  Dict.get cur denoising_key = Some tc ->
  Dict.get pre denoising_key = Some tp ->
  size tp <> size tc ->
  let run := _adjust_head_parameters cur {| pretrain_obj := pre; stdout := [] |} in
  Dict.get (pretrain_obj (snd run)) denoising_key = None
  /\ (forall adjusted,
        fst run = Ok adjusted ->
        Dict.get adjusted denoising_key = None
        /\ In denoising_key (missed (snd (_matched_state cur adjusted)))
        /\ ~ In denoising_key (unmatched (snd (_matched_state cur adjusted))))
  /\ (let '(_, infos, _) := adjust_and_match cur pre in
      In denoising_key (missed infos)
      /\ ~ In denoising_key (unmatched infos)).
Proof.
  intros Hc Hp Hsz run.
  assert (Hgone : Dict.get (pretrain_obj (snd run)) denoising_key = None).
  { unfold run. rewrite (@adjust_head_parameters_drop cur pre [] tc tp Hc Hp Hsz).
    apply (inv_bind (P := fun s => Dict.get (pretrain_obj s) denoising_key = None)).
    - apply inv_for_eachM. intros l x Hx.
      apply adjust_head_absent. now apply denoising_key_not_head.
    - intros _ s H. exact H.
    - simpl. apply get_del_same. }
  assert (Hlists : forall S,
             Dict.get S denoising_key = None ->
             In denoising_key (missed (snd (_matched_state cur S)))
             /\ ~ In denoising_key (unmatched (snd (_matched_state cur S)))).
  { intros S HS. split.
    - apply missed_in. split; [|exact HS].
      apply mem_true. unfold Dict.mem. now rewrite Hc.
    - rewrite unmatched_in. intros (t & s & _ & H & _). congruence. }
  split; [exact Hgone|]. split.
  - intros adjusted Hret.
    assert (adjusted = pretrain_obj (snd run)) as ->.
    { apply (adjust_head_parameters_returns cur
               {| pretrain_obj := pre; stdout := [] |}).
      fold run. destruct run as [r s']. simpl in *. now subst. }
    split; [exact Hgone|]. now apply Hlists.
  - unfold adjust_and_match. fold run.
    destruct run as [[adjusted | e] s'] eqn:Erun; simpl in *.
    + assert (adjusted = pretrain_obj s') as ->
          by (eapply adjust_head_parameters_returns; exact Erun).
      destruct (_matched_state cur (pretrain_obj s')) as [stat infos] eqn:Em.
      specialize (Hlists _ Hgone). now rewrite Em in Hlists.
    + destruct (_matched_state cur (pretrain_obj s')) as [stat infos] eqn:Em.
      specialize (Hlists _ Hgone). now rewrite Em in Hlists.
Qed.

Lemma denoising_key_dropped_witness :
  Dict.get (pretrain_obj
              (snd (_adjust_head_parameters sample_cur
                      {| pretrain_obj := sample_pretrain; stdout := [] |})))
    denoising_key = None.
Proof.
  exact (proj1 (denoising_key_dropped sample_cur sample_pretrain
                  (tc := arange [82; 1] 100) (tp := arange [367; 1] 500)
                  eq_refl eq_refl
                  ltac:(simpl; discriminate))).
Defined.

(** ** The loop over the head parameters *)

Lemma remappable_ok c p :
  remappable c p ->
  exists r, map_class_weights c p = Ok (Some r) /\ size r = size c.
Proof.
  intros [Heq | (Hwc & Hwp & n & m & rs & Hc & Hp & [(Hlt & Hn & Hm) | (Hlt & Hn & Hm)])].
  - exists p. split; [now apply map_class_weights_same_size | exact Heq].
  - destruct (contract_rows Hwc Hwp Hc Hp Hlt Hn Hm) as (r & Hr & _ & Hs & _).
    eauto.
  - destruct (expand_rows Hwc Hwp Hc Hp Hlt Hn Hm) as (r & Hr & _ & Hs & _).
    eauto.
Qed.

Lemma adjust_heads_ok cur names : forall acc s,
  NoDup names ->
  (forall name c p,
      In name names -> Dict.get cur name = Some c ->
      Dict.get (pretrain_obj s) name = Some p -> remappable c p) ->
  exists acc' s',
    for_eachM names (adjust_head cur) acc s = (Ok acc', s')
    /\ stdout s' = stdout s
    /\ (forall k, ~ In k names ->
                  Dict.get (pretrain_obj s') k = Dict.get (pretrain_obj s) k)
    /\ (forall name c p,
          In name names -> Dict.get cur name = Some c ->
          Dict.get (pretrain_obj s) name = Some p ->
          exists r, map_class_weights c p = Ok (Some r)
                    /\ Dict.get (pretrain_obj s') name = Some r).
Proof.
  induction names as [|x names IH]; intros acc s Hnd Hall.
  - exists acc, s. simpl. unfold ret. repeat split; auto. intros ? ? ? [].
  - inversion Hnd as [|? ? Hnotin Hnd']; subst.
    assert (Hstep : exists acc1 s1,
               adjust_head cur acc x s = (Ok acc1, s1)
               /\ stdout s1 = stdout s
               /\ (forall k, k <> x -> Dict.get (pretrain_obj s1) k
                                       = Dict.get (pretrain_obj s) k)
               /\ (forall c p,
                     Dict.get cur x = Some c ->
                     Dict.get (pretrain_obj s) x = Some p ->
                     exists r, map_class_weights c p = Ok (Some r)
                               /\ Dict.get (pretrain_obj s1) x = Some r)).
    { unfold_store. unfold Dict.mem.
      destruct (Dict.get cur x) as [c|] eqn:Ec; simpl.
      - destruct (Dict.get (pretrain_obj s) x) as [p|] eqn:Ep; simpl.
        + destruct (@remappable_ok c p) as (r & Hr & _).
          { apply (Hall x); simpl; auto. }
          rewrite Ep. simpl. rewrite Hr. simpl.
          eexists _, _. split; [reflexivity|]. simpl. repeat split.
          * intros k Hk. now apply get_set_other.
          * intros c' p' Hc' Hp'. injection Hc' as <-. injection Hp' as <-.
            exists r. split; [exact Hr | apply get_set_same].
        + eexists _, _. split; [reflexivity|]. repeat split; auto.
          intros c' p' _ Hp'. discriminate.
      - eexists _, _. split; [reflexivity|]. repeat split; auto.
        intros c' p' Hc'. discriminate. }
    destruct Hstep as (acc1 & s1 & Hrun & Hout & Hother & Hself).
    destruct (IH acc1 s1 Hnd') as (acc' & s' & Hloop & Hout' & Hkeep & Hdone).
    { intros name c p Hin Hc Hp. apply (Hall name); simpl; auto.
      rewrite <- Hother; [exact Hp|]. intros ->. contradiction. }
    exists acc', s'. simpl. unfold bind at 1. rewrite Hrun.
    split; [exact Hloop|]. split; [congruence|]. split.
    + intros k Hk. simpl in Hk.
      rewrite Hkeep by tauto. apply Hother. intros ->. tauto.
    + intros name c p [<- | Hin] Hc Hp.
      * destruct (Hself c p Hc Hp) as (r & Hr & Hget).
        exists r. split; [exact Hr|]. now rewrite Hkeep.
      * apply (Hdone name c p Hin Hc).
        rewrite Hother; [exact Hp|]. intros ->. contradiction.
Qed.

(** ** Loading what the matcher accepted *)

Lemma nn_load_state_dict_get own sd strict k :
  Dict.get (snd (nn_load_state_dict own sd strict)) k
  = option_map
      (fun v => match Dict.get sd k with
                | Some p => if size_eqb (size p) (size v) then p else v
                | None => v
                end)
      (Dict.get own k).
Proof.
  unfold nn_load_state_dict.
  match goal with
  | |- context [if ?b then _ else _] => destruct b
  end; simpl;
    (induction own as [|[k' v] own IH]; simpl; [reflexivity|];
     destruct (String.eqb_spec k' k) as [-> | Hne];
     [ destruct (Dict.get sd k) as [p|]; simpl;
       [destruct (size_eqb (size p) (size v)); simpl|];
       now rewrite String.eqb_refl
     | apply String.eqb_neq in Hne;
       destruct (Dict.get sd k') as [p|]; simpl;
       [destruct (size_eqb (size p) (size v)); simpl|];
       rewrite Hne; exact IH ]).
Qed.

(** The mapping built by the matcher loads without error, strictly or not
    when it is all of the target. *)
Lemma nn_load_matched module S :
  Dict.wf module ->
  fst (nn_load_state_dict module (fst (_matched_state module S)) false) = Ok tt.
Proof.
  intros Hwf. unfold nn_load_state_dict.
  set (stat := fst (_matched_state module S)).
  match goal with
  | |- context [existsb ?f module || _] =>
      assert (Hno : existsb f module = false)
  end.
  { apply not_true_is_false. rewrite existsb_exists.
    intros ([k v] & Hin & Hbad).
    destruct (Dict.get stat k) as [p|] eqn:Ep; [|discriminate].
    apply negb_true_iff, size_eqb_neq in Hbad.
    unfold stat in Ep. apply matched_get in Ep as (t & Hint & _ & Hsz).
    pose proof (@in_get _ _ _ _ Hwf Hin).
    pose proof (@in_get _ _ _ _ Hwf Hint). congruence. }
  rewrite Hno. reflexivity.
Qed.

(** After the pretrained source was selected the tuning load runs to its
    end: whatever the adjustment does, the bare [except] and the matcher
    leave nothing to raise. *)
Lemma tuning_load_completes module state pretrain :
  Dict.wf module -> select_pretrain_state_dict state = Ok pretrain ->
  exists module' infos,
    load_tuning_state module state = (Ok tt, module', [Load_model infos]).
Proof.
  intros Hwf Hsel. unfold load_tuning_state. rewrite Hsel.
  unfold adjust_and_match.
  pose proof (adjust_head_parameters_stdout module (out := [])) as Hout.
  specialize (Hout {| pretrain_obj := pretrain; stdout := [] |} eq_refl).
  destruct (_adjust_head_parameters module
              {| pretrain_obj := pretrain; stdout := [] |}) as [[adj | e] s'];
    simpl in Hout.
  - destruct (_matched_state module adj) as [stat infos] eqn:Em.
    pose proof (nn_load_matched adj Hwf) as Hload. rewrite Em in Hload.
    simpl in Hload.
    destruct (nn_load_state_dict module stat false) as [r module'].
    simpl in Hload. subst r. rewrite Hout. simpl. eauto.
  - destruct (_matched_state module (pretrain_obj s')) as [stat infos] eqn:Em.
    pose proof (nn_load_matched (pretrain_obj s') Hwf) as Hload.
    rewrite Em in Hload. simpl in Hload.
    destruct (nn_load_state_dict module stat false) as [r module'].
    simpl in Hload. subst r. rewrite Hout. simpl. eauto.
Qed.

(** ** The tuning load, end to end *)

(** C5 as worded fails on its last clause: after the load row 0 of the
    81-row encoder head is pretrained row [table 0 + 1 = 1], not the value it
    had before. *)
Lemma tuning_overwrites_row_zero :
  option_map size (Dict.get sample_cur enc_weight) = Some [81; 1]
  /\ option_map size (Dict.get sample_pretrain enc_weight) = Some [366; 1]
  /\ fst (fst (load_tuning_state sample_cur sample_checkpoint)) = Ok tt
  /\ (exists t' cw pw,
        tuned sample_cur sample_checkpoint enc_weight = Some t'
        /\ Dict.get sample_cur enc_weight = Some cw
        /\ Dict.get sample_pretrain enc_weight = Some pw
        /\ getitem t' 0 = getitem pw (table 0 + 1)
        /\ getitem t' 0 <> getitem cw 0
        /\ getitem t' 80 = getitem cw 80).
Proof.
  split; [reflexivity|]. split; [reflexivity|]. split; [vm_compute; reflexivity|].
  eexists _, _, _.
  split; [vm_compute; reflexivity|].
  split; [reflexivity|]. split; [reflexivity|].
  split; [vm_compute; reflexivity|].
  split; [vm_compute; discriminate | vm_compute; reflexivity].
Qed.

(** C5 (amended): let the current mapping (unique keys) and the selected
    pretrained mapping both hold the denoising embedding, and let every head
    parameter they share be remappable.  If the encoder score head weight or
    bias has 81 rows in the current model and 366 rows, of the same row
    shape, in the checkpoint, the tuning load completes and leaves under that
    name an 81-row tensor whose row [c] is pretrained row [table c + 1] for
    every [c < 80] - row 0 included, which becomes pretrained row 1 - and
    whose row 80, the one row the table does not reach, is the row the model
    had before the load. *)
Theorem tuning_contracts_encoder_head
  (module pretrain : ParameterMapping) (state : Checkpoint)
  (name : string) (cw pw : tensor) (rs : list nat) :
  Dict.wf module ->
  select_pretrain_state_dict state = Ok pretrain ->
  Dict.mem module denoising_key = true ->
  Dict.mem pretrain denoising_key = true ->
  (forall head c p,
      In head head_param_names -> Dict.get module head = Some c ->
      Dict.get pretrain head = Some p -> remappable c p) ->
  name = enc_weight \/ name = enc_bias ->
  Dict.get module name = Some cw -> Dict.get pretrain name = Some pw ->
  wf cw -> wf pw -> size cw = 81 :: rs -> size pw = 366 :: rs ->
  exists module' infos t',
    load_tuning_state module state = (Ok tt, module', [Load_model infos])
    /\ Dict.get module' name = Some t'
    /\ size t' = 81 :: rs
    /\ (forall c, c < 80 -> getitem t' c = getitem pw (table c + 1))
    /\ getitem t' 80 = getitem cw 80.
Proof.
  intros Hwf Hsel Hdc Hdp Hall Hname Hcw Hpw Hwc Hwp Hsc Hsp.
  assert (Hhead : In name head_param_names).
  { destruct Hname as [-> | ->]; vm_compute; tauto. }
  apply mem_get in Hdc as [tc Htc]. apply mem_get in Hdp as [tp Htp].
  (* the store on which the loop over the head parameters starts *)
  assert (Hstart : exists pre0,
             _adjust_head_parameters module
               {| pretrain_obj := pretrain; stdout := [] |}
             = bind (for_eachM head_param_names (adjust_head module) [])
                 (fun _ s => (Ok (pretrain_obj s), s))
                 {| pretrain_obj := pre0; stdout := [] |}
             /\ forall head, In head head_param_names ->
                             Dict.get pre0 head = Dict.get pretrain head).
  { destruct (list_eq_dec Nat.eq_dec (size tp) (size tc)) as [Heq | Hne].
    - exists pretrain. split; [|reflexivity].
      exact (@adjust_head_parameters_keep module pretrain [] tc tp Htc Htp Heq).
    - exists (Dict.del pretrain denoising_key). split.
      + exact (@adjust_head_parameters_drop module pretrain [] tc tp Htc Htp Hne).
      + intros head Hin. apply get_del_other.
        apply not_eq_sym. now apply denoising_key_not_head. }
  destruct Hstart as (pre0 & Hrun & Hpre0).
  destruct (@adjust_heads_ok module head_param_names []
              {| pretrain_obj := pre0; stdout := [] |} head_param_names_nodup)
    as (acc' & s' & Hloop & Hout & _ & Hdone).
  { simpl. intros head c p Hin Hc Hp. apply (Hall head); auto.
    now rewrite <- Hpre0. }
  destruct (Hdone name cw pw Hhead Hcw) as (r & Hr & Hget).
  { simpl. now rewrite Hpre0. }
  destruct (contract_rows Hwc Hwp Hsc Hsp)
    as (r' & Hr' & _ & Hsr & Hcopied & Hkept); try lia.
  assert (r' = r) by congruence. subst r'.
  (* the matcher accepts the adjusted tensor, the load stores it *)
  unfold load_tuning_state. rewrite Hsel. unfold adjust_and_match.
  rewrite Hrun. unfold bind at 1. rewrite Hloop. simpl in Hout.
  rewrite Hout.
  destruct (_matched_state module (pretrain_obj s')) as [stat infos] eqn:Em.
  assert (Hstat : Dict.get stat name = Some r).
  { change stat with (fst (stat, infos)). rewrite <- Em.
    apply matched_get. exists cw. split; [now apply get_in|].
    split; [exact Hget | congruence]. }
  pose proof (nn_load_matched (pretrain_obj s') Hwf) as Hload.
  pose proof (nn_load_state_dict_get module stat false name) as Hnew.
  rewrite Em in Hload. simpl in Hload.
  destruct (nn_load_state_dict module stat false) as [res module'].
  simpl in Hload, Hnew. subst res.
  exists module', infos, r. split; [reflexivity|].
  split.
  { rewrite Hnew, Hcw, Hstat. simpl.
    assert (size_eqb (size r) (size cw) = true) as ->
        by (apply size_eqb_eq; congruence).
    reflexivity. }
  split; [congruence|]. split; [exact Hcopied|].
  apply Hkept. lia.
Qed.

Lemma sample_cur_wf : Dict.wf sample_cur.
Proof.
  unfold Dict.wf, sample_cur. simpl.
  repeat constructor; simpl; intuition discriminate.
Qed.

Lemma sample_heads_remappable head c p :
  In head head_param_names -> Dict.get sample_cur head = Some c ->
  Dict.get sample_pretrain head = Some p -> remappable c p.
Proof.
  intros Hin Hc Hp. vm_compute in Hin.
  repeat (destruct Hin as [<- | Hin];
          [ vm_compute in Hc, Hp;
            first
              [ discriminate Hc
              | injection Hc as <-; injection Hp as <-; right;
                split; [reflexivity|]; split; [reflexivity|];
                eexists _, _, _; split; [reflexivity|]; split; [reflexivity|];
                left; lia ]
          | ]).
  destruct Hin.
Qed.

Lemma tuning_contracts_encoder_head_witness :
  exists module' infos t',
    load_tuning_state sample_cur sample_checkpoint
    = (Ok tt, module', [Load_model infos])
    /\ Dict.get module' enc_weight = Some t'
    /\ size t' = [81; 1]
    /\ (forall c, c < 80 ->
                  getitem t' c = getitem (arange [366; 1] 0) (table c + 1))
    /\ getitem t' 80 = getitem (arange [81; 1] 1000) 80.
Proof.
  exact (@tuning_contracts_encoder_head sample_cur sample_pretrain
           sample_checkpoint enc_weight (arange [81; 1] 1000)
           (arange [366; 1] 0) [1]
           sample_cur_wf eq_refl eq_refl eq_refl sample_heads_remappable
           (or_introl eq_refl) eq_refl eq_refl eq_refl eq_refl eq_refl eq_refl).
Defined.

(** ** Failures inside the head adjustment *)

(** When the adjustment raises at its first line, the denoising embedding
    being absent, the handler does match against the mapping as selected. *)
Lemma fallback_after_key_error module pretrain :
  Dict.get pretrain denoising_key = None
  \/ Dict.get module denoising_key = None ->
  adjust_and_match module pretrain = (_matched_state module pretrain, []).
Proof.
  intros H. unfold adjust_and_match.
  now rewrite adjust_head_parameters_key_error.
Qed.

(** C3, at a failing input.  The current model is [sample_cur]; the
    checkpoint holds a 367-row denoising embedding, a 366-row encoder head
    weight and a 100-row encoder head bias.  The adjustment deletes the
    denoising embedding, overwrites the weight with its 81-row remap and then
    raises on the bias.  The handler matches against the dictionary in that
    state: the denoising embedding is reported missed, the remapped weight is
    matched and loaded.  Matching the mapping as it was extracted would have
    matched nothing and reported all three keys unmatched. *)
Theorem fallback_sees_partial_adjustment :
  let run :=
    _adjust_head_parameters sample_cur
      {| pretrain_obj := partial_pretrain; stdout := [] |} in
  fst run = Raise IndexError
  /\ Dict.keys (pretrain_obj (snd run)) = [enc_weight; enc_bias]
  /\ option_map size (Dict.get (pretrain_obj (snd run)) enc_weight)
     = Some [81; 1]
  /\ (let '(stat, infos, _) := adjust_and_match sample_cur partial_pretrain in
      Dict.keys stat = [enc_weight]
      /\ infos = {| missed := [denoising_key]; unmatched := [enc_bias] |})
  /\ _matched_state sample_cur partial_pretrain
     = ([], {| missed := [];
               unmatched := [denoising_key; enc_weight; enc_bias] |})
  /\ fst (fst (load_tuning_state sample_cur partial_checkpoint)) = Ok tt
  /\ tuned sample_cur partial_checkpoint enc_weight
     = Dict.get (pretrain_obj (snd run)) enc_weight
  /\ tuned sample_cur partial_checkpoint enc_weight
     <> Dict.get sample_cur enc_weight.
Proof.
  repeat split; try (vm_compute; reflexivity).
  vm_compute. discriminate.
Qed.

(** C4, at a failing input.  A 100-row encoder head weight cannot be
    reconciled with the 81-row one of the model: [map_class_weights] raises
    [IndexError], the exception leaves [_adjust_head_parameters], nothing is
    written to the output and the encoder head bias, next in the list and
    remappable, is not looked at.  Sizes the table was not built for, such
    as 100 against 400 rows, give a tensor without any signal. *)
Theorem remap_failure_aborts_adjustment :
  map_class_weights (arange [81; 1] 1000) (arange [100; 1] 0)
  = Raise IndexError
  /\ _adjust_head_parameters sample_cur
       {| pretrain_obj := short_pretrain; stdout := [] |}
     = (Raise IndexError, {| pretrain_obj := short_pretrain; stdout := [] |})
  /\ remappable (arange [81] 2000) (arange [366] 3000)
  /\ (exists r,
         map_class_weights (arange [100] 0) (arange [400] 1000) = Ok (Some r)).
Proof.
  split; [vm_compute; reflexivity|].
  split; [vm_compute; reflexivity|].
  split.
  - right. split; [reflexivity|]. split; [reflexivity|].
    exists 81, 366, []. repeat split; try reflexivity. left. lia.
  - eexists. vm_compute. reflexivity.
Qed.

(** ** The pretrained source *)

(** C10: for a checkpoint with neither an ['ema'] nor a ['model'] entry
    [load_tuning_state] raises the [KeyError] of [state['model']]; the model
    is as it was and nothing was printed, no adjustment or matching having
    run.  With an ['ema'] entry the mapping under its ['module'] key is the
    pretrained source (and a missing ['module'] key is a [KeyError], the
    ['model'] entry not being consulted); without one, the ['model'] entry
    is. *)
Theorem tuning_source_selection :
  (forall module state,
      Dict.mem state "ema" = false -> Dict.mem state "model" = false ->
      load_tuning_state module state = (Raise (KeyError "model"), module, []))
  /\ (forall state m d,
        Dict.get state "ema" = Some (BMap m) ->
        Dict.get m "module" = Some (BParams d) ->
        select_pretrain_state_dict state = Ok d)
  /\ (forall module state m,
        Dict.get state "ema" = Some (BMap m) ->
        Dict.get m "module" = None ->
        load_tuning_state module state
        = (Raise (KeyError "module"), module, []))
  /\ (forall state d,
        Dict.mem state "ema" = false ->
        Dict.get state "model" = Some (BParams d) ->
        select_pretrain_state_dict state = Ok d).
Proof.
  split; [|split; [|split]].
  - intros module state He Hm. unfold load_tuning_state.
    unfold select_pretrain_state_dict. rewrite He.
    unfold Dict.getitem. unfold Dict.mem in Hm.
    destruct (Dict.get state "model"); [discriminate | reflexivity].
  - intros state m d He Hm. unfold select_pretrain_state_dict, Dict.mem.
    rewrite He. unfold Dict.getitem. rewrite He. simpl. now rewrite Hm.
  - intros module state m He Hm. unfold load_tuning_state.
    unfold select_pretrain_state_dict, Dict.mem.
    rewrite He. unfold Dict.getitem. rewrite He. simpl. now rewrite Hm.
  - intros state d He Hm. unfold select_pretrain_state_dict.
    rewrite He. unfold Dict.getitem. now rewrite Hm.
Qed.

Lemma tuning_source_selection_witness :
  load_tuning_state sample_cur [("date"%string, BStr "2024-11-03")]
  = (Raise (KeyError "model"), sample_cur, [])
  /\ select_pretrain_state_dict
       [ ("model"%string, BParams partial_pretrain);
         ("ema"%string,
          BMap [("module"%string, BParams sample_pretrain);
                ("updates"%string, BInt 7)]) ]
     = Ok sample_pretrain
  /\ load_tuning_state sample_cur
       [ ("model"%string, BParams partial_pretrain);
         ("ema"%string, BMap [("updates"%string, BInt 7)]) ]
     = (Raise (KeyError "module"), sample_cur, [])
  /\ select_pretrain_state_dict sample_checkpoint = Ok sample_pretrain.
Proof.
  split; [|split; [|split]].
  - apply (proj1 tuning_source_selection); reflexivity.
  - apply (proj1 (proj2 tuning_source_selection)
             _ [("module"%string, BParams sample_pretrain);
                ("updates"%string, BInt 7)]); reflexivity.
  - apply (proj1 (proj2 (proj2 tuning_source_selection))
             _ _ [("updates"%string, BInt 7)]); reflexivity.
  - apply (proj2 (proj2 (proj2 tuning_source_selection))); reflexivity.
Defined.

(** ** Stripping the wrapper's prefix *)

Lemma substring_all s : substring 0 (String.length s) s = s.
Proof. induction s as [|c s IH]; simpl; [reflexivity | now rewrite IH]. Qed.

Lemma strip_key_wrapped k : strip_key ("module." ++ k) = k.
Proof.
  unfold strip_key. simpl.
  assert (prefix "" k = true) as -> by now destruct k.
  rewrite Nat.sub_0_r. apply substring_all.
Qed.

Lemma set_fresh {V} (d : Dict.dict V) k v :
  Dict.get d k = None -> Dict.set d k v = d ++ [(k, v)].
Proof.
  induction d as [|[k' v'] d IH]; simpl; [reflexivity|].
  destruct (String.eqb k' k); [discriminate|].
  intros H. now rewrite IH.
Qed.

Lemma keys_app {V} (a b : Dict.dict V) :
  Dict.keys (a ++ b) = Dict.keys a ++ Dict.keys b.
Proof. apply map_app. Qed.

Lemma fold_set_fresh (f : string -> string) (d : ParameterMapping) :
  forall acc,
    NoDup (Dict.keys acc ++ map f (Dict.keys d)) ->
    fold_left (fun acc (kv : string * tensor) =>
                 Dict.set acc (f (fst kv)) (snd kv)) d acc
    = acc ++ map (fun kv => (f (fst kv), snd kv)) d.
Proof.
  induction d as [|[k v] d IH]; intros acc Hnd; simpl.
  - now rewrite app_nil_r.
  - simpl in Hnd.
    assert (Hfresh : Dict.get acc (f k) = None).
    { apply get_none. intros Hin.
      apply NoDup_remove_2 in Hnd. apply Hnd, in_or_app. now left. }
    rewrite set_fresh by exact Hfresh. rewrite IH.
    + now rewrite <- app_assoc.
    + rewrite keys_app. simpl. rewrite <- app_assoc. exact Hnd.
Qed.

Lemma fold_left_pointwise {A B} (f g : A -> B -> A) (l : list B) :
  (forall a b, f a b = g a b) -> forall a, fold_left f l a = fold_left g l a.
Proof.
  intros H. induction l as [|b l IH]; intros a; simpl; [reflexivity|].
  now rewrite H, IH.
Qed.

Lemma remove_module_prefix_eq d :
  NoDup (map strip_key (Dict.keys d)) ->
  remove_module_prefix d = map (fun kv => (strip_key (fst kv), snd kv)) d.
Proof.
  intros Hnd. unfold remove_module_prefix.
  rewrite (fold_left_pointwise _
             (fun acc (kv : string * tensor) =>
                Dict.set acc (strip_key (fst kv)) (snd kv))).
  - now rewrite fold_set_fresh.
  - intros acc [k v]. unfold strip_key. simpl.
    now destruct (prefix "module." k).
Qed.

(** The state dict of a wrapped model, stripped, is the state dict of the
    model it wraps; that of a plain model is left as it is, provided none of
    its names starts with the wrapper's prefix. *)
Lemma remove_module_prefix_model parallel own sd :
  Dict.wf own ->
  parallel = true
  \/ (forall k, In k (Dict.keys own) -> prefix "module." k = false) ->
  attr_state_dict (NnModule parallel own) = Ok sd ->
  remove_module_prefix sd = own.
Proof.
  intros Hwf Hnames Hsd. destruct parallel; simpl in Hsd; injection Hsd as <-.
  - rewrite remove_module_prefix_eq.
    + rewrite map_map. rewrite <- (map_id own) at 2.
      apply map_ext. intros [k v]. cbn [fst snd]. f_equal.
      exact (strip_key_wrapped k).
    + unfold Dict.keys. rewrite !map_map.
      erewrite map_ext; [exact Hwf|].
      intros [k v]. exact (strip_key_wrapped k).
  - destruct Hnames as [Hp | Hnames]; [discriminate|].
    assert (Hid : forall kv, In kv own -> strip_key (fst kv) = fst kv).
    { intros [k v] Hin. unfold strip_key. simpl.
      rewrite Hnames; [reflexivity|].
      change k with (fst (k, v)). now apply in_map. }
    rewrite remove_module_prefix_eq.
    + rewrite <- (map_id own) at 2. apply map_ext_in.
      intros [k v] Hin. simpl. f_equal. apply (Hid (k, v) Hin).
    + unfold Dict.keys. rewrite map_map.
      erewrite map_ext_in; [exact Hwf|].
      intros kv Hin. now apply Hid.
Qed.

(** ** Restoring a module *)

Lemma nn_load_state_dict_keys own sd strict :
  Dict.keys (snd (nn_load_state_dict own sd strict)) = Dict.keys own.
Proof.
  unfold nn_load_state_dict.
  match goal with
  | |- context [if ?b then _ else _] => destruct b
  end; simpl; unfold Dict.keys; rewrite map_map; apply map_ext;
    intros [k v]; destruct (Dict.get sd k) as [p|]; auto;
    destruct (size_eqb (size p) (size v)); auto.
Qed.

Lemma nn_load_state_dict_shapes own sd strict :
  same_shapes (snd (nn_load_state_dict own sd strict)) own.
Proof.
  intros k. rewrite nn_load_state_dict_get.
  destruct (Dict.get own k) as [v|]; simpl; [|reflexivity].
  destruct (Dict.get sd k) as [p|]; [|reflexivity].
  destruct (size_eqb (size p) (size v)) eqn:E; [|reflexivity].
  apply size_eqb_eq in E. now rewrite E.
Qed.

Lemma same_shapes_mem a b k :
  same_shapes a b -> Dict.mem a k = Dict.mem b k.
Proof.
  intros H. specialize (H k). unfold Dict.mem.
  destruct (Dict.get a k), (Dict.get b k); simpl in H; congruence.
Qed.

Lemma in_keys_mem {V} (d : Dict.dict V) k v :
  In (k, v) d -> Dict.mem d k = true.
Proof.
  intros Hin. apply mem_true. change k with (fst (k, v)). now apply in_map.
Qed.

(** A strict load from a mapping with the module's own names and shapes
    succeeds and makes the module's parameters those of the mapping. *)
Lemma nn_load_strict_ok own sd :
  Dict.wf own -> same_shapes own sd ->
  fst (nn_load_state_dict own sd true) = Ok tt
  /\ forall k, Dict.get (snd (nn_load_state_dict own sd true)) k = Dict.get sd k.
Proof.
  intros Hwf Hsame. split.
  - unfold nn_load_state_dict.
    match goal with
    | |- context [existsb ?f own || (true && (existsb ?g own || existsb ?h sd))] =>
        assert (H1 : existsb f own = false);
        [|assert (H2 : existsb g own = false);
          [|assert (H3 : existsb h sd = false)]]
    end.
    + apply not_true_is_false. rewrite existsb_exists.
      intros ([k v] & Hin & Hbad).
      pose proof (@in_get _ _ _ _ Hwf Hin) as Hget.
      specialize (Hsame k). rewrite Hget in Hsame.
      destruct (Dict.get sd k) as [p|]; [|discriminate].
      apply negb_true_iff, size_eqb_neq in Hbad.
      simpl in Hsame. congruence.
    + apply not_true_is_false. rewrite existsb_exists.
      intros ([k v] & Hin & Hbad). simpl in Hbad.
      rewrite <- (same_shapes_mem k Hsame) in Hbad.
      rewrite (in_keys_mem _ _ _ Hin) in Hbad. discriminate.
    + apply not_true_is_false. rewrite existsb_exists.
      intros ([k v] & Hin & Hbad). simpl in Hbad.
      rewrite (same_shapes_mem k Hsame) in Hbad.
      rewrite (in_keys_mem _ _ _ Hin) in Hbad. discriminate.
    + rewrite H1, H2, H3. reflexivity.
  - intros k. rewrite nn_load_state_dict_get. specialize (Hsame k).
    destruct (Dict.get own k) as [v|], (Dict.get sd k) as [p|];
      simpl in *; try congruence.
    assert (size_eqb (size p) (size v) = true) as ->
        by (apply size_eqb_eq; congruence).
    reflexivity.
Qed.

(** Restoring leaves a module a module with its names and shapes. *)
Lemma restored_module state k parallel own :
  exists own',
    restored state k (NnModule parallel own) = NnModule parallel own'
    /\ Dict.keys own' = Dict.keys own /\ same_shapes own' own.
Proof.
  unfold restored, component_load_state_dict, de_parallel.
  cbn [has_load_state_dict].
  destruct (Dict.get state k) as [[z | z | d | m]|]; cbn [snd];
    try (exists own; split;
         [reflexivity | split; [reflexivity | intros k'; reflexivity]]).
  pose proof (nn_load_state_dict_keys own d true) as Hk.
  pose proof (nn_load_state_dict_shapes own d true) as Hs.
  destruct (nn_load_state_dict own d true) as [r own']. cbn [snd] in *.
  exists own'. auto.
Qed.

(** ** One pass of the loop of [load_state_dict] *)

Ltac unfold_component :=
  unfold load_component, bind, getattr, ret, lift, print, restore_attr,
    Dict.getitem, Dict.mem;
  match goal with
  | |- context [match Dict.get (attrs ?s) ?k with
                | Some v => v
                | None => Opaque
                end] =>
      change (match Dict.get (attrs s) k with
              | Some v => v
              | None => Opaque
              end) with (attr_of s k)
  end.

Lemma load_component_skip state k s :
  has_load_state_dict (attr_of s k) = false ->
  load_component state k s = (Ok tt, s).
Proof. intros H. unfold_component. rewrite H. reflexivity. Qed.

Lemma load_component_restore state k s b :
  has_load_state_dict (attr_of s k) = true ->
  Dict.get state k = Some b ->
  fst (component_load_state_dict (attr_of s k) b) = Ok tt ->
  load_component state k s
  = (Ok tt,
     {| attrs := Dict.set (attrs s) k
                   (snd (component_load_state_dict (attr_of s k) b));
        printed := printed s ++ [Load_component k] |}).
Proof.
  intros Hv Hb Hok. unfold_component. rewrite Hv, Hb. simpl.
  destruct (component_load_state_dict (attr_of s k) b) as [r v'].
  simpl in Hok. subst r. reflexivity.
Qed.

Lemma load_component_not_load state k s :
  has_load_state_dict (attr_of s k) = true ->
  Dict.get state k = None -> k <> "ema"%string ->
  load_component state k s
  = (Ok tt, {| attrs := attrs s; printed := printed s ++ [Not_load k] |}).
Proof.
  intros Hv Hb Hk. unfold_component. rewrite Hv, Hb. simpl.
  apply String.eqb_neq in Hk. now rewrite Hk.
Qed.

Lemma load_component_ema state s parallel own sd :
  has_load_state_dict (attr_of s "ema") = true ->
  Dict.get state "ema" = None ->
  Dict.get (attrs s) "model" = Some (NnModule parallel own) ->
  attr_state_dict (NnModule parallel own) = Ok sd ->
  let sub_blob := BMap [("module"%string, BParams (remove_module_prefix sd))] in
  fst (component_load_state_dict (attr_of s "ema") sub_blob) = Ok tt ->
  load_component state "ema" s
  = (Ok tt,
     {| attrs := Dict.set (attrs s) "ema"
                   (snd (component_load_state_dict (attr_of s "ema") sub_blob));
        printed := printed s ++ [Load_from_model "ema"] |}).
Proof.
  intros Hv Hb Hm Hsd sub_blob Hok. unfold_component.
  rewrite Hv, Hb. simpl. rewrite Hm. rewrite Hsd. fold sub_blob.
  destruct (component_load_state_dict (attr_of s "ema") sub_blob) as [r v'].
  simpl in Hok. subst r. reflexivity.
Qed.

Lemma for_eachM_app {S A L} (xs ys : list A) (body : L -> A -> M S L) :
  forall l s,
    for_eachM (xs ++ ys) body l s
    = bind (for_eachM xs body l) (fun l' => for_eachM ys body l') s.
Proof.
  induction xs as [|x xs IH]; intros l s; simpl.
  - reflexivity.
  - unfold bind. destruct (body l x s) as [[l'|e] s']; [|reflexivity].
    rewrite IH. reflexivity.
Qed.

Lemma keys_set_present {V} (d : Dict.dict V) k v :
  Dict.mem d k = true -> Dict.keys (Dict.set d k v) = Dict.keys d.
Proof.
  unfold Dict.mem. induction d as [|[k' v'] d IH]; simpl; [discriminate|].
  destruct (String.eqb_spec k' k) as [-> | Hne]; simpl; [reflexivity|].
  intros H. now rewrite IH.
Qed.

Lemma keys_set_absent {V} (d : Dict.dict V) k v :
  Dict.mem d k = false -> Dict.keys (Dict.set d k v) = Dict.keys d ++ [k].
Proof.
  unfold Dict.mem. intros H. rewrite set_fresh.
  - now rewrite keys_app.
  - now destruct (Dict.get d k).
Qed.

Lemma has_load_mem s k :
  has_load_state_dict (attr_of s k) = true -> Dict.mem (attrs s) k = true.
Proof.
  unfold attr_of, Dict.mem. now destruct (Dict.get (attrs s) k).
Qed.

Lemma attr_of_set_same a p k v :
  attr_of {| attrs := Dict.set a k v; printed := p |} k = v.
Proof. unfold attr_of. simpl. now rewrite get_set_same. Qed.

Lemma attr_of_set_other a p k k' v :
  k <> k' ->
  attr_of {| attrs := Dict.set a k v; printed := p |} k'
  = match Dict.get a k' with Some v' => v' | None => Opaque end.
Proof. intros H. unfold attr_of. simpl. now rewrite get_set_other. Qed.

(** The pass over an attribute other than the EMA: only that attribute can
    change, and it changes as [restored] says. *)
Lemma load_component_step state x s :
  x <> "ema"%string ->
  (forall b, has_load_state_dict (attr_of s x) = true ->
             Dict.get state x = Some b ->
             fst (component_load_state_dict (attr_of s x) b) = Ok tt) ->
  exists s1,
    load_component state x s = (Ok tt, s1)
    /\ (forall k, k <> x -> attr_of s1 k = attr_of s k)
    /\ attr_of s1 x = restored state x (attr_of s x)
    /\ printed s1 = printed s ++ report state x (attr_of s x)
    /\ Dict.keys (attrs s1) = Dict.keys (attrs s).
Proof.
  intros Hx Hok. unfold restored, report, Dict.mem.
  destruct (has_load_state_dict (attr_of s x)) eqn:Hv.
  - destruct (Dict.get state x) as [b|] eqn:Hb.
    + rewrite (@load_component_restore state x s b Hv Hb (Hok b eq_refl eq_refl)).
      eexists. split; [reflexivity|]. simpl. repeat split.
      * intros k Hk. now rewrite attr_of_set_other by auto.
      * apply attr_of_set_same.
      * apply keys_set_present. now apply has_load_mem.
    + rewrite (@load_component_not_load state x s Hv Hb Hx).
      eexists. split; [reflexivity|]. simpl. repeat split.
  - rewrite (@load_component_skip state x s Hv).
    exists s. rewrite app_nil_r. repeat split.
Qed.

Lemma flat_map_pointwise {A B} (f g : A -> list B) (l : list A) :
  (forall x, In x l -> f x = g x) -> flat_map f l = flat_map g l.
Proof.
  induction l as [|x l IH]; intros H; simpl; [reflexivity|].
  rewrite H by now left. f_equal. apply IH. intros y Hy. apply H. now right.
Qed.

Lemma run_components state names : forall s,
  NoDup names -> ~ In "ema"%string names ->
  (forall k b,
      In k names -> has_load_state_dict (attr_of s k) = true ->
      Dict.get state k = Some b ->
      fst (component_load_state_dict (attr_of s k) b) = Ok tt) ->
  exists s',
    for_eachM names (fun _ k => load_component state k) tt s = (Ok tt, s')
    /\ (forall k, ~ In k names -> attr_of s' k = attr_of s k)
    /\ (forall k, In k names -> attr_of s' k = restored state k (attr_of s k))
    /\ printed s'
       = printed s ++ flat_map (fun k => report state k (attr_of s k)) names
    /\ Dict.keys (attrs s') = Dict.keys (attrs s).
Proof.
  induction names as [|x names IH]; intros s Hnd Hema Hok.
  - exists s. simpl. unfold ret. rewrite app_nil_r. repeat split. tauto.
  - inversion Hnd as [|? ? Hnotin Hnd']; subst.
    destruct (@load_component_step state x s)
      as (s1 & Hrun & Hother & Hself & Hout & Hkeys).
    { intros ->. apply Hema. now left. }
    { intros b. apply Hok. now left. }
    destruct (IH s1 Hnd') as (s' & Hloop & Hframe & Hdone & Hout' & Hkeys').
    { intros Hin. apply Hema. now right. }
    { intros k b Hin. rewrite Hother by (intros ->; contradiction).
      apply Hok. now right. }
    exists s'. simpl. unfold bind at 1. rewrite Hrun.
    split; [exact Hloop|]. split; [|split; [|split]].
    + intros k Hk. simpl in Hk. rewrite Hframe by tauto.
      apply Hother. intros ->. tauto.
    + intros k [<- | Hin].
      * rewrite Hframe by assumption. exact Hself.
      * rewrite Hdone by assumption.
        now rewrite Hother by (intros ->; contradiction).
    + rewrite Hout', Hout, <- app_assoc. f_equal. simpl. f_equal.
      apply flat_map_pointwise.
      intros k Hin. now rewrite Hother by (intros ->; contradiction).
    + congruence.
Qed.

Lemma attr_of_get s k :
  has_load_state_dict (attr_of s k) = true ->
  Dict.get (attrs s) k = Some (attr_of s k).
Proof. unfold attr_of. now destruct (Dict.get (attrs s) k). Qed.

Lemma get_attr_of s k v : Dict.get (attrs s) k = Some v -> attr_of s k = v.
Proof. unfold attr_of. now intros ->. Qed.

Lemma same_shapes_sym a b : same_shapes a b -> same_shapes b a.
Proof. intros H k. now rewrite H. Qed.

Lemma same_shapes_trans a b c :
  same_shapes a b -> same_shapes b c -> same_shapes a c.
Proof. intros H1 H2 k. now rewrite H1. Qed.

Lemma component_load_ema_blob shadow d :
  component_load_state_dict (ModelEMA shadow)
    (BMap [("module"%string, BParams d)])
  = (fst (nn_load_state_dict shadow d true),
     ModelEMA (snd (nn_load_state_dict shadow d true))).
Proof.
  unfold component_load_state_dict, ema_load_state_dict, de_parallel.
  change (Dict.get [("module"%string, BParams d)] "module")
    with (Some (BParams d)).
  now destruct (nn_load_state_dict shadow d true).
Qed.

(** ** The whole loop, the EMA absent from the checkpoint *)

Section EmaFallback.
Variables (state : Checkpoint) (parallel : bool) (own shadow : ParameterMapping).
Variables (before after : list string) (s0 : solver).

Hypothesis no_ema_entry : Dict.get state "ema" = None.
Hypothesis names_nodup : NoDup (before ++ "ema"%string :: after).
Hypothesis model_attr : attr_of s0 "model" = NnModule parallel own.
Hypothesis ema_attr : attr_of s0 "ema" = ModelEMA shadow.
Hypothesis components_ok :
  forall k b,
    has_load_state_dict (attr_of s0 k) = true -> Dict.get state k = Some b ->
    fst (component_load_state_dict (attr_of s0 k) b) = Ok tt.
Hypothesis own_wf : Dict.wf own.
Hypothesis shadow_wf : Dict.wf shadow.
Hypothesis shadow_shapes : same_shapes shadow own.
Hypothesis names_plain :
  parallel = true
  \/ (forall k, In k (Dict.keys own) -> prefix "module." k = false).

Let body := fun (_ : unit) k => load_component state k.

Lemma ema_not_before : ~ In "ema"%string before.
Proof.
  intros Hin. apply NoDup_remove_2 in names_nodup.
  apply names_nodup, in_or_app. now left.
Qed.

Lemma ema_not_after : ~ In "ema"%string after.
Proof.
  intros Hin. apply NoDup_remove_2 in names_nodup.
  apply names_nodup, in_or_app. now right.
Qed.

Lemma before_not_after k : In k before -> ~ In k after.
Proof.
  intros Hb Ha. pose proof names_nodup as Hnd.
  apply NoDup_remove_1 in Hnd.
  rewrite NoDup_nth_error in Hnd. clear - Hb Ha Hnd.
  apply In_nth_error in Hb as [i Hi]. apply In_nth_error in Ha as [j Hj].
  assert (Hi' : nth_error (before ++ after) i = Some k).
  { rewrite nth_error_app1; [exact Hi|]. apply nth_error_Some. congruence. }
  assert (Hj' : nth_error (before ++ after) (length before + j) = Some k).
  { rewrite nth_error_app2 by lia.
    now replace (length before + j - length before) with j by lia. }
  assert (i < length before) by (apply nth_error_Some; congruence).
  specialize (Hnd i (length before + j)).
  assert (i = length before + j); [|lia].
  apply Hnd; [|congruence].
  rewrite length_app. lia.
Qed.

(** The loop runs to its end.  [own1] is the model's mapping when the loop
    reaches the EMA; the shadow ends up holding exactly it. *)
Lemma ema_fallback_loop :
  exists s' own1 own' shadow',
    for_eachM (before ++ "ema"%string :: after) body tt s0 = (Ok tt, s')
    /\ attr_of s' "ema" = ModelEMA shadow'
    /\ attr_of s' "model" = NnModule parallel own'
    /\ (forall k, Dict.get shadow' k = Dict.get own1 k)
    /\ (In "model"%string before -> own1 = own')
    /\ (~ In "model"%string before -> own1 = own)
    /\ (forall k, k <> "ema"%string ->
          attr_of s' k
          = if in_dec string_dec k (before ++ after)
            then restored state k (attr_of s0 k)
            else attr_of s0 k)
    /\ printed s'
       = printed s0
         ++ flat_map (fun k => report state k (attr_of s0 k)) before
         ++ [Load_from_model "ema"]
         ++ flat_map (fun k => report state k (attr_of s0 k)) after
    /\ Dict.keys (attrs s') = Dict.keys (attrs s0).
Proof.
  pose proof ema_not_before as Hnb. pose proof ema_not_after as Hna.
  assert (Hndb : NoDup before /\ NoDup after).
  { pose proof names_nodup as Hnd. apply NoDup_remove_1 in Hnd.
    split; [eapply NoDup_app_remove_r | eapply NoDup_app_remove_l]; eauto. }
  destruct Hndb as [Hndb Hnda].
  (* the attributes before the EMA *)
  destruct (@run_components state before s0 Hndb Hnb)
    as (s1 & Hrun1 & Hframe1 & Hdone1 & Hout1 & Hkeys1).
  { intros k b _. apply components_ok. }
  assert (Hema1 : attr_of s1 "ema" = ModelEMA shadow)
    by (rewrite Hframe1 by assumption; exact ema_attr).
  assert (Hmodel1 : exists own1,
             attr_of s1 "model" = NnModule parallel own1
             /\ Dict.keys own1 = Dict.keys own /\ same_shapes own1 own
             /\ (~ In "model"%string before -> own1 = own)).
  { destruct (in_dec string_dec "model"%string before) as [Hin | Hout].
    - destruct (restored_module state "model" parallel own)
        as (own1 & Hr & Hk & Hs).
      exists own1. rewrite (Hdone1 _ Hin), model_attr.
      repeat split; auto. tauto.
    - exists own. rewrite (Hframe1 _ Hout), model_attr.
      repeat split; auto. }
  destruct Hmodel1 as (own1 & Hmodel1 & Hkeys_own1 & Hshapes1 & Hsame1).
  (* the EMA itself *)
  assert (Hsd : exists sd, attr_state_dict (NnModule parallel own1) = Ok sd)
    by (destruct parallel; simpl; eauto).
  destruct Hsd as (sd & Hsd).
  assert (Hstrip : remove_module_prefix sd = own1).
  { apply (remove_module_prefix_model (parallel := parallel)); auto.
    - unfold Dict.wf. rewrite Hkeys_own1. exact own_wf.
    - rewrite Hkeys_own1. exact names_plain. }
  destruct (nn_load_strict_ok (own := shadow) (sd := own1) shadow_wf)
    as (Hload & Hshadow).
  { eapply same_shapes_trans; [exact shadow_shapes|].
    now apply same_shapes_sym. }
  destruct (nn_load_state_dict shadow own1 true) as [r shadow'] eqn:El.
  simpl in Hload, Hshadow. subst r.
  assert (Hgetm : Dict.get (attrs s1) "model" = Some (NnModule parallel own1)).
  { rewrite <- Hmodel1. apply attr_of_get. now rewrite Hmodel1. }
  assert (Hcomp : component_load_state_dict (ModelEMA shadow)
                    (BMap [("module"%string, BParams own1)])
                  = (Ok tt, ModelEMA shadow')).
  { rewrite component_load_ema_blob. now rewrite El. }
  assert (Hhas : has_load_state_dict (attr_of s1 "ema") = true)
    by now rewrite Hema1.
  pose proof (@load_component_ema state s1 parallel own1 sd
                Hhas no_ema_entry Hgetm Hsd) as Hrun2.
  cbv zeta in Hrun2. rewrite Hstrip, Hema1, Hcomp in Hrun2.
  specialize (Hrun2 eq_refl). simpl snd in Hrun2.
  set (s2 := {| attrs := Dict.set (attrs s1) "ema" (ModelEMA shadow');
                printed := printed s1 ++ [Load_from_model "ema"] |}) in *.
  assert (Hother2 : forall k, k <> "ema"%string -> attr_of s2 k = attr_of s1 k).
  { intros k Hk. unfold s2. now rewrite attr_of_set_other by auto. }
  (* the attributes after the EMA *)
  destruct (@run_components state after s2 Hnda Hna)
    as (s' & Hrun3 & Hframe3 & Hdone3 & Hout3 & Hkeys3).
  { intros k b Hin.
    assert (k <> "ema"%string) by (intros ->; contradiction).
    rewrite Hother2 by assumption.
    rewrite Hframe1; [apply components_ok|].
    intros Hb. now apply (@before_not_after k Hb). }
  assert (Hall : forall k, k <> "ema"%string ->
             attr_of s' k
             = if in_dec string_dec k (before ++ after)
               then restored state k (attr_of s0 k)
               else attr_of s0 k).
  { intros k Hk.
    destruct (in_dec string_dec k (before ++ after)) as [Hin | Hout].
    - apply in_app_or in Hin as [Hb | Ha].
      + rewrite Hframe3 by now apply before_not_after.
        rewrite Hother2 by assumption. now apply Hdone1.
      + rewrite Hdone3 by assumption. rewrite Hother2 by assumption.
        rewrite Hframe1; [reflexivity|].
        intros Hb. now apply (@before_not_after k Hb).
    - rewrite Hframe3 by (intros H; apply Hout, in_or_app; now right).
      rewrite Hother2 by assumption.
      apply Hframe1. intros H. apply Hout, in_or_app. now left. }
  destruct (restored_module state "model" parallel own)
    as (ownr & Hr & _ & _).
  assert (Hfinal : exists own',
             attr_of s' "model" = NnModule parallel own'
             /\ (In "model"%string before -> own1 = own')).
  { rewrite Hall by discriminate. rewrite model_attr.
    destruct (in_dec string_dec "model"%string (before ++ after)) as [Hin | Hout].
    - exists ownr. split; [exact Hr|]. intros Hb.
      rewrite (Hdone1 _ Hb), model_attr, Hr in Hmodel1. congruence.
    - exists own. split; [reflexivity|]. intros Hb.
      exfalso. apply Hout, in_or_app. now left. }
  destruct Hfinal as (own' & Hfinal & Hown').
  exists s', own1, own', shadow'.
  split.
  { rewrite for_eachM_app. unfold bind at 1. fold body in Hrun1. rewrite Hrun1.
    simpl. unfold bind at 1. unfold body at 1. rewrite Hrun2.
    exact Hrun3. }
  split.
  { rewrite Hframe3 by assumption. unfold s2. apply attr_of_set_same. }
  split; [exact Hfinal|]. split; [exact Hshadow|].
  split; [exact Hown'|]. split; [exact Hsame1|]. split; [exact Hall|].
  split.
  { rewrite Hout3. unfold s2 at 1. simpl. rewrite Hout1.
    rewrite <- !app_assoc. do 2 f_equal. simpl. f_equal.
    apply flat_map_pointwise. intros k Hin.
    assert (k <> "ema"%string) by (intros ->; contradiction).
    rewrite Hother2 by assumption.
    rewrite Hframe1; [reflexivity|].
    intros Hb. now apply (@before_not_after k Hb). }
  rewrite Hkeys3. unfold s2. simpl.
  rewrite keys_set_present; [exact Hkeys1|].
  apply has_load_mem. now rewrite Hema1.
Qed.
End EmaFallback.

(** ** [load_state_dict] *)

Lemma load_state_dict_unfold state s :
  load_state_dict state s
  = for_eachM (Dict.keys (attrs (after_last_epoch state s)))
      (fun _ k => load_component state k) tt (after_last_epoch state s).
Proof.
  unfold load_state_dict, after_last_epoch, bind, lift, Dict.mem,
    Dict.getitem, setattr, print, ret.
  now destruct (Dict.get state "last_epoch").
Qed.

Lemma after_last_epoch_other state s k :
  k <> "last_epoch"%string -> attr_of (after_last_epoch state s) k = attr_of s k.
Proof.
  intros Hk. unfold after_last_epoch.
  destruct (Dict.get state "last_epoch"); [|reflexivity].
  rewrite attr_of_set_other by auto. reflexivity.
Qed.

Lemma after_last_epoch_keys state s before after :
  Dict.wf (attrs s) ->
  Dict.keys (attrs s) = before ++ "ema"%string :: after ->
  exists after',
    Dict.keys (attrs (after_last_epoch state s))
    = before ++ "ema"%string :: after'
    /\ NoDup (before ++ "ema"%string :: after')
    /\ (forall k, In k after -> In k after')
    /\ (forall k, k <> "last_epoch"%string -> In k after' -> In k after).
Proof.
  intros Hwf Hkeys. unfold after_last_epoch. unfold Dict.wf in Hwf.
  destruct (Dict.get state "last_epoch") as [b|].
  - simpl. destruct (Dict.mem (attrs s) "last_epoch") eqn:Hm.
    + exists after. rewrite keys_set_present by assumption.
      rewrite <- Hkeys. auto.
    + exists (after ++ ["last_epoch"%string]).
      rewrite keys_set_absent by assumption. rewrite Hkeys.
      split; [now rewrite <- app_assoc|]. split; [|split].
      * change (before ++ "ema"%string :: after ++ ["last_epoch"%string])
          with (before ++ ("ema"%string :: after) ++ ["last_epoch"%string]).
        rewrite app_assoc, <- Hkeys.
        apply NoDup_app; [exact Hwf | repeat constructor; intros [] |].
        intros k Hin [<- | []].
        apply mem_true in Hin. congruence.
      * intros k Hin. apply in_or_app. now left.
      * intros k Hk Hin. apply in_app_or in Hin as [Hin | [<- | []]];
          [assumption | contradiction].
  - exists after. rewrite <- Hkeys. auto.
Qed.

(** C8 as worded fails for a plain (unwrapped) model that has a parameter
    under a submodule named [module]: [remove_module_prefix] renames
    [module.weight] to [weight], the shadow has no parameter of that name,
    the restore raises and the shadow keeps its own values. *)
Lemma ema_fallback_fails_on_module_named_module :
  Dict.mem ([] : Checkpoint) "ema" = false
  /\ Dict.get (attrs odd_solver) "model" = Some (NnModule false odd_model)
  /\ Dict.get (attrs odd_solver) "ema" = Some (ModelEMA odd_shadow)
  /\ same_shapes odd_shadow odd_model
  /\ remove_module_prefix odd_model = [("weight"%string, arange [2] 0)]
  /\ fst (load_state_dict [] odd_solver) = Raise RuntimeError
  /\ Dict.get (attrs (snd (load_state_dict [] odd_solver))) "ema"
     = Some (ModelEMA odd_shadow)
  /\ Dict.get odd_shadow "module.weight" <> Dict.get odd_model "module.weight".
Proof.
  split; [reflexivity|]. split; [reflexivity|]. split; [reflexivity|].
  split.
  { intros k. cbv [odd_shadow odd_model Dict.get].
    now destruct (String.eqb "module.weight" k). }
  split; [vm_compute; reflexivity|]. split; [vm_compute; reflexivity|].
  split; [vm_compute; reflexivity|].
  vm_compute. discriminate.
Qed.

(** C8 (amended): a checkpoint without ['ema'] entry is restored onto a
    solver (unique attribute names, the EMA among them) that holds a model
    with parameters [own], wrapped or not, and an EMA shadow with the names
    and shapes of [own].  Provided every component that has an entry
    restores from it without error, and the model is wrapped or none of its
    parameter names starts with [module.], the restore completes and the
    shadow afterwards holds, name by name, the parameters the model had when
    the loop reached the EMA: those of the model as it ends up when the model
    comes before the EMA among the attributes, those it started with when it
    comes after.  This line is the EMA's alone: any other component that can
    be restored and has no entry is left as it was and reported as not
    loaded.  [last_epoch], when the checkpoint has it, is set, and reported,
    before anything else. *)
Theorem ema_fallback
  (s : solver) (state : Checkpoint) (before after : list string)
  (parallel : bool) (own shadow : ParameterMapping) :
  Dict.wf (attrs s) ->
  Dict.keys (attrs s) = before ++ "ema"%string :: after ->
  Dict.mem state "ema" = false ->
  Dict.get (attrs s) "model" = Some (NnModule parallel own) ->
  Dict.get (attrs s) "ema" = Some (ModelEMA shadow) ->
  restores_ok state (attrs s) ->
  Dict.wf own -> Dict.wf shadow -> same_shapes shadow own ->
  parallel = true
  \/ (forall k, In k (Dict.keys own) -> prefix "module." k = false) ->
  exists s' own' shadow',
    load_state_dict state s = (Ok tt, s')
    /\ Dict.get (attrs s') "model" = Some (NnModule parallel own')
    /\ Dict.get (attrs s') "ema" = Some (ModelEMA shadow')
    /\ (In "model"%string before ->
        forall k, Dict.get shadow' k = Dict.get own' k)
    /\ (In "model"%string after ->
        forall k, Dict.get shadow' k = Dict.get own k)
    /\ In (Load_from_model "ema") (printed s')
    /\ (forall k v,
          k <> "ema"%string -> Dict.get (attrs s) k = Some v ->
          has_load_state_dict v = true -> Dict.mem state k = false ->
          Dict.get (attrs s') k = Some v /\ In (Not_load k) (printed s'))
    /\ (forall b,
          Dict.get state "last_epoch" = Some b ->
          Dict.get (attrs s') "last_epoch" = Some (Value b)
          /\ exists rest, printed s' = printed s ++ Load_last_epoch :: rest).
Proof.
  intros Hwf Hkeys Hno Hmodel Hema Hok Hown Hshadow Hshapes Hplain.
  assert (Hno' : Dict.get state "ema" = None).
  { unfold Dict.mem in Hno. now destruct (Dict.get state "ema"). }
  pose proof Hwf as Hnd. unfold Dict.wf in Hnd. rewrite Hkeys in Hnd.
  set (s0 := after_last_epoch state s).
  destruct (@after_last_epoch_keys state s before after Hwf Hkeys)
    as (after' & Hkeys0 & Hnd0 & Hafter & Hafter').
  fold s0 in Hkeys0.
  assert (Hsame : forall k, k <> "last_epoch"%string ->
                            attr_of s0 k = attr_of s k)
    by (intros k Hk; now apply after_last_epoch_other).
  assert (Hcomp : forall k b,
             has_load_state_dict (attr_of s0 k) = true ->
             Dict.get state k = Some b ->
             fst (component_load_state_dict (attr_of s0 k) b) = Ok tt).
  { intros k b Hv Hb. destruct (string_dec k "last_epoch") as [-> | Hk].
    - unfold s0, after_last_epoch in Hv. rewrite Hb in Hv.
      rewrite attr_of_set_same in Hv. discriminate.
    - rewrite Hsame in * by assumption.
      apply (Hok k); [now apply attr_of_get | assumption | assumption]. }
  destruct (@ema_fallback_loop state parallel own shadow before after' s0)
    as (s' & own1 & own' & shadow' & Hrun & Hema' & Hmodel' & Hcopy
        & Hbefore & Hnotbefore & Hall & Hout & _); auto.
  { rewrite Hsame by discriminate. now apply get_attr_of. }
  { rewrite Hsame by discriminate. now apply get_attr_of. }
  assert (Hget : forall k v, attr_of s' k = v -> has_load_state_dict v = true ->
                             Dict.get (attrs s') k = Some v).
  { intros k v <- Hv. now apply attr_of_get. }
  exists s', own', shadow'.
  split; [now rewrite load_state_dict_unfold; fold s0; rewrite Hkeys0|].
  split; [now apply Hget|]. split; [now apply Hget|].
  split; [intros Hb k; rewrite Hcopy; now rewrite (Hbefore Hb)|].
  split.
  { intros Ha k. rewrite Hcopy, Hnotbefore; [reflexivity|].
    intros Hb. exact (@before_not_after before after Hnd "model"%string Hb Ha). }
  split.
  { rewrite Hout. apply in_or_app. right. apply in_or_app. right. now left. }
  split.
  - intros k v Hk Hv Hload Hmem.
    assert (Hnone : Dict.get state k = None).
    { unfold Dict.mem in Hmem. now destruct (Dict.get state k). }
    assert (Hv0 : attr_of s0 k = v).
    { destruct (string_dec k "last_epoch") as [-> | Hle].
      - unfold s0, after_last_epoch. rewrite Hnone. now apply get_attr_of.
      - rewrite Hsame by assumption. now apply get_attr_of. }
    assert (Hin : In k (before ++ after')).
    { assert (Hk' : In k (Dict.keys (attrs s))).
      { apply mem_true. unfold Dict.mem. now rewrite Hv. }
      rewrite Hkeys in Hk'. apply in_app_or in Hk' as [Hb | [He | Ha]].
      - apply in_or_app. now left.
      - congruence.
      - apply in_or_app. right. now apply Hafter. }
    split.
    + apply Hget; [|exact Hload]. rewrite Hall by assumption.
      destruct (in_dec string_dec k (before ++ after')); [|contradiction].
      rewrite Hv0. unfold restored. now rewrite Hload, Hnone.
    + rewrite Hout.
      assert (Hrep : report state k (attr_of s0 k) = [Not_load k]).
      { rewrite Hv0. unfold report. now rewrite Hload, Hmem. }
      apply in_or_app. right.
      apply in_app_or in Hin as [Hb | Ha].
      * apply in_or_app. left. apply in_flat_map. exists k.
        split; [exact Hb|]. rewrite Hrep. now left.
      * apply in_or_app. right. apply in_or_app. right.
        apply in_flat_map. exists k.
        split; [exact Ha|]. rewrite Hrep. now left.
  - intros b Hb.
    assert (Hle0 : attr_of s0 "last_epoch" = Value b).
    { unfold s0, after_last_epoch. rewrite Hb. apply attr_of_set_same. }
    split.
    + assert (Hle : attr_of s' "last_epoch" = Value b).
      { rewrite Hall by discriminate. rewrite Hle0.
        now destruct (in_dec string_dec "last_epoch"%string (before ++ after')). }
      unfold attr_of in Hle.
      destruct (Dict.get (attrs s') "last_epoch"); [now subst | discriminate].
    + rewrite Hout. unfold s0 at 1, after_last_epoch. rewrite Hb. simpl.
      rewrite <- app_assoc. simpl. eauto.
Qed.

Lemma sample_solver_wf : Dict.wf (attrs sample_solver).
Proof.
  unfold Dict.wf, sample_solver. simpl.
  repeat constructor; simpl; intuition discriminate.
Qed.

Lemma sample_solver_restores : restores_ok resume_checkpoint (attrs sample_solver).
Proof.
  intros k v b Hv Hload Hb. cbv [sample_solver attrs Dict.get] in Hv.
  repeat match type of Hv with
         | context [String.eqb ?a k] =>
             destruct (String.eqb_spec a k) as [<- | ?]
         end;
    try discriminate Hv; injection Hv as <-;
    try discriminate Hload;
    vm_compute in Hb; try discriminate Hb; injection Hb as <-;
    vm_compute; reflexivity.
Qed.

Lemma ema_fallback_witness :
  exists s' own' shadow',
    load_state_dict resume_checkpoint sample_solver = (Ok tt, s')
    /\ Dict.get (attrs s') "model" = Some (NnModule true own')
    /\ Dict.get (attrs s') "ema" = Some (ModelEMA shadow')
    /\ (forall k, Dict.get shadow' k = Dict.get own' k)
    /\ In (Load_from_model "ema") (printed s')
    /\ In (Not_load "optimizer") (printed s')
    /\ Dict.get (attrs s') "last_epoch" = Some (Value (BInt 71)).
Proof.
  destruct (@ema_fallback sample_solver resume_checkpoint
              ["cfg"; "model"]%string ["last_epoch"; "optimizer"]%string true
              [("backbone.weight"%string, arange [2; 2] 0)]
              [("backbone.weight"%string, arange [2; 2] 90)]
              sample_solver_wf eq_refl eq_refl eq_refl eq_refl
              sample_solver_restores)
    as (s' & own' & shadow' & Hrun & Hmodel & Hema & Hbefore & _ & Hline
        & Hskipped & Hepoch).
  - unfold Dict.wf. simpl. repeat constructor. intros [].
  - unfold Dict.wf. simpl. repeat constructor. intros [].
  - intros k. cbv [Dict.get]. now destruct (String.eqb "backbone.weight" k).
  - now left.
  - exists s', own', shadow'.
    split; [exact Hrun|]. split; [exact Hmodel|]. split; [exact Hema|].
    split; [apply Hbefore; simpl; tauto|]. split; [exact Hline|].
    split.
    + apply (Hskipped "optimizer"%string (Stateful (BInt 0)));
        [discriminate | reflexivity | reflexivity | reflexivity].
    + apply (Hepoch (BInt 71)). reflexivity.
Defined.

(** * Further properties of the solver's code *)

(** ** Shape of what the remapper returns *)

Lemma setitem_size t i v t' : setitem t i v = Ok t' -> size t' = size t.
Proof.
  unfold setitem. destruct (size t) as [|n rs] eqn:E; [discriminate|].
  destruct (i <? n); [|discriminate].
  destruct (expand_to v rs); [|discriminate].
  intros H. now injection H as <-.
Qed.

Lemma for_each_size {A} (xs : list A) (body : tensor -> A -> result tensor) :
  (forall t x t', body t x = Ok t' -> size t' = size t) ->
  forall t r, for_each xs body t = Ok r -> size r = size t.
Proof.
  intros Hbody. induction xs as [|x xs IH]; intros t r; simpl.
  - intros H. now injection H as <-.
  - destruct (body t x) as [t'|e] eqn:E; simpl; [|discriminate].
    intros H. rewrite (IH _ _ H). eauto.
Qed.

(** X1: whenever [map_class_weights] returns, what it returns is a tensor
    of the shape of [cur_tensor], whatever the two shapes were. *)
Theorem map_class_weights_shape (cur_tensor pretrain_tensor : tensor) r :
  map_class_weights cur_tensor pretrain_tensor = Ok r ->
  exists t, r = Some t /\ size t = size cur_tensor.
Proof.
  unfold map_class_weights.
  destruct (size_eqb (size pretrain_tensor) (size cur_tensor)) eqn:E.
  - intros H. injection H as <-. exists pretrain_tensor.
    split; [reflexivity | now apply size_eqb_eq].
  - destruct (size_gtb (size pretrain_tensor) (size cur_tensor));
      match goal with
      | |- context [for_each ?xs ?f ?s] =>
          destruct (for_each xs f s) as [a|e] eqn:El
      end; simpl; intros H; try discriminate; injection H as <-;
      exists a; (split; [reflexivity|]);
      apply for_each_size in El; [exact El | | exact El |];
      intros t [c o] t'; simpl;
      match goal with
      | |- context [getitem ?p ?i] => destruct (getitem p i); simpl
      end; try discriminate; apply setitem_size.
Qed.

Lemma map_class_weights_shape_witness :
  exists t,
    Some contracted_sample = Some t /\ size t = size (arange [81] 1000).
Proof.
  apply (map_class_weights_shape (arange [81] 1000) (arange [366] 0)).
  vm_compute. reflexivity.
Defined.

(** ** Tensors with the same rows *)

Lemma row_of_tail {A} p j (xs : list A) :
  row_of p j (skipn p xs) = row_of p (S j) xs.
Proof.
  unfold row_of. rewrite skipn_skipn. do 2 f_equal. simpl. lia.
Qed.

Lemma rows_ext {A} p n : forall xs ys : list A,
  length xs = n * p -> length ys = n * p ->
  (forall j, j < n -> row_of p j xs = row_of p j ys) -> xs = ys.
Proof.
  induction n as [|n IH]; intros xs ys Hx Hy Hrows.
  - destruct xs, ys; simpl in *; congruence.
  - rewrite <- (firstn_skipn p xs), <- (firstn_skipn p ys). f_equal.
    + apply (Hrows 0). lia.
    + apply IH.
      * rewrite length_skipn. simpl in Hx. lia.
      * rewrite length_skipn. simpl in Hy. lia.
      * intros j Hj. rewrite !row_of_tail. apply Hrows. lia.
Qed.

Lemma tensor_ext (a b : tensor) n rs :
  wf a -> wf b -> size a = n :: rs -> size b = n :: rs ->
  (forall j, j < n -> getitem a j = getitem b j) -> a = b.
Proof.
  intros Hwa Hwb Ha Hb Hrows.
  destruct a as [sa da], b as [sb db]. unfold wf in *. simpl in *. subst.
  f_equal. apply (@rows_ext _ (numel rs) n); try assumption.
  intros j Hj. specialize (Hrows j Hj).
  unfold getitem in Hrows. simpl in Hrows.
  apply Nat.ltb_lt in Hj. rewrite Hj in Hrows. now injection Hrows.
Qed.

(** X2: the round trip returns the compact tensor itself.  Expanding a
    tensor [C] of shape [80 :: rs] into any base of shape [N :: rs],
    [330 <= N], and contracting the result into any target of shape
    [80 :: rs] gives [C]: no value of the target survives. *)
Theorem remap_round_trip_exact (rs : list nat) (C base target : tensor) (N : nat) :
  wf C -> wf base -> wf target ->
  size C = 80 :: rs -> size base = N :: rs -> 330 <= N ->
  size target = 80 :: rs ->
  exists E,
    map_class_weights base C = Ok (Some E)
    /\ map_class_weights target E = Ok (Some C).
Proof.
  intros HwC Hwb Hwt HC Hb HN Ht.
  destruct (expand_rows Hwb HwC Hb HC) as (E & HE & HwE & HsE & Hplaced & _);
    try lia.
  rewrite Hb in HsE.
  destruct (contract_rows Hwt HwE Ht HsE) as (R & HR & HwR & HsR & Hcopied & _);
    try lia.
  exists E. split; [exact HE|]. rewrite HR. do 2 f_equal.
  apply (tensor_ext (n := 80) (rs := rs)); auto; [congruence|].
  intros j Hj. rewrite Hcopied by assumption. now apply Hplaced.
Qed.

Lemma remap_round_trip_exact_witness :
  exists E,
    map_class_weights (arange [366; 2] 2000) (arange [80; 2] 0) = Ok (Some E)
    /\ map_class_weights (arange [80; 2] 3000) E = Ok (Some (arange [80; 2] 0)).
Proof.
  apply (remap_round_trip_exact (rs := [2]) (N := 366));
    try reflexivity. lia.
Defined.

(** X3: a contraction reads the rows the table addresses and nothing else.
    Two pretrained tensors of one shape [m :: rs], [330 <= m], that agree on
    row [table c + 1] for every [c < 80] give the same result for any target
    of shape [n :: rs], [80 <= n < m]. *)
Theorem contraction_reads_mapped_rows
  (cur pre1 pre2 : tensor) (n m : nat) (rs : list nat) :
  wf cur -> wf pre1 -> wf pre2 ->
  size cur = n :: rs -> size pre1 = m :: rs -> size pre2 = m :: rs ->
  n < m -> 80 <= n -> 330 <= m ->
  (forall c, c < 80 -> getitem pre1 (table c + 1) = getitem pre2 (table c + 1)) ->
  map_class_weights cur pre1 = map_class_weights cur pre2.
Proof.
  intros Hwc Hw1 Hw2 Hc H1 H2 Hlt Hn Hm Hagree.
  destruct (contract_rows Hwc Hw1 Hc H1 Hlt Hn Hm)
    as (r1 & Hr1 & Hwr1 & Hs1 & Hcopied1 & Hkept1).
  destruct (contract_rows Hwc Hw2 Hc H2 Hlt Hn Hm)
    as (r2 & Hr2 & Hwr2 & Hs2 & Hcopied2 & Hkept2).
  rewrite Hr1, Hr2. do 2 f_equal.
  apply (tensor_ext (n := n) (rs := rs)); auto; try congruence.
  intros j Hj. destruct (Nat.lt_ge_cases j 80) as [Hlow | Hhigh].
  - rewrite Hcopied1, Hcopied2 by assumption. now apply Hagree.
  - now rewrite Hkept1, Hkept2.
Qed.

Lemma contraction_reads_mapped_rows_witness :
  other_background <> arange [366] 0
  /\ map_class_weights (arange [81] 1000) (arange [366] 0)
     = map_class_weights (arange [81] 1000) other_background.
Proof.
  split; [vm_compute; discriminate|].
  apply (contraction_reads_mapped_rows (n := 81) (m := 366) (rs := []));
    try reflexivity; try lia.
  intros c _. symmetry.
  apply (@getitem_put_row_other (arange [366] 0) 366 [] 0 (table c + 1)
           [99%Z]); try reflexivity; lia.
Defined.

(** ** [remove_module_prefix] on its own *)

Lemma get_set {V} (d : Dict.dict V) k k' v :
  Dict.get (Dict.set d k v) k'
  = if String.eqb k k' then Some v else Dict.get d k'.
Proof.
  destruct (String.eqb_spec k k') as [<- | Hne].
  - apply get_set_same.
  - now apply get_set_other.
Qed.

Lemma wf_set {V} (d : Dict.dict V) k v : Dict.wf d -> Dict.wf (Dict.set d k v).
Proof.
  unfold Dict.wf. intros H. destruct (Dict.mem d k) eqn:E.
  - now rewrite keys_set_present.
  - rewrite keys_set_absent by assumption.
    apply NoDup_app; [assumption | repeat constructor; intros [] |].
    intros x Hin [<- | []]. apply mem_true in Hin. congruence.
Qed.

Lemma find_app {A} (p : A -> bool) (l1 l2 : list A) :
  find p (l1 ++ l2)
  = match find p l1 with
    | Some x => Some x
    | None => find p l2
    end.
Proof.
  induction l1 as [|x l1 IH]; simpl; [reflexivity|].
  now destruct (p x).
Qed.

Lemma fold_set_lookup (f : string -> string) (d : ParameterMapping) :
  forall acc k,
    Dict.get (fold_left (fun acc (kv : string * tensor) =>
                           Dict.set acc (f (fst kv)) (snd kv)) d acc) k
    = match find (fun kv => String.eqb (f (fst kv)) k) (rev d) with
      | Some kv => Some (snd kv)
      | None => Dict.get acc k
      end.
Proof.
  induction d as [|[k0 v0] d IH]; intros acc k; simpl; [reflexivity|].
  rewrite IH, find_app. 
  destruct (find (fun kv => String.eqb (f (fst kv)) k) (rev d)); [reflexivity|].
  simpl. rewrite get_set. now destruct (String.eqb (f k0) k).
Qed.

Lemma fold_set_wf (f : string -> string) (d : ParameterMapping) :
  forall acc,
    Dict.wf acc ->
    Dict.wf (fold_left (fun acc (kv : string * tensor) =>
                          Dict.set acc (f (fst kv)) (snd kv)) d acc).
Proof.
  induction d as [|[k0 v0] d IH]; intros acc H; simpl; [exact H|].
  apply IH. now apply wf_set.
Qed.

Lemma remove_module_prefix_fold d :
  remove_module_prefix d
  = fold_left (fun acc (kv : string * tensor) =>
                 Dict.set acc (strip_key (fst kv)) (snd kv)) d [].
Proof.
  unfold remove_module_prefix. apply fold_left_pointwise.
  intros acc [k v]. unfold strip_key. simpl.
  now destruct (prefix "module." k).
Qed.

(** X4: [remove_module_prefix] undoes a parallel wrapper and leaves a plain
    mapping alone.  For a mapping with unique keys, prefixing every key with
    [module.] and stripping gives the mapping back, entry for entry; a
    mapping none of whose keys starts with [module.] comes back unchanged. *)
Theorem remove_module_prefix_round_trip (d : ParameterMapping) :
  Dict.wf d ->
  remove_module_prefix (map (fun '(k, t) => (("module." ++ k)%string, t)) d) = d
  /\ ((forall k, In k (Dict.keys d) -> prefix "module." k = false) ->
      remove_module_prefix d = d).
Proof.
  intros Hwf. split.
  - apply (remove_module_prefix_model (parallel := true) Hwf); auto.
  - intros Hplain.
    apply (remove_module_prefix_model (parallel := false) Hwf); auto.
Qed.

Lemma remove_module_prefix_round_trip_witness :
  remove_module_prefix
    (map (fun '(k, t) => (("module." ++ k)%string, t)) sample_cur)
  = sample_cur.
Proof.
  exact (proj1 (remove_module_prefix_round_trip sample_cur_wf)).
Defined.

(** X5: whatever the mapping, the keys of [remove_module_prefix]'s result
    are unique and are the stripped keys of the input; where stripping makes
    two keys meet, the value of the later entry is the one kept. *)
Theorem remove_module_prefix_collisions (d : ParameterMapping) :
  Dict.wf (remove_module_prefix d)
  /\ (forall k,
        In k (Dict.keys (remove_module_prefix d))
        <-> exists k0, In k0 (Dict.keys d) /\ strip_key k0 = k)
  /\ (forall k,
        Dict.get (remove_module_prefix d) k
        = option_map snd
            (find (fun kv => String.eqb (strip_key (fst kv)) k) (rev d))).
Proof.
  assert (Hget : forall k,
             Dict.get (remove_module_prefix d) k
             = option_map snd
                 (find (fun kv => String.eqb (strip_key (fst kv)) k) (rev d))).
  { intros k. rewrite remove_module_prefix_fold, fold_set_lookup.
    now destruct (find _ (rev d)). }
  split; [|split; [|exact Hget]].
  - rewrite remove_module_prefix_fold. apply fold_set_wf. constructor.
  - intros k. rewrite <- mem_true. unfold Dict.mem. rewrite Hget. split.
    + destruct (find _ (rev d)) as [[k0 v0]|] eqn:E; [|discriminate].
      intros _. apply find_some in E as [Hin Heq].
      apply in_rev in Hin. apply String.eqb_eq in Heq. simpl in Heq.
      exists k0. split; [|exact Heq].
      change k0 with (fst (k0, v0)). now apply in_map.
    + intros (k0 & Hin & Heq).
      destruct (find _ (rev d)) as [kv|] eqn:E; [reflexivity|].
      unfold Dict.keys in Hin. rewrite in_map_iff in Hin.
      destruct Hin as ([k1 v1] & <- & Hin).
      apply in_rev in Hin. pose proof (find_none _ _ E _ Hin) as Hf.
      simpl in Hf, Heq. rewrite Heq, String.eqb_refl in Hf. discriminate.
Qed.

(** ** Order and count of the matcher's report *)

Lemma keep_matched_closed S T : forall acc,
  NoDup (Dict.keys acc ++ Dict.keys T) ->
  fold_left (keep_matched S) T acc = acc ++ flat_map (kept_entry S) T.
Proof.
  induction T as [|[k v] T IH]; intros acc Hnd; simpl.
  - now rewrite app_nil_r.
  - assert (Hfresh : Dict.get acc k = None).
    { apply get_none. intros Hin. simpl in Hnd.
      apply NoDup_remove_2 in Hnd. apply Hnd, in_or_app. now left. }
    assert (Hrest : NoDup (Dict.keys acc ++ Dict.keys T))
      by (simpl in Hnd; now apply NoDup_remove_1 in Hnd).
    unfold keep_matched at 2. unfold kept_entry at 1. simpl.
    destruct (Dict.get S k) as [p|]; [|now apply IH].
    destruct (size_eqb (size v) (size p)); [|now apply IH].
    rewrite set_fresh by assumption. rewrite IH.
    + now rewrite <- app_assoc.
    + rewrite keys_app. simpl. rewrite <- app_assoc. exact Hnd.
Qed.

Lemma filter_keys (f : string * tensor -> bool) (g : string -> bool)
  (T : ParameterMapping) :
  (forall kv, In kv T -> f kv = g (fst kv)) ->
  map fst (filter f T) = filter g (Dict.keys T).
Proof.
  induction T as [|kv T IH]; intros H; simpl; [reflexivity|].
  rewrite <- (H kv) by now left.
  destruct (f kv); simpl; rewrite IH; auto; intros x Hx; apply H; now right.
Qed.

Lemma keys_kept_entries S (T : ParameterMapping) :
  Dict.keys (flat_map (kept_entry S) T)
  = map fst (filter (fun kv => match kept_entry S kv with
                               | [] => false
                               | _ => true
                               end) T).
Proof.
  induction T as [|[k v] T IH]; simpl; [reflexivity|].
  unfold Dict.keys in *. rewrite map_app, IH.
  unfold kept_entry at 1 3. simpl.
  destruct (Dict.get S k) as [p|]; [|reflexivity].
  now destruct (size_eqb (size v) (size p)).
Qed.

Lemma filter_three_lengths {A} (f g h : A -> bool) (l : list A) :
  (forall x, In x l ->
             (f x = true /\ g x = false /\ h x = false)
             \/ (f x = false /\ g x = true /\ h x = false)
             \/ (f x = false /\ g x = false /\ h x = true)) ->
  length (filter f l) + length (filter g l) + length (filter h l) = length l.
Proof.
  induction l as [|x l IH]; intros H; simpl; [reflexivity|].
  assert (Hl := IH (fun y Hy => H y (or_intror Hy))).
  destruct (H x (or_introl eq_refl)) as [(-> & -> & ->) | [(-> & -> & ->) | (-> & -> & ->)]];
    simpl; lia.
Qed.

(** X6: the matcher reports in the target's order and accounts for every
    key once.  For a target with unique keys, the keys of the matched
    mapping, the missed list and the unmatched list are the target's keys
    filtered, each in the order the target has them, and their lengths add up
    to the number of the target's keys. *)
Theorem matched_state_order (T S : ParameterMapping) :
  Dict.wf T ->
  let matched := fst (_matched_state T S) in
  let infos := snd (_matched_state T S) in
  Dict.keys matched = filter (is_kept T S) (Dict.keys T)
  /\ missed infos = filter (fun k => negb (Dict.mem S k)) (Dict.keys T)
  /\ unmatched infos = filter (is_shape_clash T S) (Dict.keys T)
  /\ length matched + length (missed infos) + length (unmatched infos)
     = length T.
Proof.
  intros Hwf matched infos.
  assert (Hm : Dict.keys matched = filter (is_kept T S) (Dict.keys T)).
  { unfold matched. rewrite matched_state_eq. simpl.
    rewrite keep_matched_closed by exact Hwf. simpl.
    rewrite keys_kept_entries. apply filter_keys.
    intros [k v] Hin. unfold kept_entry, is_kept. simpl.
    rewrite (@in_get _ _ _ _ Hwf Hin).
    destruct (Dict.get S k) as [p|]; [|reflexivity].
    now destruct (size_eqb (size v) (size p)). }
  assert (Hmi : missed infos
                = filter (fun k => negb (Dict.mem S k)) (Dict.keys T)).
  { unfold infos. rewrite matched_state_eq. simpl.
    apply filter_keys. now intros [k v] _. }
  assert (Hun : unmatched infos = filter (is_shape_clash T S) (Dict.keys T)).
  { unfold infos. rewrite matched_state_eq. simpl.
    apply filter_keys. intros [k v] Hin. unfold is_unmatched, is_shape_clash.
    simpl. now rewrite (@in_get _ _ _ _ Hwf Hin). }
  split; [exact Hm|]. split; [exact Hmi|]. split; [exact Hun|].
  replace (length matched) with (length (Dict.keys matched))
    by apply length_map.
  replace (length T) with (length (Dict.keys T)) by apply length_map.
  rewrite Hm, Hmi, Hun. apply filter_three_lengths.
  intros k Hin. apply mem_true, mem_get in Hin as [v Hv].
  unfold is_kept, is_shape_clash, Dict.mem. rewrite Hv.
  destruct (Dict.get S k) as [p|]; simpl; [|tauto].
  destruct (size_eqb (size v) (size p)); simpl; tauto.
Qed.

Lemma matched_state_order_witness :
  Dict.keys (fst (_matched_state sample_target sample_candidate))
  = ["backbone.weight"%string]
  /\ missed (snd (_matched_state sample_target sample_candidate))
     = filter (fun k => negb (Dict.mem sample_candidate k))
         (Dict.keys sample_target)
  /\ length (fst (_matched_state sample_target sample_candidate))
     + length (missed (snd (_matched_state sample_target sample_candidate)))
     + length (unmatched (snd (_matched_state sample_target sample_candidate)))
     = 3.
Proof.
  assert (Hwf : Dict.wf sample_target).
  { unfold Dict.wf, sample_target. simpl.
    repeat constructor; simpl; intuition discriminate. }
  destruct (matched_state_order sample_candidate Hwf)
    as (Hk & Hm & _ & Hlen).
  split; [rewrite Hk; reflexivity|]. split; [exact Hm | exact Hlen].
Defined.

Lemma filter_none {A} (f : A -> bool) (l : list A) :
  (forall x, In x l -> f x = false) -> filter f l = [].
Proof.
  induction l as [|x l IH]; intros H; simpl; [reflexivity|].
  rewrite H by now left. apply IH. intros y Hy. apply H. now right.
Qed.

(** X7: matching a mapping against itself keeps all of it.  For a mapping
    with unique keys the matched mapping is the mapping itself, entry for
    entry, and both lists of the report are empty. *)
Theorem matched_state_self (T : ParameterMapping) :
  Dict.wf T ->
  _matched_state T T = (T, {| missed := []; unmatched := [] |}).
Proof.
  intros Hwf. rewrite matched_state_eq.
  rewrite keep_matched_closed by exact Hwf. simpl.
  assert (Hkept : forall l : ParameterMapping,
             (forall kv, In kv l -> In kv T) -> flat_map (kept_entry T) l = l).
  { induction l as [|[k v] l IH]; intros Hl; simpl; [reflexivity|].
    unfold kept_entry at 1. simpl.
    rewrite (@in_get _ _ _ _ Hwf (Hl _ (or_introl eq_refl))).
    rewrite size_eqb_refl. simpl. f_equal. apply IH.
    intros kv Hin. apply Hl. now right. }
  rewrite Hkept by auto.
  rewrite (filter_none (is_missed T) T), (filter_none (is_unmatched T) T);
    [reflexivity | |].
  - intros [k v] Hin. unfold is_unmatched. simpl.
    rewrite (@in_get _ _ _ _ Hwf Hin). now rewrite size_eqb_refl.
  - intros [k v] Hin. unfold is_missed. simpl.
    now rewrite (in_keys_mem _ _ _ Hin).
Qed.

Lemma matched_state_self_witness :
  _matched_state sample_cur sample_cur
  = (sample_cur, {| missed := []; unmatched := [] |}).
Proof. exact (matched_state_self sample_cur_wf). Defined.

(** ** What the head adjustment leaves alone *)

Lemma adjust_head_frame cur acc name k v :
  name <> k ->
  inv (fun s => Dict.get (pretrain_obj s) k = v) (adjust_head cur acc name).
Proof.
  intros Hne s H. unfold_store.
  destruct (Dict.mem cur name && Dict.mem (pretrain_obj s) name); simpl; auto.
  destruct (Dict.get cur name) as [c|]; simpl; auto.
  destruct (Dict.get (pretrain_obj s) name) as [p|]; simpl; auto.
  destruct (map_class_weights c p) as [[r|]|e]; simpl; auto.
  now rewrite get_set_other.
Qed.

(** X8: [_adjust_head_parameters] writes to the denoising embedding and to
    the eighteen score-head names only: every other entry of the pretrained
    dictionary is after the call what it was before, whether the call
    returned or raised. *)
Theorem adjust_head_parameters_frame
  (cur pre : ParameterMapping) (out : list line) (k : string) :
  k <> denoising_key -> ~ In k head_param_names ->
  Dict.get
    (pretrain_obj
       (snd (_adjust_head_parameters cur {| pretrain_obj := pre; stdout := out |})))
    k
  = Dict.get pre k.
Proof.
  intros Hk Hhead.
  assert (Hinv : inv (fun s => Dict.get (pretrain_obj s) k = Dict.get pre k)
                   (_adjust_head_parameters cur));
    [|exact (Hinv {| pretrain_obj := pre; stdout := out |} eq_refl)].
  unfold _adjust_head_parameters.
  apply inv_bind; [intros s H; exact H|]. intros p.
  apply inv_bind; [apply inv_lift|]. intros c.
  apply inv_bind.
  - destruct (negb (size_eqb (size p) (size c))); [|apply inv_ret].
    intros s H. unfold pretrain_delitem.
    destruct (Dict.mem (pretrain_obj s) denoising_key); [|exact H].
    simpl. rewrite get_del_other; auto.
  - intros _. apply inv_bind; [|intros _ s H; exact H].
    apply inv_for_eachM. intros l x Hx. apply adjust_head_frame.
    intros ->. contradiction.
Qed.

Lemma adjust_head_parameters_frame_witness :
  Dict.get
    (pretrain_obj
       (snd (_adjust_head_parameters sample_cur
               {| pretrain_obj := same_pretrain; stdout := [] |})))
    "backbone.weight"
  = Some (arange [2; 2] 40).
Proof.
  apply (adjust_head_parameters_frame sample_cur same_pretrain []
           (k := "backbone.weight"%string)).
  - discriminate.
  - intros H. vm_compute in H.
    repeat (destruct H as [H | H]; [discriminate|]). exact H.
Defined.

(** ** A checkpoint of the model's own taxonomy *)

Lemma set_same {V} (d : Dict.dict V) k v :
  Dict.get d k = Some v -> Dict.set d k v = d.
Proof.
  induction d as [|[k' v'] d IH]; simpl; [discriminate|].
  destruct (String.eqb_spec k' k) as [-> | Hne].
  - intros H. now injection H as ->.
  - intros H. now rewrite IH.
Qed.

Lemma adjust_heads_same_shapes cur pre out names : forall acc,
  (forall name c p,
      In name names -> Dict.get cur name = Some c ->
      Dict.get pre name = Some p -> size p = size c) ->
  exists acc',
    for_eachM names (adjust_head cur) acc {| pretrain_obj := pre; stdout := out |}
    = (Ok acc', {| pretrain_obj := pre; stdout := out |}).
Proof.
  induction names as [|x names IH]; intros acc Hall; simpl.
  - exists acc. reflexivity.
  - assert (Hstep : exists acc1,
               adjust_head cur acc x {| pretrain_obj := pre; stdout := out |}
               = (Ok acc1, {| pretrain_obj := pre; stdout := out |})).
    { unfold_store. unfold Dict.mem. simpl.
      destruct (Dict.get cur x) as [c|] eqn:Ec; simpl; [|eauto].
      destruct (Dict.get pre x) as [p|] eqn:Ep; simpl; [|eauto].
      rewrite Ep. simpl.
      rewrite map_class_weights_same_size
        by (apply (Hall x); simpl; auto).
      simpl. rewrite set_same by assumption. eauto. }
    destruct Hstep as (acc1 & Hstep).
    destruct (IH acc1) as (acc' & Hloop).
    { intros name c p Hin. apply Hall. now right. }
    exists acc'. unfold bind. now rewrite Hstep.
Qed.

(** X9: with a checkpoint of the model's own taxonomy the adjustment does
    nothing.  When the denoising embedding has the same shape on both sides
    and so has every score-head parameter the two mappings share,
    [_adjust_head_parameters] returns the pretrained dictionary as it was
    given, nothing deleted, nothing replaced, nothing printed; the tuning
    load then matches against the checkpoint's own tensors. *)
Theorem adjust_head_parameters_same_taxonomy
  (cur pre : ParameterMapping) (out : list line) (tc tp : tensor) :
  Dict.get cur denoising_key = Some tc ->
  Dict.get pre denoising_key = Some tp ->
  size tp = size tc ->
  (forall name c p,
      In name head_param_names -> Dict.get cur name = Some c ->
      Dict.get pre name = Some p -> size p = size c) ->
  _adjust_head_parameters cur {| pretrain_obj := pre; stdout := out |}
  = (Ok pre, {| pretrain_obj := pre; stdout := out |})
  /\ adjust_and_match cur pre = (_matched_state cur pre, []).
Proof.
  intros Hc Hp Hsz Hall.
  assert (Hrun : forall out,
             _adjust_head_parameters cur {| pretrain_obj := pre; stdout := out |}
             = (Ok pre, {| pretrain_obj := pre; stdout := out |})).
  { intros o. rewrite (@adjust_head_parameters_keep cur pre o tc tp Hc Hp Hsz).
    destruct (@adjust_heads_same_shapes cur pre o head_param_names [] Hall)
      as (acc' & Hloop).
    unfold bind. now rewrite Hloop. }
  split; [apply Hrun|].
  unfold adjust_and_match. now rewrite Hrun.
Qed.

Lemma adjust_head_parameters_same_taxonomy_witness :
  _adjust_head_parameters sample_cur
    {| pretrain_obj := same_pretrain; stdout := [] |}
  = (Ok same_pretrain, {| pretrain_obj := same_pretrain; stdout := [] |}).
Proof.
  apply (@adjust_head_parameters_same_taxonomy sample_cur same_pretrain []
           (arange [82; 1] 100) (arange [82; 1] 500) eq_refl eq_refl eq_refl).
  intros name c p Hin Hc Hp. vm_compute in Hin.
  repeat (destruct Hin as [<- | Hin];
          [ vm_compute in Hc, Hp;
            first [ discriminate Hc
                  | injection Hc as <-; injection Hp as <-; reflexivity ]
          | ]).
  destruct Hin.
Defined.

(** ** The tuning load as a whole *)

Lemma adjust_and_match_of module pretrain :
  exists X, adjust_and_match module pretrain = (_matched_state module X, []).
Proof.
  unfold adjust_and_match.
  pose proof (adjust_head_parameters_stdout module (out := [])) as Hout.
  specialize (Hout {| pretrain_obj := pretrain; stdout := [] |} eq_refl).
  destruct (_adjust_head_parameters module
              {| pretrain_obj := pretrain; stdout := [] |}) as [[adj | e] s'];
    simpl in Hout; rewrite Hout; eauto.
Qed.

Lemma load_matched module X :
  Dict.wf module ->
  exists module',
    nn_load_state_dict module (fst (_matched_state module X)) false
    = (Ok tt, module')
    /\ Dict.keys module' = Dict.keys module
    /\ same_shapes module' module
    /\ (forall k,
          Dict.get module' k
          = match Dict.get (fst (_matched_state module X)) k with
            | Some p => Some p
            | None => Dict.get module k
            end).
Proof.
  intros Hwf.
  pose proof (nn_load_matched X Hwf) as Hok.
  pose proof (nn_load_state_dict_keys module (fst (_matched_state module X)) false) as Hk.
  pose proof (nn_load_state_dict_shapes module (fst (_matched_state module X)) false) as Hs.
  pose proof (nn_load_state_dict_get module (fst (_matched_state module X)) false) as Hg.
  destruct (nn_load_state_dict module (fst (_matched_state module X)) false)
    as [r module'].
  simpl in *. subst r. exists module'. repeat split; auto.
  intros k. rewrite Hg.
  destruct (Dict.get (fst (_matched_state module X)) k) as [p|] eqn:Ep.
  - apply matched_get in Ep as (t & Hin & _ & Hsz).
    rewrite (@in_get _ _ _ _ Hwf Hin). simpl.
    assert (size_eqb (size p) (size t) = true) as ->
        by (apply size_eqb_eq; congruence).
    reflexivity.
  - now destruct (Dict.get module k).
Qed.

(** X10: once a pretrained source is selected, [load_tuning_state] cannot
    fail and cannot reshape the model.  For a model with unique parameter
    names the call returns normally and prints its one report line; the model
    keeps its parameter names, in order, and every shape; and a parameter
    the report lists as missed or unmatched holds the tensor it held
    before. *)
Theorem tuning_load_keeps_structure
  (module pretrain : ParameterMapping) (state : Checkpoint) :
  Dict.wf module ->
  select_pretrain_state_dict state = Ok pretrain ->
  exists module' infos,
    load_tuning_state module state = (Ok tt, module', [Load_model infos])
    /\ Dict.keys module' = Dict.keys module
    /\ same_shapes module' module
    /\ (forall k, In k (missed infos) \/ In k (unmatched infos) ->
                  Dict.get module' k = Dict.get module k).
Proof.
  intros Hwf Hsel. unfold load_tuning_state. rewrite Hsel.
  destruct (adjust_and_match_of module pretrain) as (X & ->).
  destruct (load_matched X Hwf) as (module' & Hload & Hkeys & Hshapes & Hget).
  destruct (_matched_state module X) as [stat infos] eqn:Em. simpl in *.
  rewrite Hload. exists module', infos.
  split; [reflexivity|]. split; [exact Hkeys|]. split; [exact Hshapes|].
  intros k Hk. rewrite Hget.
  destruct (Dict.get stat k) as [p|] eqn:Ep; [|reflexivity].
  exfalso.
  assert (Hp : Dict.get (fst (_matched_state module X)) k = Some p)
    by now rewrite Em.
  apply matched_get in Hp as (t & Hin & HX & Hsz).
  destruct Hk as [Hk | Hk].
  - assert (Hm : In k (missed (snd (_matched_state module X))))
      by now rewrite Em.
    apply missed_in in Hm as [_ Hnone]. congruence.
  - assert (Hu : In k (unmatched (snd (_matched_state module X))))
      by now rewrite Em.
    apply unmatched_in in Hu as (t' & s' & Hin' & HX' & Hsz').
    pose proof (@in_get _ _ _ _ Hwf Hin).
    pose proof (@in_get _ _ _ _ Hwf Hin'). congruence.
Qed.

Lemma tuning_load_keeps_structure_witness :
  exists module' infos,
    load_tuning_state sample_cur partial_checkpoint
    = (Ok tt, module', [Load_model infos])
    /\ Dict.keys module' = Dict.keys sample_cur
    /\ same_shapes module' sample_cur.
Proof.
  destruct (@tuning_load_keeps_structure sample_cur partial_pretrain
              partial_checkpoint sample_cur_wf eq_refl)
    as (module' & infos & Hrun & Hkeys & Hshapes & _).
  exists module', infos. auto.
Defined.

(** X11: without the denoising embedding no head is remapped.  When the
    model or the selected checkpoint mapping lacks
    [decoder.denoising_class_embed.weight], the first line of
    [_adjust_head_parameters] raises [KeyError] and the tuning load is the
    plain load of what the matcher accepts from the checkpoint as it is: a
    score head whose shapes differ, remappable or not, is reported unmatched
    and keeps the tensor it had. *)
Theorem tuning_without_denoising_embedding
  (module pretrain : ParameterMapping) (state : Checkpoint) :
  Dict.wf module ->
  select_pretrain_state_dict state = Ok pretrain ->
  Dict.get pretrain denoising_key = None
  \/ Dict.get module denoising_key = None ->
  fst (_adjust_head_parameters module
         {| pretrain_obj := pretrain; stdout := [] |})
  = Raise (KeyError denoising_key)
  /\ exists module',
      load_tuning_state module state
      = (Ok tt, module', [Load_model (snd (_matched_state module pretrain))])
      /\ nn_load_state_dict module (fst (_matched_state module pretrain)) false
         = (Ok tt, module')
      /\ (forall k c p,
            Dict.get module k = Some c -> Dict.get pretrain k = Some p ->
            size c <> size p ->
            In k (unmatched (snd (_matched_state module pretrain)))
            /\ Dict.get module' k = Some c).
Proof.
  intros Hwf Hsel Hnone. split.
  - now rewrite adjust_head_parameters_key_error.
  - unfold load_tuning_state. rewrite Hsel.
    rewrite (fallback_after_key_error _ _ Hnone).
    destruct (load_matched pretrain Hwf) as (module' & Hload & _ & _ & Hget).
    destruct (_matched_state module pretrain) as [stat infos] eqn:Em.
    simpl in *. rewrite Hload. exists module'.
    split; [reflexivity|]. split; [reflexivity|].
    intros k c p Hc Hp Hsz.
    assert (Hu : In k (unmatched (snd (_matched_state module pretrain)))).
    { apply unmatched_in. exists c, p. split; [now apply get_in | auto]. }
    rewrite Em in Hu. simpl in Hu. split; [exact Hu|].
    rewrite Hget. destruct (Dict.get stat k) as [q|] eqn:Eq; [|exact Hc].
    exfalso.
    assert (Hq : Dict.get (fst (_matched_state module pretrain)) k = Some q)
      by now rewrite Em.
    apply matched_get in Hq as (t & Hin & HX & Hsz').
    pose proof (@in_get _ _ _ _ Hwf Hin). congruence.
Qed.

Lemma tuning_without_denoising_embedding_witness :
  exists module',
    load_tuning_state plain_cur plain_checkpoint
    = (Ok tt, module', [Load_model (snd (_matched_state plain_cur plain_pretrain))])
    /\ In enc_weight (unmatched (snd (_matched_state plain_cur plain_pretrain)))
    /\ Dict.get module' enc_weight = Some (arange [81; 1] 1000).
Proof.
  assert (Hwf : Dict.wf plain_cur).
  { unfold Dict.wf, plain_cur. simpl.
    repeat constructor; simpl; intuition discriminate. }
  destruct (@tuning_without_denoising_embedding plain_cur plain_pretrain
              plain_checkpoint Hwf eq_refl (or_introl eq_refl))
    as (_ & module' & Hrun & _ & Hheads).
  exists module'. split; [exact Hrun|].
  apply (Hheads enc_weight (arange [81; 1] 1000) (arange [366; 1] 0));
    try reflexivity.
  simpl. discriminate.
Defined.

(** ** What [load_state_dict] leaves alone *)

(** One pass of the loop, whatever its outcome: it can only write to the
    attribute it is at, and only when that attribute can be restored; the
    lines it prints name that attribute; the EMA is passed over in silence
    when the checkpoint has no entry for it and there is no model. *)
Lemma load_component_effect state k s :
  (forall k', k' <> k ->
      Dict.get (attrs (snd (load_component state k s))) k'
      = Dict.get (attrs s) k')
  /\ (has_load_state_dict (attr_of s k) = false ->
      load_component state k s = (Ok tt, s))
  /\ (exists ls,
        printed (snd (load_component state k s)) = printed s ++ ls
        /\ forall l, In l ls ->
                     l = Load_component k \/ l = Load_from_model k
                     \/ l = Not_load k)
  /\ (has_load_state_dict (attr_of s k) = true ->
      Dict.get state k = None ->
      Dict.get (attrs s) "model" = None
      \/ Dict.get (attrs s) "model" = Some PyNone ->
      k = "ema"%string ->
      load_component state k s = (Ok tt, s)).
Proof.
  split; [|split; [|split]].
  - intros k' Hk'. unfold_component.
    destruct (has_load_state_dict (attr_of s k)); simpl; [|reflexivity].
    destruct (Dict.get state k) as [b|]; simpl.
    + destruct (component_load_state_dict (attr_of s k) b) as [[u|e] v'];
        simpl; now rewrite get_set_other by auto.
    + destruct (String.eqb k "ema"); [|reflexivity].
      destruct (Dict.get (attrs s) "model") as [[| | | par own | m | st]|];
        simpl; try reflexivity;
        try (destruct par; simpl);
        match goal with
        | |- context [component_load_state_dict ?v ?b] =>
            destruct (component_load_state_dict v b) as [[u|e] v']; simpl;
            now rewrite get_set_other by auto
        | _ => reflexivity
        end.
  - intros Hv. now apply load_component_skip.
  - unfold_component.
    destruct (has_load_state_dict (attr_of s k)); simpl;
      [|exists []; split; [now rewrite app_nil_r | intros l []]].
    destruct (Dict.get state k) as [b|]; simpl.
    + destruct (component_load_state_dict (attr_of s k) b) as [[u|e] v']; simpl.
      * exists [Load_component k]. split; [reflexivity|].
        intros l [<- | []]. auto.
      * exists []. split; [now rewrite app_nil_r | intros l []].
    + destruct (String.eqb k "ema");
        [|exists [Not_load k]; split; [reflexivity|];
          intros l [<- | []]; auto].
      destruct (Dict.get (attrs s) "model") as [[| | | par own | m | st]|];
        simpl;
        try (exists []; split; [now rewrite app_nil_r | intros l []]);
        try (destruct par; simpl);
        match goal with
        | |- context [component_load_state_dict ?v ?b] =>
            destruct (component_load_state_dict v b) as [[u|e] v']; simpl
        end;
        first [ exists [Load_from_model k]; split; [reflexivity|];
                intros l [<- | []]; now auto
              | exists []; split; [now rewrite app_nil_r | intros l []] ].
  - intros Hv Hb Hmodel ->. unfold_component. rewrite Hv, Hb. simpl.
    destruct Hmodel as [-> | ->]; reflexivity.
Qed.

(** A property of the solver that the first lines establish and every pass
    of the loop keeps holds when [load_state_dict] is left, by return or by
    exception. *)
Lemma load_state_dict_inv (P : solver -> Prop) state s :
  P (after_last_epoch state s) ->
  (forall k, inv P (load_component state k)) ->
  P (snd (load_state_dict state s)).
Proof.
  intros H0 Hstep. rewrite load_state_dict_unfold.
  apply (@inv_for_eachM solver string unit P
           (fun _ k => load_component state k)
           (Dict.keys (attrs (after_last_epoch state s))));
    [|exact H0].
  intros l x _. apply Hstep.
Qed.

Lemma after_last_epoch_get state s k :
  k <> "last_epoch"%string ->
  Dict.get (attrs (after_last_epoch state s)) k = Dict.get (attrs s) k.
Proof.
  intros Hk. unfold after_last_epoch.
  destruct (Dict.get state "last_epoch"); [|reflexivity].
  simpl. apply get_set_other. congruence.
Qed.

Lemma after_last_epoch_printed state s :
  exists ls,
    printed (after_last_epoch state s) = printed s ++ ls
    /\ forall l, In l ls -> l = Load_last_epoch.
Proof.
  unfold after_last_epoch. destruct (Dict.get state "last_epoch").
  - exists [Load_last_epoch]. split; [reflexivity|]. now intros l [<- | []].
  - exists []. split; [now rewrite app_nil_r | intros l []].
Qed.

(** X12: [load_state_dict] writes to nothing but components and
    [last_epoch]: for every checkpoint and every solver, an attribute other
    than [last_epoch] that has no [load_state_dict] (the configuration, the
    device, a data loader, a [None]) holds after the call what it held
    before, also when the call is left by an exception raised by some
    component's restore; an attribute the solver does not have is not
    created; and what had been printed before the call is still there, the
    call only adds lines after it. *)
Theorem load_state_dict_frame state s k :
  k <> "last_epoch"%string ->
  has_load_state_dict (attr_of s k) = false ->
  Dict.get (attrs (snd (load_state_dict state s))) k = Dict.get (attrs s) k
  /\ exists ls, printed (snd (load_state_dict state s)) = printed s ++ ls.
Proof.
  intros Hk Hv.
  apply (@load_state_dict_inv
           (fun s' => Dict.get (attrs s') k = Dict.get (attrs s) k
                      /\ exists ls, printed s' = printed s ++ ls)).
  - split; [now apply after_last_epoch_get|].
    destruct (after_last_epoch_printed state s) as (ls & Hls & _). eauto.
  - intros x s1 [Hget [ls Hls]].
    destruct (load_component_effect state x s1) as (Hother & Hskip & Hout & _).
    destruct Hout as (ls1 & Hls1 & _). split.
    + destruct (string_dec k x) as [<- | Hne].
      * rewrite Hskip; [exact Hget|]. unfold attr_of in *. now rewrite Hget.
      * now rewrite Hother.
    + exists (ls ++ ls1). now rewrite Hls1, Hls, app_assoc.
Qed.

Lemma load_state_dict_frame_witness :
  Dict.get
    (attrs (snd (load_state_dict resume_checkpoint sample_solver))) "cfg"
  = Dict.get (attrs sample_solver) "cfg"
  /\ exists ls,
      printed (snd (load_state_dict resume_checkpoint sample_solver))
      = printed sample_solver ++ ls.
Proof.
  apply (@load_state_dict_frame resume_checkpoint sample_solver "cfg").
  - discriminate.
  - reflexivity.
Defined.

(** X13: The EMA is passed over in silence when there is nothing to restore
    it from: for every checkpoint without an [ema] entry and every solver
    whose [model] attribute is missing or [None], the [ema] attribute holds
    after [load_state_dict] what it held before, the [model] attribute is
    still missing or [None], and no line of the output added by the call
    names the EMA: neither a load, nor a load from the model, nor the
    [Not load] line that any other component without an entry gets. *)
Theorem ema_without_model_is_skipped state s :
  Dict.get state "ema" = None ->
  Dict.get (attrs s) "model" = None
  \/ Dict.get (attrs s) "model" = Some PyNone ->
  let s' := snd (load_state_dict state s) in
  Dict.get (attrs s') "ema" = Dict.get (attrs s) "ema"
  /\ Dict.get (attrs s') "model" = Dict.get (attrs s) "model"
  /\ exists ls,
      printed s' = printed s ++ ls
      /\ forall l, In l ls ->
                   l <> Load_component "ema" /\ l <> Load_from_model "ema"
                   /\ l <> Not_load "ema".
Proof.
  intros Hstate Hmodel s'. subst s'.
  apply (@load_state_dict_inv
           (fun s' =>
              Dict.get (attrs s') "ema" = Dict.get (attrs s) "ema"
              /\ Dict.get (attrs s') "model" = Dict.get (attrs s) "model"
              /\ exists ls,
                  printed s' = printed s ++ ls
                  /\ forall l, In l ls ->
                               l <> Load_component "ema"
                               /\ l <> Load_from_model "ema"
                               /\ l <> Not_load "ema")).
  - split; [|split].
    + apply after_last_epoch_get. discriminate.
    + apply after_last_epoch_get. discriminate.
    + destruct (after_last_epoch_printed state s) as (ls & Hls & Hall).
      exists ls. split; [exact Hls|].
      intros l Hl. rewrite (Hall l Hl). repeat split; discriminate.
  - intros x s1 (Hema & Hmod & ls & Hls & Hall).
    destruct (load_component_effect state x s1)
      as (Hother & Hskip & Hout & Hsilent).
    assert (Hmodel1 : Dict.get (attrs s1) "model" = None
                      \/ Dict.get (attrs s1) "model" = Some PyNone)
      by now rewrite Hmod.
    destruct (string_dec x "ema") as [-> | Hx].
    + assert (Hsame : load_component state "ema" s1 = (Ok tt, s1)).
      { destruct (has_load_state_dict (attr_of s1 "ema")) eqn:Hv.
        - now apply Hsilent.
        - now apply Hskip. }
      rewrite Hsame. simpl. eauto 6.
    + split; [|split].
      * rewrite Hother; [exact Hema | congruence].
      * destruct (string_dec x "model") as [-> | Hx'].
        -- rewrite Hskip; [exact Hmod|]. unfold attr_of.
           now destruct Hmodel1 as [-> | ->].
        -- rewrite Hother; [exact Hmod | congruence].
      * destruct Hout as (ls1 & Hls1 & Hall1).
        exists (ls ++ ls1). split; [now rewrite Hls1, Hls, app_assoc|].
        intros l Hl. apply in_app_or in Hl. destruct Hl as [Hl | Hl];
          [now apply Hall|].
        destruct (Hall1 l Hl) as [-> | [-> | ->]];
          repeat split; congruence.
Qed.

Lemma ema_without_model_is_skipped_witness :
  let s' := snd (load_state_dict resume_checkpoint modelless_solver) in
  Dict.get (attrs s') "ema" = Dict.get (attrs modelless_solver) "ema"
  /\ Dict.get (attrs s') "model" = Dict.get (attrs modelless_solver) "model"
  /\ exists ls,
      printed s' = printed modelless_solver ++ ls
      /\ forall l, In l ls ->
                   l <> Load_component "ema" /\ l <> Load_from_model "ema"
                   /\ l <> Not_load "ema".
Proof.
  apply (@ema_without_model_is_skipped resume_checkpoint modelless_solver).
  - reflexivity.
  - right. reflexivity.
Defined.

(** ** A checkpoint with an entry for the EMA *)

(** The pass over any attribute, the EMA too, when the model is not needed
    to restore it. *)
Lemma load_component_step_entry state x s :
  (x = "ema"%string ->
   Dict.mem state "ema" = true
   \/ has_load_state_dict (attr_of s "ema") = false) ->
  (forall b, has_load_state_dict (attr_of s x) = true ->
             Dict.get state x = Some b ->
             fst (component_load_state_dict (attr_of s x) b) = Ok tt) ->
  exists s1,
    load_component state x s = (Ok tt, s1)
    /\ (forall k, k <> x -> attr_of s1 k = attr_of s k)
    /\ attr_of s1 x = restored state x (attr_of s x)
    /\ printed s1 = printed s ++ report state x (attr_of s x)
    /\ Dict.keys (attrs s1) = Dict.keys (attrs s).
Proof.
  intros Hema Hok. destruct (string_dec x "ema") as [-> | Hx];
    [|now apply load_component_step].
  unfold restored, report.
  destruct (has_load_state_dict (attr_of s "ema")) eqn:Hv.
  - destruct (Hema eq_refl) as [Hmem | Hno]; [|discriminate].
    rewrite Hmem. apply mem_get in Hmem. destruct Hmem as [b Hb]. rewrite Hb.
    rewrite (@load_component_restore state "ema" s b Hv Hb
               (Hok b eq_refl Hb)).
    eexists. split; [reflexivity|]. simpl. repeat split.
    + intros k Hk. now rewrite attr_of_set_other by auto.
    + apply attr_of_set_same.
    + apply keys_set_present. now apply has_load_mem.
  - rewrite (@load_component_skip state "ema" s Hv).
    exists s. rewrite app_nil_r. repeat split.
Qed.

Lemma run_components_entry state names : forall s,
  NoDup names ->
  Dict.mem state "ema" = true
  \/ has_load_state_dict (attr_of s "ema") = false ->
  (forall k b,
      In k names -> has_load_state_dict (attr_of s k) = true ->
      Dict.get state k = Some b ->
      fst (component_load_state_dict (attr_of s k) b) = Ok tt) ->
  exists s',
    for_eachM names (fun _ k => load_component state k) tt s = (Ok tt, s')
    /\ (forall k, ~ In k names -> attr_of s' k = attr_of s k)
    /\ (forall k, In k names -> attr_of s' k = restored state k (attr_of s k))
    /\ printed s'
       = printed s ++ flat_map (fun k => report state k (attr_of s k)) names
    /\ Dict.keys (attrs s') = Dict.keys (attrs s).
Proof.
  induction names as [|x names IH]; intros s Hnd Hema Hok.
  - exists s. simpl. unfold ret. rewrite app_nil_r. repeat split. tauto.
  - inversion Hnd as [|? ? Hnotin Hnd']; subst.
    destruct (@load_component_step_entry state x s)
      as (s1 & Hrun & Hother & Hself & Hout & Hkeys).
    { intros _. exact Hema. }
    { intros b. apply Hok. now left. }
    destruct (IH s1 Hnd') as (s' & Hloop & Hframe & Hdone & Hout' & Hkeys').
    { destruct Hema as [Hmem | Hno]; [now left|].
      destruct (string_dec "ema" x) as [<- | Hne].
      - right. rewrite Hself. unfold restored. now rewrite Hno.
      - right. now rewrite Hother. }
    { intros k b Hin. rewrite Hother by (intros ->; contradiction).
      apply Hok. now right. }
    exists s'. simpl. unfold bind at 1. rewrite Hrun.
    split; [exact Hloop|]. split; [|split; [|split]].
    + intros k Hk. simpl in Hk. rewrite Hframe by tauto.
      apply Hother. intros ->. tauto.
    + intros k [<- | Hin].
      * rewrite Hframe by assumption. exact Hself.
      * rewrite Hdone by assumption.
        now rewrite Hother by (intros ->; contradiction).
    + rewrite Hout', Hout, <- app_assoc. f_equal. simpl. f_equal.
      apply flat_map_pointwise.
      intros k Hin. now rewrite Hother by (intros ->; contradiction).
    + congruence.
Qed.

Lemma after_last_epoch_wf state s :
  Dict.wf (attrs s) -> Dict.wf (attrs (after_last_epoch state s)).
Proof.
  intros H. unfold after_last_epoch.
  destruct (Dict.get state "last_epoch"); [|exact H]. simpl. now apply wf_set.
Qed.

(** X14: Resuming from a checkpoint that does not need the model to stand
    in for the EMA (it has an [ema] entry, or the solver has no EMA to
    restore) is the restore of each attribute on its own, in the order of
    the attributes: for every solver with unique attribute names, if every
    component with an entry restores from it without error, then
    [load_state_dict] returns; [last_epoch] is the checkpoint's when the
    checkpoint has one; every other attribute is what its own restore from
    its own entry makes of it, or what it was when it has no entry or
    cannot be restored, so that no restore sees the effect of another; and
    the output is, after the line for [last_epoch], one line for each
    attribute that can be restored, in attribute order: [Load k.state_dict]
    with an entry and [Not load k.state_dict] without, never the line of
    the load from the model.  The attribute names are those the solver had
    once [last_epoch] was set. *)
Theorem resume_restores_in_order state s :
  Dict.wf (attrs s) ->
  restores_ok state (attrs s) ->
  Dict.mem state "ema" = true
  \/ has_load_state_dict (attr_of s "ema") = false ->
  let s0 := after_last_epoch state s in
  exists s',
    load_state_dict state s = (Ok tt, s')
    /\ (forall b, Dict.get state "last_epoch" = Some b ->
                  attr_of s' "last_epoch" = Value b)
    /\ (forall k, k <> "last_epoch"%string ->
                  attr_of s' k = restored state k (attr_of s k))
    /\ printed s'
       = printed s0
           ++ flat_map (fun k => report state k (attr_of s0 k))
                (Dict.keys (attrs s0))
    /\ ~ In (Load_from_model "ema") (flat_map (fun k => report state k (attr_of s0 k))
                (Dict.keys (attrs s0)))
    /\ Dict.keys (attrs s') = Dict.keys (attrs s0).
Proof.
  intros Hwf Hok Hema s0.
  assert (Hsame : forall k, k <> "last_epoch"%string ->
                            attr_of s0 k = attr_of s k)
    by (intros k Hk; now apply after_last_epoch_other).
  assert (Hcomp : forall k b,
             has_load_state_dict (attr_of s0 k) = true ->
             Dict.get state k = Some b ->
             fst (component_load_state_dict (attr_of s0 k) b) = Ok tt).
  { intros k b Hv Hb. destruct (string_dec k "last_epoch") as [-> | Hk].
    - unfold s0, after_last_epoch in Hv. rewrite Hb in Hv.
      rewrite attr_of_set_same in Hv. discriminate.
    - rewrite Hsame in * by assumption.
      apply (Hok k); [now apply attr_of_get | assumption | assumption]. }
  destruct (@run_components_entry state (Dict.keys (attrs s0)) s0)
    as (s' & Hrun & Hframe & Hdone & Hout & Hkeys).
  { now apply after_last_epoch_wf. }
  { now rewrite Hsame by discriminate. }
  { intros k b _. apply Hcomp. }
  assert (Hall : forall k, attr_of s' k = restored state k (attr_of s0 k)).
  { intros k. destruct (in_dec string_dec k (Dict.keys (attrs s0))) as [Hin | Hout'].
    - now apply Hdone.
    - rewrite Hframe by assumption.
      assert (Hnone : Dict.get (attrs s0) k = None).
      { destruct (Dict.get (attrs s0) k) eqn:E; [|reflexivity].
        exfalso. apply Hout'. apply mem_true. unfold Dict.mem. now rewrite E. }
      unfold attr_of. rewrite Hnone. reflexivity. }
  exists s'. split; [now rewrite load_state_dict_unfold|].
  split; [|split; [|split; [|split]]].
  - intros b Hb. rewrite Hall. unfold s0, after_last_epoch. rewrite Hb.
    now rewrite attr_of_set_same.
  - intros k Hk. now rewrite Hall, Hsame.
  - exact Hout.
  - intros Hin. apply in_flat_map in Hin. destruct Hin as (k & _ & Hin).
    unfold report in Hin.
    destruct (has_load_state_dict (attr_of s0 k)); [|destruct Hin].
    destruct (Dict.mem state k); destruct Hin as [Hin | []]; discriminate.
  - exact Hkeys.
Qed.

Lemma full_checkpoint_restores :
  restores_ok full_checkpoint (attrs sample_solver).
Proof.
  intros k v b Hv Hload Hb. cbv [sample_solver attrs Dict.get] in Hv.
  repeat match type of Hv with
         | context [String.eqb ?a k] =>
             destruct (String.eqb_spec a k) as [<- | ?]
         end;
    try discriminate Hv; injection Hv as <-;
    try discriminate Hload;
    vm_compute in Hb; try discriminate Hb; injection Hb as <-;
    vm_compute; reflexivity.
Qed.

Lemma resume_restores_in_order_witness :
  exists s',
    load_state_dict full_checkpoint sample_solver = (Ok tt, s')
    /\ attr_of s' "last_epoch" = Value (BInt 71)
    /\ attr_of s' "optimizer" = Stateful (BInt 9)
    /\ attr_of s' "ema"
       = ModelEMA [("backbone.weight"%string, arange [2; 2] 50)]
    /\ printed s'
       = [ Load_last_epoch; Load_component "model"; Load_component "ema";
           Load_component "optimizer" ].
Proof.
  destruct (@resume_restores_in_order full_checkpoint sample_solver
              sample_solver_wf full_checkpoint_restores
              (or_introl eq_refl))
    as (s' & Hrun & Hepoch & Hrest & Hout & _ & _).
  exists s'. split; [exact Hrun|].
  split; [exact (Hepoch (BInt 71) eq_refl)|].
  split; [rewrite Hrest by discriminate; reflexivity|].
  split; [rewrite Hrest by discriminate; reflexivity|].
  rewrite Hout. reflexivity.
Defined.

(** ** Capture *)

Section CaptureFacts.
Variable has_state_dict : attr -> bool.
Variable component_state_dict : attr -> result blob.

(** The loop of [state_dict] over items with unique names, all of whose
    captures return. *)
Lemma capture_loop (items : Dict.dict attr) : forall acc,
  Dict.wf items ->
  (forall k v, In (k, v) items -> has_state_dict v = true ->
               exists b, component_state_dict (de_parallel v) = Ok b) ->
  exists state,
    for_each items (capture_item has_state_dict component_state_dict) acc
    = Ok state
    /\ (forall k,
          Dict.get state k
          = match Dict.get items k with
            | Some v =>
                if has_state_dict v then
                  match component_state_dict (de_parallel v) with
                  | Ok b => Some (Snapshot b)
                  | Raise _ => None
                  end
                else Dict.get acc k
            | None => Dict.get acc k
            end)
    /\ Dict.keys state
       = Dict.keys acc
           ++ filter (fun k => negb (Dict.mem acc k))
                (Dict.keys (filter (fun kv => has_state_dict (snd kv)) items))
    /\ (Dict.wf acc -> Dict.wf state).
Proof.
  induction items as [|[k0 v0] rest IH]; intros acc Hwf Hok.
  - exists acc. simpl. rewrite app_nil_r. auto.
  - unfold Dict.wf in Hwf. simpl in Hwf.
    inversion Hwf as [|? ? Hnotin Hnd]; subst.
    assert (Hrest0 : Dict.get rest k0 = None) by now apply get_none.
    assert (Hok' : forall k v, In (k, v) rest -> has_state_dict v = true ->
                     exists b, component_state_dict (de_parallel v) = Ok b).
    { intros k v Hin. apply (Hok k v). now right. }
    simpl. destruct (has_state_dict v0) eqn:Hv.
    + destruct (Hok k0 v0 (or_introl eq_refl) Hv) as [b0 Hb0].
      rewrite Hb0. simpl.
      destruct (IH (Dict.set acc k0 (Snapshot b0)) Hnd Hok')
        as (state & Hrun & Hget & Hkeys & Hwf').
      exists state. split; [exact Hrun|]. split; [|split].
      * intros k. rewrite Hget. cbn [Dict.get].
        destruct (String.eqb_spec k0 k) as [<- | Hne].
        -- now rewrite Hrest0, get_set_same, Hv, Hb0.
        -- now rewrite get_set_other.
      * rewrite Hkeys.
        rewrite (@filter_ext_in _
                   (fun k => negb (Dict.mem (Dict.set acc k0 (Snapshot b0)) k))
                   (fun k => negb (Dict.mem acc k))).
        -- destruct (Dict.mem acc k0) eqn:Hmem; simpl.
           ++ now rewrite keys_set_present.
           ++ rewrite keys_set_absent by assumption.
              now rewrite <- app_assoc.
        -- intros k Hin. unfold Dict.mem. rewrite get_set_other; [reflexivity|].
           intros ->. apply Hnotin. unfold Dict.keys in Hin.
           apply in_map_iff in Hin. destruct Hin as (kv & <- & Hin).
           apply filter_In in Hin. apply in_map. tauto.
      * intros Hacc. apply Hwf'. now apply wf_set.
    + simpl. destruct (IH acc Hnd Hok') as (state & Hrun & Hget & Hkeys & Hwf').
      exists state. split; [exact Hrun|]. split; [|split].
      * intros k. rewrite Hget. cbn [Dict.get].
        destruct (String.eqb_spec k0 k) as [<- | Hne]; [|reflexivity].
        now rewrite Hrest0, Hv.
      * exact Hkeys.
      * exact Hwf'.
Qed.

End CaptureFacts.

(** X15: What [state_dict] captures: for every solver with unique
    attribute names that has a [last_epoch], when the capture of each of
    its components returns, [state_dict] returns a mapping with unique keys
    whose keys are [date], [last_epoch] and then, in attribute order, the
    names of the attributes that have a [state_dict]; each such attribute
    is there with the state captured from it once unwrapped, also when it
    is named [date] or [last_epoch], whose entry it then replaces in place;
    an attribute without [state_dict] has no entry, and when no component
    bears their names [date] is the time of the call and [last_epoch] the
    object the solver holds. *)
Theorem state_dict_entries
  (has_state_dict : attr -> bool) (component_state_dict : attr -> result blob)
  (now : string) (s : solver) (v0 : attr) :
  Dict.wf (attrs s) ->
  Dict.get (attrs s) "last_epoch" = Some v0 ->
  (forall k v, Dict.get (attrs s) k = Some v -> has_state_dict v = true ->
               exists b, component_state_dict (de_parallel v) = Ok b) ->
  exists state,
    state_dict has_state_dict component_state_dict now s = Ok state
    /\ Dict.wf state
    /\ Dict.keys state
       = "date"%string :: "last_epoch"%string
           :: filter (fun k => negb (String.eqb k "date")
                               && negb (String.eqb k "last_epoch"))
                (Dict.keys (filter (fun kv => has_state_dict (snd kv))
                              (attrs s)))
    /\ (forall k v,
          Dict.get (attrs s) k = Some v -> has_state_dict v = true ->
          exists b,
            component_state_dict (de_parallel v) = Ok b
            /\ Dict.get state k = Some (Snapshot b))
    /\ (forall k,
          (forall v, Dict.get (attrs s) k = Some v ->
                     has_state_dict v = false) ->
          Dict.get state k
          = if String.eqb k "date" then Some (Date now)
            else if String.eqb k "last_epoch" then Some (Held v0)
                 else None).
Proof.
  intros Hwf Hle Hok. unfold state_dict. rewrite Hle. simpl.
  destruct (@capture_loop has_state_dict component_state_dict (attrs s)
              [("date"%string, Date now); ("last_epoch"%string, Held v0)] Hwf)
    as (state & Hrun & Hget & Hkeys & Hwf').
  { intros k v Hin. apply (Hok k v). now apply in_get. }
  exists state. split; [exact Hrun|]. split; [|split; [|split]].
  - apply Hwf'. unfold Dict.wf. simpl.
    repeat constructor; simpl; intuition discriminate.
  - rewrite Hkeys. cbn [Dict.keys map fst app]. do 2 f_equal.
    apply filter_ext. intros k. unfold Dict.mem. cbn [Dict.get].
    rewrite (String.eqb_sym "date" k), (String.eqb_sym "last_epoch" k).
    destruct (String.eqb k "date"); [reflexivity|].
    now destruct (String.eqb k "last_epoch").
  - intros k v Hk Hv. destruct (Hok k v Hk Hv) as [b Hb].
    exists b. split; [exact Hb|]. now rewrite Hget, Hk, Hv, Hb.
  - intros k Hno. rewrite Hget.
    assert (Hacc : Dict.get [("date"%string, Date now);
                             ("last_epoch"%string, Held v0)] k
                   = if String.eqb k "date" then Some (Date now)
                     else if String.eqb k "last_epoch" then Some (Held v0)
                          else None).
    { cbn [Dict.get].
      rewrite (String.eqb_sym "date" k), (String.eqb_sym "last_epoch" k).
      reflexivity. }
    destruct (Dict.get (attrs s) k) as [v|] eqn:Hk; [|exact Hacc].
    now rewrite (Hno v eq_refl).
Qed.

Lemma state_dict_entries_witness :
  exists state,
    state_dict has_load_state_dict torch_state_dict "2024-05-01T10:00:00"
      sample_solver = Ok state
    /\ Dict.keys state
       = ["date"; "last_epoch"; "model"; "ema"; "optimizer"]%string
    /\ Dict.get state "model"
       = Some (Snapshot (BParams [("backbone.weight"%string, arange [2; 2] 0)]))
    /\ Dict.get state "last_epoch" = Some (Held (Value (BInt (-1))))
    /\ Dict.get state "cfg" = None.
Proof.
  destruct (@state_dict_entries has_load_state_dict torch_state_dict
              "2024-05-01T10:00:00" sample_solver (Value (BInt (-1)))
              sample_solver_wf eq_refl)
    as (state & Hrun & _ & Hkeys & Hcomp & Hplain).
  - intros k v _ Hv. destruct v; try discriminate Hv; simpl; eauto.
  - exists state. split; [exact Hrun|]. split; [exact Hkeys|].
    split; [|split].
    + destruct (Hcomp "model"%string
                  (NnModule true [("backbone.weight"%string, arange [2; 2] 0)])
                  eq_refl eq_refl) as (b & Hb & Hget).
      simpl in Hb. injection Hb as <-. exact Hget.
    + rewrite (Hplain "last_epoch"%string); [reflexivity|].
      intros v Hv. simpl in Hv. now injection Hv as <-.
    + rewrite (Hplain "cfg"%string); [reflexivity|].
      intros v Hv. simpl in Hv. now injection Hv as <-.
Defined.

(** ** Capture, then resume *)

Lemma saved_get state : forall ck,
  saved state = Some ck ->
  forall k, Dict.get ck k
            = match Dict.get state k with
              | Some c => as_blob c
              | None => None
              end.
Proof.
  induction state as [|[k0 c0] rest IH]; intros ck Hck k; simpl in Hck.
  - injection Hck as <-. reflexivity.
  - destruct (as_blob c0) as [b0|] eqn:Hb0; [|discriminate].
    destruct (saved rest) as [rest'|]; [|discriminate].
    injection Hck as <-. cbn [Dict.get].
    destruct (String.eqb k0 k); [now rewrite Hb0 | now apply IH].
Qed.

Lemma saved_total state :
  (forall k c, In (k, c) state -> as_blob c <> None) ->
  exists ck, saved state = Some ck.
Proof.
  induction state as [|[k0 c0] rest IH]; intros H; simpl; [eauto|].
  destruct (as_blob c0) as [b0|] eqn:Hb0.
  - destruct IH as [rest' ->]; [|eauto].
    intros k c Hin. apply (H k c). now right.
  - exfalso. apply (H k0 c0); [now left | exact Hb0].
Qed.

(** The pass over an attribute that its entry restores to what it is. *)
Lemma load_component_fixed ck k s :
  (has_load_state_dict (attr_of s k) = true ->
   exists c,
     Dict.get ck k = Some c
     /\ component_load_state_dict (attr_of s k) c = (Ok tt, attr_of s k)) ->
  load_component ck k s
  = (Ok tt,
     {| attrs := attrs s;
        printed := printed s
                     ++ (if has_load_state_dict (attr_of s k)
                         then [Load_component k] else []) |}).
Proof.
  intros H. destruct (has_load_state_dict (attr_of s k)) eqn:Hv.
  - destruct (H eq_refl) as (c & Hc & Hload).
    rewrite (@load_component_restore ck k s c Hv Hc);
      [|now rewrite Hload].
    rewrite Hload. cbn [snd]. rewrite set_same; [reflexivity|].
    now apply attr_of_get.
  - rewrite (@load_component_skip ck k s Hv), app_nil_r. now destruct s.
Qed.

Lemma load_loop_fixed ck names : forall s,
  (forall k, In k names -> has_load_state_dict (attr_of s k) = true ->
             exists c,
               Dict.get ck k = Some c
               /\ component_load_state_dict (attr_of s k) c
                  = (Ok tt, attr_of s k)) ->
  for_eachM names (fun _ k => load_component ck k) tt s
  = (Ok tt,
     {| attrs := attrs s;
        printed := printed s
                     ++ map Load_component
                          (filter (fun k => has_load_state_dict (attr_of s k))
                             names) |}).
Proof.
  induction names as [|x names IH]; intros s H; simpl.
  - unfold ret. rewrite app_nil_r. now destruct s.
  - unfold bind at 1. rewrite load_component_fixed by (apply H; now left).
    rewrite IH.
    + cbn [attrs printed]. unfold attr_of at 2 4. cbn [attrs].
      fold (attr_of s x). f_equal. f_equal. rewrite <- app_assoc. f_equal.
      destruct (has_load_state_dict (attr_of s x)); reflexivity.
    + intros k Hin. unfold attr_of. cbn [attrs]. apply H. now right.
Qed.

(** X16: A checkpoint captured from a solver resumes onto it: for every
    solver with unique attribute names whose [last_epoch] is plain data,
    where the attributes that have a [state_dict] are those that have a
    [load_state_dict] and each of them is restored to what it is by the
    state captured from it, [state_dict] returns, what it returns can be
    written out as a checkpoint, and [load_resume_state] on a path that
    reads as this checkpoint, whether fetched from a URL or read from a
    file, returns with every attribute of the solver as it was; it prints
    [Load last_epoch] and then [Load k.state_dict] for each component in
    attribute order: no component is reported as not loaded, and the EMA is
    restored from its own entry, not from the model. *)
Theorem capture_resume_round_trip
  (has_state_dict : attr -> bool) (component_state_dict : attr -> result blob)
  (now : string) (s : solver) (b : blob) :
  Dict.wf (attrs s) ->
  Dict.get (attrs s) "last_epoch" = Some (Value b) ->
  (forall k v, Dict.get (attrs s) k = Some v ->
               has_state_dict v = has_load_state_dict v) ->
  (forall k v, Dict.get (attrs s) k = Some v -> has_state_dict v = true ->
               exists c,
                 component_state_dict (de_parallel v) = Ok c
                 /\ component_load_state_dict v c = (Ok tt, v)) ->
  exists state ck,
    state_dict has_state_dict component_state_dict now s = Ok state
    /\ saved state = Some ck
    /\ forall load_state_dict_from_url torch_load path,
        (if prefix "http" path
         then load_state_dict_from_url path
         else torch_load path) = Ok ck ->
        load_resume_state load_state_dict_from_url torch_load path s
        = (Ok tt,
           {| attrs := attrs s;
              printed :=
                printed s
                  ++ Load_last_epoch
                  :: map Load_component
                       (filter (fun k => has_load_state_dict (attr_of s k))
                          (Dict.keys (attrs s))) |}).
Proof.
  intros Hwf Hle Hsame Hfix. unfold state_dict. rewrite Hle. simpl.
  destruct (@capture_loop has_state_dict component_state_dict (attrs s)
              [("date"%string, Date now);
               ("last_epoch"%string, Held (Value b))] Hwf)
    as (state & Hrun & Hget & _ & Hwf').
  { intros k v Hin Hv.
    destruct (Hfix k v (@in_get _ _ _ _ Hwf Hin) Hv) as (c & Hc & _). eauto. }
  assert (Hstate : Dict.wf state).
  { apply Hwf'. unfold Dict.wf. simpl.
    repeat constructor; simpl; intuition discriminate. }
  destruct (@saved_total state) as [ck Hck].
  { intros k c Hin. pose proof (@in_get _ _ _ _ Hstate Hin) as Hk.
    rewrite Hget in Hk.
    assert (Hacc : Dict.get [("date"%string, Date now);
                             ("last_epoch"%string, Held (Value b))] k
                   = Some c -> as_blob c <> None).
    { cbn [Dict.get]. destruct (String.eqb "date" k).
      - intros E. injection E as <-. discriminate.
      - destruct (String.eqb "last_epoch" k); [|discriminate].
        intros E. injection E as <-. discriminate. }
    destruct (Dict.get (attrs s) k) as [v|]; [|now apply Hacc].
    destruct (has_state_dict v); [|now apply Hacc].
    destruct (component_state_dict (de_parallel v)); [|discriminate].
    injection Hk as <-. discriminate. }
  exists state, ck. split; [exact Hrun|]. split; [exact Hck|].
  intros load_state_dict_from_url torch_load path Hread.
  unfold load_resume_state, bind, lift. rewrite Hread.
  rewrite load_state_dict_unfold.
  assert (Hepoch : Dict.get ck "last_epoch" = Some b).
  { rewrite (@saved_get _ _ Hck), Hget, Hle.
    rewrite (Hsame _ _ Hle). reflexivity. }
  assert (Hs0 : after_last_epoch ck s
                = {| attrs := attrs s;
                     printed := printed s ++ [Load_last_epoch] |}).
  { unfold after_last_epoch. rewrite Hepoch. now rewrite set_same. }
  rewrite Hs0. cbn [attrs]. rewrite load_loop_fixed.
  - cbn [attrs printed]. do 2 f_equal. rewrite <- app_assoc. reflexivity.
  - intros k _. unfold attr_of at 1 2 3. cbn [attrs]. fold (attr_of s k).
    intros Hv. pose proof (@attr_of_get _ _ Hv) as Hk.
    assert (Hsd : has_state_dict (attr_of s k) = true)
      by now rewrite (Hsame _ _ Hk).
    destruct (Hfix _ _ Hk Hsd) as (c & Hc & Hload).
    exists c. split; [|exact Hload].
    now rewrite (@saved_get _ _ Hck), Hget, Hk, Hsd, Hc.
Qed.

Lemma capture_resume_round_trip_witness :
  exists state ck,
    state_dict has_load_state_dict torch_state_dict "2024-05-01T10:00:00"
      sample_solver = Ok state
    /\ saved state = Some ck
    /\ load_resume_state (fun _ => Raise RuntimeError) (fun _ => Ok ck)
         "last.pth" sample_solver
       = (Ok tt,
          {| attrs := attrs sample_solver;
             printed := [ Load_last_epoch; Load_component "model";
                          Load_component "ema";
                          Load_component "optimizer" ] |}).
Proof.
  destruct (@capture_resume_round_trip has_load_state_dict torch_state_dict
              "2024-05-01T10:00:00" sample_solver (BInt (-1))
              sample_solver_wf eq_refl)
    as (state & ck & Hrun & Hck & Hload).
  - intros k v _. reflexivity.
  - intros k v Hk Hv. cbv [sample_solver attrs Dict.get] in Hk.
    repeat match type of Hk with
           | context [String.eqb ?a k] =>
               destruct (String.eqb_spec a k) as [<- | ?]
           end;
      try discriminate Hk; injection Hk as <-;
      try discriminate Hv;
      eexists; split; reflexivity.
  - exists state, ck. split; [exact Hrun|]. split; [exact Hck|].
    exact (Hload (fun _ => Raise RuntimeError) (fun _ => Ok ck)
             "last.pth"%string eq_refl).
Defined.

(** ** A restore that raises *)

Lemma load_component_raises state k s b e v' :
  has_load_state_dict (attr_of s k) = true ->
  Dict.get state k = Some b ->
  component_load_state_dict (attr_of s k) b = (Raise e, v') ->
  load_component state k s
  = (Raise e, {| attrs := Dict.set (attrs s) k v'; printed := printed s |}).
Proof.
  intros Hv Hb Hload. unfold_component. rewrite Hv, Hb. simpl.
  now rewrite Hload.
Qed.

(** X17: A component whose restore raises ends the resume where it
    stands: for every solver with unique attribute names and every
    checkpoint, if the attributes before [k] restore without error (and
    the model does not have to stand in for the EMA), while the restore of
    [k] from its entry raises [e], then [load_state_dict] raises [e]; the
    attributes before [k] have been restored and reported, [k] is left as
    its failed restore left it and is not reported, and the attributes
    after [k] are neither restored nor reported: they are as they were.
    [s0] is the solver once [last_epoch] has been set, which comes first
    and is kept. *)
Theorem restore_failure_is_partial
  (state : Checkpoint) (s : solver) (before after : list string)
  (k : string) (b : blob) (e : exn) :
  let s0 := after_last_epoch state s in
  Dict.wf (attrs s) ->
  Dict.keys (attrs s0) = before ++ k :: after ->
  (In "ema"%string before ->
   Dict.mem state "ema" = true
   \/ has_load_state_dict (attr_of s0 "ema") = false) ->
  (forall k' b',
      In k' before -> has_load_state_dict (attr_of s0 k') = true ->
      Dict.get state k' = Some b' ->
      fst (component_load_state_dict (attr_of s0 k') b') = Ok tt) ->
  has_load_state_dict (attr_of s0 k) = true ->
  Dict.get state k = Some b ->
  fst (component_load_state_dict (attr_of s0 k) b) = Raise e ->
  let s' := snd (load_state_dict state s) in
  fst (load_state_dict state s) = Raise e
  /\ (forall k', In k' before ->
                 attr_of s' k' = restored state k' (attr_of s0 k'))
  /\ attr_of s' k = snd (component_load_state_dict (attr_of s0 k) b)
  /\ (forall k', In k' after -> attr_of s' k' = attr_of s0 k')
  /\ printed s'
     = printed s0 ++ flat_map (fun k' => report state k' (attr_of s0 k')) before.
Proof.
  intros s0 Hwf Hkeys Hema Hok Hv Hb Hfail s'. subst s'.
  pose proof (@after_last_epoch_wf state s Hwf) as Hnd. fold s0 in Hnd.
  unfold Dict.wf in Hnd. rewrite Hkeys in Hnd.
  assert (Hk : ~ In k before).
  { intros Hin. apply NoDup_remove_2 in Hnd. apply Hnd.
    apply in_or_app. now left. }
  assert (Hbefore : NoDup before) by now apply NoDup_app_remove_r in Hnd.
  assert (Hloop : exists s1,
             for_eachM before (fun _ k => load_component state k) tt s0
             = (Ok tt, s1)
             /\ (forall k, ~ In k before -> attr_of s1 k = attr_of s0 k)
             /\ (forall k, In k before ->
                           attr_of s1 k = restored state k (attr_of s0 k))
             /\ printed s1
                = printed s0
                    ++ flat_map (fun k => report state k (attr_of s0 k)) before).
  { destruct (in_dec string_dec "ema"%string before) as [Hin | Hnotin].
    - destruct (@run_components_entry state before s0 Hbefore (Hema Hin) Hok)
        as (s1 & H1 & H2 & H3 & H4 & _). eauto 6.
    - destruct (@run_components state before s0 Hbefore Hnotin Hok)
        as (s1 & H1 & H2 & H3 & H4 & _). eauto 6. }
  destruct Hloop as (s1 & Hrun & Hframe & Hdone & Hout).
  destruct (component_load_state_dict (attr_of s0 k) b) as [r v'] eqn:Hload.
  simpl in Hfail. subst r.
  assert (Heq : load_state_dict state s
                = (Raise e, {| attrs := Dict.set (attrs s1) k v';
                               printed := printed s1 |})).
  { rewrite load_state_dict_unfold. fold s0. rewrite Hkeys, for_eachM_app.
    unfold bind at 1. rewrite Hrun. simpl. unfold bind at 1.
    now rewrite (@load_component_raises state k s1 b e v');
      [| rewrite Hframe | | rewrite Hframe]. }
  rewrite Heq. cbn [fst snd]. split; [reflexivity|]. split; [|split; [|split]].
  - intros k' Hin. rewrite attr_of_set_other by (intros ->; contradiction).
    fold (attr_of s1 k'). now apply Hdone.
  - apply attr_of_set_same.
  - intros k' Hin.
    assert (Hne : k <> k').
    { intros ->. apply NoDup_remove_2 in Hnd. apply Hnd.
      apply in_or_app. now right. }
    rewrite attr_of_set_other by assumption. fold (attr_of s1 k').
    apply Hframe. intros Hin'. apply NoDup_remove_1 in Hnd.
    revert Hin Hin' Hnd. clear. intros Ha Hb Hnd.
    induction before as [|x before IH]; [destruct Hb|].
    inversion Hnd as [|? ? Hx Hnd']; subst. destruct Hb as [-> | Hb].
    + apply Hx. apply in_or_app. now right.
    + now apply IH.
  - exact Hout.
Qed.

Lemma restore_failure_is_partial_witness :
  let s' := snd (load_state_dict stale_checkpoint sample_solver) in
  fst (load_state_dict stale_checkpoint sample_solver) = Raise RuntimeError
  /\ attr_of s' "ema" = attr_of sample_solver "ema"
  /\ attr_of s' "optimizer" = attr_of sample_solver "optimizer"
  /\ printed s' = [Load_last_epoch].
Proof.
  destruct (@restore_failure_is_partial stale_checkpoint sample_solver
              ["cfg"%string] ["ema"; "last_epoch"; "optimizer"]%string
              "model"%string
              (BParams [("backbone.weight"%string, arange [3; 2] 40)])
              RuntimeError sample_solver_wf eq_refl)
    as (Hraise & _ & _ & Hafter & Hout).
  - intros [E | []]. discriminate E.
  - intros k' b' [<- | []] Hv. discriminate Hv.
  - reflexivity.
  - reflexivity.
  - reflexivity.
  - split; [exact Hraise|].
    split; [apply (Hafter "ema"%string); simpl; tauto|].
    split; [apply (Hafter "optimizer"%string); simpl; tauto|].
    exact Hout.
Defined.

(** ** Tuning twice *)

(** A remapped tensor remaps to itself. *)
Lemma remap_fixed c p :
  remappable c p ->
  exists r,
    map_class_weights c p = Ok (Some r) /\ size r = size c
    /\ remappable r p /\ map_class_weights r p = Ok (Some r).
Proof.
  intros [Heq | (Hwc & Hwp & n & m & rs & Hc & Hp
                 & [(Hlt & Hn & Hm) | (Hlt & Hn & Hm)])].
  - exists p. split; [now apply map_class_weights_same_size|].
    split; [exact Heq|]. split; [now left|].
    now apply map_class_weights_same_size.
  - destruct (contract_rows Hwc Hwp Hc Hp Hlt Hn Hm)
      as (r & Hr & Hwr & Hsr & Hcop & Hkept).
    rewrite Hc in Hsr.
    destruct (contract_rows Hwr Hwp Hsr Hp Hlt Hn Hm)
      as (r2 & Hr2 & Hwr2 & Hsr2 & Hcop2 & Hkept2).
    exists r. split; [exact Hr|]. split; [congruence|]. split.
    + right. split; [exact Hwr|]. split; [exact Hwp|]. exists n, m, rs.
      split; [exact Hsr|]. split; [exact Hp|]. left. auto.
    + rewrite Hr2. do 2 f_equal.
      apply (tensor_ext (n := n) (rs := rs)); auto; try congruence.
      intros j Hj. destruct (Nat.lt_ge_cases j 80) as [Hlow | Hhigh].
      * now rewrite Hcop2, Hcop.
      * now rewrite Hkept2.
  - destruct (expand_rows Hwc Hwp Hc Hp Hlt Hn Hm)
      as (r & Hr & Hwr & Hsr & Hput & Hkept).
    rewrite Hc in Hsr.
    destruct (expand_rows Hwr Hwp Hsr Hp Hlt Hn Hm)
      as (r2 & Hr2 & Hwr2 & Hsr2 & Hput2 & Hkept2).
    exists r. split; [exact Hr|]. split; [congruence|]. split.
    + right. split; [exact Hwr|]. split; [exact Hwp|]. exists n, m, rs.
      split; [exact Hsr|]. split; [exact Hp|]. right. auto.
    + rewrite Hr2. do 2 f_equal.
      apply (tensor_ext (n := n) (rs := rs)); auto; try congruence.
      intros j Hj.
      destruct (in_dec Nat.eq_dec j (map (fun c => table c + 1) (seq 0 80)))
        as [Hin | Hnot].
      * apply in_map_iff in Hin. destruct Hin as (c0 & <- & Hc0).
        apply in_seq in Hc0. now rewrite Hput2, Hput by lia.
      * apply Hkept2. intros c0 Hc0 ->. apply Hnot. apply in_map_iff.
        exists c0. split; [reflexivity | apply in_seq; lia].
Qed.

(** A head parameter that one side lacks is left alone. *)
Lemma adjust_heads_untouched cur names acc s k :
  Dict.get cur k = None \/ Dict.get (pretrain_obj s) k = None ->
  Dict.get (pretrain_obj (snd (for_eachM names (adjust_head cur) acc s))) k
  = Dict.get (pretrain_obj s) k.
Proof.
  intros H.
  apply (@inv_for_eachM adjust_store string (list string)
           (fun s' => Dict.get (pretrain_obj s') k = Dict.get (pretrain_obj s) k)
           (adjust_head cur) names); [|reflexivity].
  intros l x _ s1 Hs1. destruct (string_dec x k) as [-> | Hne].
  - unfold_store.
    assert (Hc : Dict.mem cur k && Dict.mem (pretrain_obj s1) k = false).
    { unfold Dict.mem. destruct H as [H | H]; [now rewrite H|].
      rewrite Hs1, H. apply andb_false_r. }
    rewrite Hc. exact Hs1.
  - now apply adjust_head_frame.
Qed.

(** What the adjustment hands to the matcher when both sides have the
    denoising embedding and every shared head can be remapped. *)
Lemma tuning_adjusted module pre tc tp :
  Dict.get module denoising_key = Some tc ->
  Dict.get pre denoising_key = Some tp ->
  (forall head c p,
      In head head_param_names -> Dict.get module head = Some c ->
      Dict.get pre head = Some p -> remappable c p) ->
  exists adj,
    adjust_and_match module pre = (_matched_state module adj, [])
    /\ (forall k, ~ In k head_param_names -> k <> denoising_key ->
                  Dict.get adj k = Dict.get pre k)
    /\ Dict.get adj denoising_key
       = (if size_eqb (size tp) (size tc) then Some tp else None)
    /\ (forall head c p,
          In head head_param_names -> Dict.get module head = Some c ->
          Dict.get pre head = Some p ->
          exists r, map_class_weights c p = Ok (Some r)
                    /\ Dict.get adj head = Some r)
    /\ (forall head,
          In head head_param_names ->
          Dict.get module head = None \/ Dict.get pre head = None ->
          Dict.get adj head = Dict.get pre head).
Proof.
  intros Htc Htp Hall.
  assert (Hstart : exists pre0,
             _adjust_head_parameters module
               {| pretrain_obj := pre; stdout := [] |}
             = bind (for_eachM head_param_names (adjust_head module) [])
                 (fun _ s => (Ok (pretrain_obj s), s))
                 {| pretrain_obj := pre0; stdout := [] |}
             /\ (forall k, k <> denoising_key ->
                           Dict.get pre0 k = Dict.get pre k)
             /\ Dict.get pre0 denoising_key
                = (if size_eqb (size tp) (size tc) then Some tp else None)).
  { destruct (size_eqb (size tp) (size tc)) eqn:Es.
    - exists pre. split; [|split; [reflexivity | exact Htp]].
      apply size_eqb_eq in Es.
      exact (@adjust_head_parameters_keep module pre [] tc tp Htc Htp Es).
    - exists (Dict.del pre denoising_key). split; [|split].
      + apply size_eqb_neq in Es.
        exact (@adjust_head_parameters_drop module pre [] tc tp Htc Htp Es).
      + intros k Hk. apply get_del_other. congruence.
      + apply get_del_same. }
  destruct Hstart as (pre0 & Hrun & Hpre0 & Hden).
  assert (Hheads : forall head, In head head_param_names ->
                                Dict.get pre0 head = Dict.get pre head).
  { intros head Hin. apply Hpre0. now apply denoising_key_not_head. }
  pose proof (@adjust_heads_untouched module head_param_names []
                {| pretrain_obj := pre0; stdout := [] |}) as Hleft.
  destruct (@adjust_heads_ok module head_param_names []
              {| pretrain_obj := pre0; stdout := [] |} head_param_names_nodup)
    as (acc' & s' & Hloop & Hout & Hkeep & Hdone).
  { simpl. intros head c p Hin Hc Hp. apply (Hall head); auto.
    now rewrite <- Hheads. }
  rewrite Hloop in Hleft. simpl in Hleft, Hout, Hkeep, Hdone.
  exists (pretrain_obj s'). split; [|split; [|split; [|split]]].
  - unfold adjust_and_match. rewrite Hrun. unfold bind at 1. rewrite Hloop.
    now rewrite Hout.
  - intros k Hk Hd. rewrite Hkeep by assumption. now apply Hpre0.
  - rewrite Hkeep; [exact Hden|].
    intros Hin. now apply denoising_key_not_head in Hin.
  - intros head c p Hin Hc Hp. apply (Hdone head c p Hin Hc).
    now rewrite Hheads.
  - intros head Hin H. rewrite Hleft; [now apply Hheads|].
    destruct H as [H | H]; [now left | right; now rewrite Hheads].
Qed.

Lemma matched_state_ext T X Y :
  (forall k, Dict.get X k = Dict.get Y k) ->
  _matched_state T X = _matched_state T Y.
Proof.
  intros H. unfold _matched_state.
  rewrite (fold_left_pointwise (match_item X) (match_item Y)); [reflexivity|].
  intros [[m mi] un] [k v]. unfold match_item, Dict.mem. now rewrite H.
Qed.

Lemma matched_state_shapes S : forall T T',
  map (fun kv : string * tensor => (fst kv, size (snd kv))) T
  = map (fun kv : string * tensor => (fst kv, size (snd kv))) T' ->
  _matched_state T S = _matched_state T' S.
Proof.
  intros T T' H. unfold _matched_state.
  enough (Hfold : forall acc, fold_left (match_item S) T acc
                              = fold_left (match_item S) T' acc)
    by now rewrite Hfold.
  revert T' H. induction T as [|[k v] T IH]; intros [|[k' v'] T'] H acc;
    simpl in H; try discriminate; [reflexivity|].
  injection H as Hk Hs Hrest. subst k'. simpl.
  assert (Hitem : match_item S acc (k, v) = match_item S acc (k, v')).
  { unfold match_item. destruct acc as [[m mi] un].
    destruct (Dict.mem S k); [|reflexivity].
    destruct (Dict.get S k); [|reflexivity]. now rewrite Hs. }
  rewrite Hitem. now apply IH.
Qed.

Lemma nn_load_shape_list own sd strict :
  map (fun kv : string * tensor => (fst kv, size (snd kv)))
    (snd (nn_load_state_dict own sd strict))
  = map (fun kv : string * tensor => (fst kv, size (snd kv))) own.
Proof.
  unfold nn_load_state_dict.
  match goal with
  | |- context [if ?b then _ else _] => destruct b
  end; simpl; rewrite map_map; apply map_ext;
    intros [k v]; destruct (Dict.get sd k) as [p|]; auto;
    destruct (size_eqb (size p) (size v)) eqn:E; auto;
    apply size_eqb_eq in E; simpl; now rewrite E.
Qed.

Lemma nn_load_fixed own sd strict :
  Dict.wf own ->
  (forall k p v, Dict.get sd k = Some p -> Dict.get own k = Some v ->
                 size p = size v -> p = v) ->
  snd (nn_load_state_dict own sd strict) = own.
Proof.
  intros Hwf H. unfold nn_load_state_dict.
  match goal with
  | |- context [if ?b then _ else _] => destruct b
  end; simpl; rewrite <- (map_id own) at 2; apply map_ext_in;
    intros [k v] Hin; pose proof (@in_get _ _ _ _ Hwf Hin) as Hk;
    destruct (Dict.get sd k) as [p|] eqn:Ep; auto;
    destruct (size_eqb (size p) (size v)) eqn:E; auto;
    apply size_eqb_eq in E; f_equal; now apply (H k).
Qed.

(** X18: Tuning from the same checkpoint a second time changes nothing:
    for every model with unique parameter names and every checkpoint whose
    selected mapping, like the model, has the denoising embedding, if every
    score-head parameter the two share can be remapped, then
    [load_tuning_state] returns, and run again on the tuned model with the
    checkpoint as it is read from the file it returns the same model,
    tensor for tensor, and prints the same report.  The rows of a head that
    the table does not reach come from the model, and the second pass finds
    there what the first one left. *)
Theorem tuning_is_idempotent
  (module pretrain : ParameterMapping) (state : Checkpoint) :
  Dict.wf module ->
  select_pretrain_state_dict state = Ok pretrain ->
  Dict.mem module denoising_key = true ->
  Dict.mem pretrain denoising_key = true ->
  (forall head c p,
      In head head_param_names -> Dict.get module head = Some c ->
      Dict.get pretrain head = Some p -> remappable c p) ->
  exists module' infos,
    load_tuning_state module state = (Ok tt, module', [Load_model infos])
    /\ load_tuning_state module' state = (Ok tt, module', [Load_model infos]).
Proof.
  intros Hwf Hsel Hdc Hdp Hall.
  apply mem_get in Hdc as [tc Htc]. apply mem_get in Hdp as [tp Htp].
  destruct (@tuning_adjusted module pretrain tc tp Htc Htp Hall)
    as (adj & Hrun & Hother & Hden & Hdone & Hleft).
  destruct (@load_matched module adj Hwf)
    as (module' & Hload & Hkeys & Hshapes & Hget).
  pose proof (nn_load_shape_list module (fst (_matched_state module adj)) false)
    as Hlist.
  rewrite Hload in Hlist. cbn [snd] in Hlist.
  assert (Hwf' : Dict.wf module') by (unfold Dict.wf; now rewrite Hkeys).
  assert (Hhead' : forall head c p,
             In head head_param_names -> Dict.get module head = Some c ->
             Dict.get pretrain head = Some p ->
             exists r,
               Dict.get adj head = Some r /\ Dict.get module' head = Some r
               /\ remappable r p /\ map_class_weights r p = Ok (Some r)).
  { intros head c p Hin Hc Hp.
    destruct (@remap_fixed c p (Hall head c p Hin Hc Hp))
      as (r & Hr & Hsz & Hrem & Hfix).
    destruct (Hdone head c p Hin Hc Hp) as (r' & Hr' & Hadj).
    assert (r' = r) by congruence. subst r'.
    assert (Hstat : Dict.get (fst (_matched_state module adj)) head = Some r).
    { apply matched_get. exists c. split; [now apply get_in|].
      split; [exact Hadj | congruence]. }
    exists r. split; [exact Hadj|]. split; [now rewrite Hget, Hstat|].
    split; [exact Hrem | exact Hfix]. }
  assert (Hden' : exists tc', Dict.get module' denoising_key = Some tc'
                              /\ size tc' = size tc).
  { pose proof (Hshapes denoising_key) as H. rewrite Htc in H.
    destruct (Dict.get module' denoising_key) as [tc'|]; simpl in H;
      [|discriminate].
    exists tc'. split; [reflexivity | congruence]. }
  destruct Hden' as (tc' & Htc' & Hsz').
  destruct (@tuning_adjusted module' pretrain tc' tp Htc' Htp)
    as (adj2 & Hrun2 & Hother2 & Hden2 & Hdone2 & Hleft2).
  { intros head c' p Hin Hc' Hp.
    pose proof (Hshapes head) as H. rewrite Hc' in H.
    destruct (Dict.get module head) as [c|] eqn:Hc; simpl in H;
      [|discriminate].
    destruct (Hhead' head c p Hin Hc Hp) as (r & _ & Hm' & Hrem & _).
    assert (c' = r) by congruence. now subst. }
  assert (Hsame : forall k, Dict.get adj2 k = Dict.get adj k).
  { intros k. destruct (string_dec k denoising_key) as [-> | Hk].
    - now rewrite Hden2, Hden, Hsz'.
    - destruct (in_dec string_dec k head_param_names) as [Hin | Hnot].
      + destruct (Dict.get module k) as [c|] eqn:Hc.
        * destruct (Dict.get pretrain k) as [p|] eqn:Hp.
          -- destruct (Hhead' k c p Hin Hc Hp)
               as (r & Hadj & Hm' & _ & Hfix).
             destruct (Hdone2 k r p Hin Hm' Hp) as (r2 & Hr2 & Hadj2).
             rewrite Hadj2, Hadj. congruence.
          -- now rewrite Hleft2, Hleft by auto.
        * assert (Hnone : Dict.get module' k = None).
          { pose proof (Hshapes k) as H. rewrite Hc in H.
            now destruct (Dict.get module' k). }
          now rewrite Hleft2, Hleft by auto.
      + now rewrite Hother2, Hother by assumption. }
  assert (Hmatch : _matched_state module' adj2 = _matched_state module adj).
  { rewrite (@matched_state_ext module' adj2 adj Hsame).
    now apply matched_state_shapes. }
  pose proof (@nn_load_matched module' adj2 Hwf') as Hok.
  rewrite Hmatch in Hok.
  pose proof (@nn_load_fixed module' (fst (_matched_state module adj)) false
                Hwf') as Hfixed.
  exists module', (snd (_matched_state module adj)).
  unfold load_tuning_state. rewrite Hsel, Hrun, Hrun2, Hmatch.
  destruct (_matched_state module adj) as [stat infos]. cbn [fst snd] in *.
  rewrite Hload. split; [reflexivity|].
  destruct (nn_load_state_dict module' stat false) as [res module''].
  cbn [fst snd] in *. subst res. rewrite Hfixed; [reflexivity|].
  intros k p v Hp Hv _. specialize (Hget k). rewrite Hp in Hget. congruence.
Qed.

Lemma tuning_is_idempotent_witness :
  exists module' infos,
    load_tuning_state sample_cur sample_checkpoint
    = (Ok tt, module', [Load_model infos])
    /\ load_tuning_state module' sample_checkpoint
       = (Ok tt, module', [Load_model infos]).
Proof.
  apply (@tuning_is_idempotent sample_cur sample_pretrain sample_checkpoint
           sample_cur_wf eq_refl eq_refl eq_refl sample_heads_remappable).
Defined.
